(** * FlowCSS core: reactive variables, expression parser, frame scheduler,
    result cache and the engine facade.

  A shallow embedding of the TypeScript sources
    - [src/core/FlowVariable.ts]    (module [FlowVariable])
    - [src/core/FlowParser.ts]      (module [FlowParser])
    - [src/core/ExecutionEngine.ts] (module [ExecutionEngine])
    - [src/core/CacheManager.ts]    (module [CacheManager])
    - [src/core/FlowEngine.ts]      (module [FlowEngine])

  Conventions of the embedding.
    - JavaScript objects live in an arena: an object reference is an index
      into a list, so aliasing and in-place mutation are explicit.
    - [Set] and [Map] iterate in insertion order; they are lists without
      duplicates (association lists for [Map]).
    - Clocks ([performance.now], [Date.now]) are inputs: either an argument
      of the operation or an oracle [nat -> Q] read through a counter.
    - Strings are sequences of 8-bit code units.
    - Numbers are IEEE 754 doubles, each held as the rational it equals;
      arithmetic and [parseFloat] round to the nearest double, ties to
      even, and overflow to an infinity.  The two zeros are one value:
      nothing in these sources tells them apart. *)

From Stdlib Require Import Ascii String ZArith QArith Qminmax Qround Qabs Lia.
From stdpp Require Import base tactics option list strings relations sorting.

Set Warnings "-register-all".

Local Open Scope string_scope.
Local Open Scope list_scope.
Local Open Scope nat_scope.

(** ** JavaScript values *)

Module JS.

(** The primitive values that flow through variables, the cache and
    dependency maps.  [VNum q] is the finite double that equals [q]. *)
Inductive JsVal : Type :=
| VUndefined
| VNull
| VBool (b : bool)
| VNum (q : Q)
| VNaN
| VStr (s : string).

(** [a === b] on primitives.  [NaN] is not equal to itself. *)
Definition strict_eq (a b : JsVal) : bool :=
  match a, b with
  | VUndefined, VUndefined => true
  | VNull, VNull => true
  | VBool x, VBool y => Bool.eqb x y
  | VNum x, VNum y => Qeq_bool x y
  | VStr x, VStr y => if decide (x = y) then true else false
  | _, _ => false
  end.

(** *** Characters and strings *)

Definition code (c : ascii) : nat := nat_of_ascii c.

(** [/\s/]: the white space and line terminators below U+0100. *)
Definition is_space (c : ascii) : bool :=
  let n := code c in
  (n =? 9) || (n =? 10) || (n =? 11) || (n =? 12) || (n =? 13) || (n =? 32) || (n =? 160).

(** [/\d/] *)
Definition is_digit (c : ascii) : bool :=
  let n := code c in (48 <=? n) && (n <=? 57).

(** [/[a-zA-Z_]/] *)
Definition is_alpha_ (c : ascii) : bool :=
  let n := code c in
  ((97 <=? n) && (n <=? 122)) || ((65 <=? n) && (n <=? 90)) || (n =? 95).

(** [/\w/] *)
Definition is_word (c : ascii) : bool := is_alpha_ c || is_digit c.

(** [/./]: anything but a line terminator. *)
Definition is_dot (c : ascii) : bool :=
  let n := code c in negb ((n =? 10) || (n =? 13)).

Definition is_char (x : ascii) (c : ascii) : bool :=
  if decide (c = x) then true else false.

Definition str_eqb (a b : string) : bool :=
  if decide (a = b) then true else false.

Definition chars (s : string) : list ascii := list_ascii_of_string s.
Definition str (l : list ascii) : string := string_of_list_ascii l.

(** [s.trim()] *)
Fixpoint drop_space (l : list ascii) : list ascii :=
  match l with
  | c :: l' => if is_space c then drop_space l' else l
  | [] => []
  end.

Definition trim (s : string) : string :=
  str (rev (drop_space (rev (drop_space (chars s))))).

(** [l] starts with [p]: the rest of [l] after the prefix. *)
Fixpoint strip_prefix (p l : list ascii) : option (list ascii) :=
  match p, l with
  | [], _ => Some l
  | x :: p', y :: l' => if decide (x = y) then strip_prefix p' l' else None
  | _ :: _, [] => None
  end.

(** [s.includes(sub)] *)
Fixpoint includes_from (sub l : list ascii) : bool :=
  match strip_prefix sub l with
  | Some _ => true
  | None => match l with
            | _ :: l' => includes_from sub l'
            | [] => false
            end
  end.

Definition includes (s sub : string) : bool := includes_from (chars sub) (chars s).

(** [s.split(sep)] for a one-character separator. *)
Fixpoint split_loop (sep : ascii) (l : list ascii) (current : list ascii) : list string :=
  match l with
  | [] => [str (rev current)]
  | c :: l' =>
      if decide (c = sep) then str (rev current) :: split_loop sep l' []
      else split_loop sep l' (c :: current)
  end.

Definition split (sep : ascii) (s : string) : list string :=
  split_loop sep (chars s) [].

(** [l.join(sep)] *)
Fixpoint join (sep : string) (l : list string) : string :=
  match l with
  | [] => ""
  | [x] => x
  | x :: l' => x +:+ sep +:+ join sep l'
  end.

(** *** Printing numbers *)

Definition digit_char (d : N) : ascii :=
  ascii_of_N (if (d <? 10)%N then 48 + d else 87 + d)%N.

Fixpoint digits_loop (fuel : nat) (base n : N) (acc : string) : string :=
  match fuel with
  | O => acc
  | S fuel' =>
      let acc' := String (digit_char (n mod base)%N) acc in
      if (n <? base)%N then acc' else digits_loop fuel' base (n / base)%N acc'
  end.

Definition N_to_string (base n : N) : string :=
  digits_loop (S (N.to_nat (N.log2 n))) base n "".

(** [z.toString(base)] for an integer [z]. *)
Definition Z_to_string (base : N) (z : Z) : string :=
  match z with
  | Zneg p => "-" +:+ N_to_string base (Npos p)
  | _ => N_to_string base (Z.to_N z)
  end.

(** *** Numbers: IEEE 754 binary64 *)

(** [b ^ e] for an integer [e] of either sign. *)
Definition Qpow (b : Z) (e : Z) : Q :=
  if (0 <=? e)%Z then inject_Z (b ^ e) else 1 # Z.to_pos (b ^ (- e)).

(** [floor (log2 q)] for [q > 0]. *)
Definition floor_log2 (q : Q) : Z :=
  let l := (Z.log2 (Qnum q) - Z.log2 (Z.pos (Qden q)))%Z in
  if Qle_bool (Qpow 2 l) q then l else (l - 1)%Z.

(** The integer nearest to [q >= 0], the even one of two. *)
Definition round_half_even (q : Q) : Z :=
  let f := Qfloor q in
  match ((q - inject_Z f) ?= (1 # 2))%Q with
  | Lt => f
  | Gt => (f + 1)%Z
  | Eq => if Z.even f then f else (f + 1)%Z
  end.

(** The double nearest to the real [q] (round to nearest, ties to even):
    53 bits of precision, exponents down to that of the subnormals;
    [None] when the magnitude rounds beyond the largest double. *)
Definition round_double (q : Q) : option Q :=
  if Qeq_bool q 0 then Some 0%Q
  else
    let a := Qabs q in
    let e := Z.max (-1074) (floor_log2 a - 52) in
    let m := round_half_even (a / Qpow 2 e)%Q in
    let r := Qred (inject_Z m * Qpow 2 e)%Q in
    if Qle_bool (Qpow 2 1024) r then None
    else Some (if (Qnum q <? 0)%Z then Qopp r else r).

(** A number value: a finite double, an infinity or [NaN]. *)
Inductive Num : Type :=
| Finite (q : Q)
| Infinite (negative : bool)
| NotANumber.

(** The number an exact real result becomes. *)
Definition to_num (q : Q) : Num :=
  match round_double q with
  | Some r => Finite r
  | None => Infinite (Qnum q <? 0)%Z
  end.

Definition is_negative (q : Q) : bool := (Qnum q <? 0)%Z.

(** [x + y], [x - y], [x * y] and [x / y] on numbers. *)
Definition num_neg (x : Num) : Num :=
  match x with
  | Finite a => Finite (Qopp a)
  | Infinite s => Infinite (negb s)
  | NotANumber => NotANumber
  end.

Definition num_add (x y : Num) : Num :=
  match x, y with
  | Finite a, Finite b => to_num (a + b)
  | Infinite s, Finite _ | Finite _, Infinite s => Infinite s
  | Infinite s, Infinite s' => if Bool.eqb s s' then Infinite s else NotANumber
  | _, _ => NotANumber
  end.

Definition num_sub (x y : Num) : Num := num_add x (num_neg y).

Definition num_mul (x y : Num) : Num :=
  match x, y with
  | Finite a, Finite b => to_num (a * b)
  | Infinite s, Finite b | Finite b, Infinite s =>
      if Qeq_bool b 0 then NotANumber else Infinite (xorb s (is_negative b))
  | Infinite s, Infinite s' => Infinite (xorb s s')
  | _, _ => NotANumber
  end.

(** Division; a zero divisor is taken as [+0]. *)
Definition num_div (x y : Num) : Num :=
  match x, y with
  | Finite a, Finite b =>
      if Qeq_bool b 0 then
        if Qeq_bool a 0 then NotANumber else Infinite (is_negative a)
      else to_num (a / b)
  | Finite _, Infinite _ => Finite 0
  | Infinite s, Finite b => Infinite (xorb s (is_negative b))
  | _, _ => NotANumber
  end.

(** [floor (log10 q)] for [q > 0]: the estimate from [floor_log2] is off
    by one at most. *)
Definition floor_log10 (q : Q) : Z :=
  let est := ((floor_log2 q * 30103) / 100000)%Z in
  if Qle_bool (Qpow 10 (est + 1)) q then (est + 1)%Z
  else if Qle_bool (Qpow 10 est) q then est
  else (est - 1)%Z.

(** The digits [Number::toString] prints for a positive double [x] with
    [10 ^ (n - 1) <= x < 10 ^ n]: the least [k] and the [k]-digit integer
    [s] for which [s * 10 ^ (n - k)] rounds to [x], the one nearest to [x]
    of two (the even one on a tie).  Seventeen digits always suffice.  The
    result is [(s, k, n)]; when the digits round up to [10 ^ k] they are
    the single digit 1 of the next decade. *)
Fixpoint shortest_digits (fuel : nat) (k : Z) (n : Z) (x : Q) : N * Z * Z :=
  let scale := Qpow 10 (n - k) in
  let lo := Qfloor (x / scale)%Q in
  let hi := (lo + 1)%Z in
  let fits s := match round_double (inject_Z s * scale)%Q with
                | Some r => Qeq_bool r x
                | None => false
                end in
  let pick s := if (s =? 10 ^ k)%Z then (1%N, 1%Z, (n + 1)%Z) else (Z.to_N s, k, n) in
  match fuel with
  | O => pick lo
  | S fuel' =>
      match fits lo, fits hi with
      | true, false => pick lo
      | false, true => pick hi
      | true, true =>
          match ((x - inject_Z lo * scale) ?= (inject_Z hi * scale - x))%Q with
          | Lt => pick lo
          | Gt => pick hi
          | Eq => if Z.even lo then pick lo else pick hi
          end
      | false, false => shortest_digits fuel' (k + 1) n x
      end
  end.

Definition zeros (n : Z) : string := string_of_list_ascii (repeat "0"%char (Z.to_nat n)).

(** [Number::toString(x)], radix 10, for a positive double [x]: plain
    digits for [1e-6 <= x < 1e21], exponent notation otherwise. *)
Definition positive_to_string (x : Q) : string :=
  let '(s, k, n) := shortest_digits 17 1 (floor_log10 x + 1) x in
  let digits := list_ascii_of_string (N_to_string 10 s) in
  if ((-5 <=? n) && (n <=? 21))%Z then
    if (k <=? n)%Z then string_of_list_ascii digits +:+ zeros (n - k)
    else if (0 <? n)%Z then
      string_of_list_ascii (take (Z.to_nat n) digits) +:+ "." +:+
      string_of_list_ascii (drop (Z.to_nat n) digits)
    else "0." +:+ zeros (- n) +:+ string_of_list_ascii digits
  else
    let e := (n - 1)%Z in
    let exponent := (if (e <? 0)%Z then "-" else "+") +:+ Z_to_string 10 (Z.abs e) in
    if (k =? 1)%Z then string_of_list_ascii digits +:+ "e" +:+ exponent
    else string_of_list_ascii (take 1 digits) +:+ "." +:+
         string_of_list_ascii (drop 1 digits) +:+ "e" +:+ exponent.

(** [String(x)] / [x.toString()] of a number. *)
Definition num_to_string (x : Num) : string :=
  match x with
  | Finite q =>
      if Qeq_bool q 0 then "0"
      else if is_negative q then "-" +:+ positive_to_string (Qopp q)
      else positive_to_string q
  | Infinite s => if s then "-Infinity" else "Infinity"
  | NotANumber => "NaN"
  end.

(** [String(q)] / [q.toString()] of the double [q]. *)
Definition number_to_string (q : Q) : string := num_to_string (to_num q).

(** Monadic [forEach]: run [f] on every element in order, threading the
    state, stopping at the first failure. *)
Fixpoint forEachM {A S : Type} (f : A -> S -> option S) (l : list A) (s : S)
  : option S :=
  match l with
  | [] => Some s
  | x :: l' =>
      match f x s with
      | Some s' => forEachM f l' s'
      | None => None
      end
  end.

End JS.

(** ** FlowVariable.ts *)

Module FlowVariable.
Import JS.

(** A reference to a [FlowVariable] object. *)
Abbreviation addr := nat (only parsing).

(** A subscriber callback.  Callbacks are opaque: calling one is recorded
    in the event log and has no other effect on the variable graph. *)
Abbreviation callback := nat (only parsing).

Record FlowVariable : Type := mkVar {
  name : string;
  _value : JsVal;
  _dependencies : list string;   (* Set<string> *)
  _dependents : list addr;       (* Set<FlowVariable> *)
  _lastComputed : Q;
  _dirty : bool;
  _listeners : list callback     (* Set<(value) => void> *)
}.

Inductive Event : Type :=
| EvCall (cb : callback) (v : JsVal)   (* callback(this._value) *)
| EvDirty (a : addr).                  (* this._dirty = true, in markDirty *)

Record World : Type := mkWorld {
  heap : list FlowVariable;
  log : list Event
}.

Definition with_dirty (v : FlowVariable) (d : bool) : FlowVariable :=
  mkVar (name v) (_value v) (_dependencies v) (_dependents v)
        (_lastComputed v) d (_listeners v).

Definition with_listeners (v : FlowVariable) (ls : list callback) : FlowVariable :=
  mkVar (name v) (_value v) (_dependencies v) (_dependents v)
        (_lastComputed v) (_dirty v) ls.

Definition with_dependencies (v : FlowVariable) (ds : list string) : FlowVariable :=
  mkVar (name v) (_value v) ds (_dependents v)
        (_lastComputed v) (_dirty v) (_listeners v).

Definition with_dependents (v : FlowVariable) (ds : list addr) : FlowVariable :=
  mkVar (name v) (_value v) (_dependencies v) ds
        (_lastComputed v) (_dirty v) (_listeners v).

(** [Set.prototype.add]: append unless already a member. *)
Definition set_add {A : Type} `{EqDecision A} (x : A) (s : list A) : list A :=
  if decide (x ∈ s) then s else s ++ [x].

(** [Set.prototype.delete]. *)
Definition set_delete {A : Type} `{EqDecision A} (x : A) (s : list A) : list A :=
  List.filter (fun y => if decide (y = x) then false else true) s.

(** [new FlowVariable(name)] before the optional initial [set]:
    the field initialisers of the class. *)
Definition fresh (n : string) : FlowVariable :=
  mkVar n VUndefined [] [] 0%Q true [].



(** [this.addDependency(variable)]: [a] is [this], [b] is [variable]. *)
Definition addDependency (a b : addr) (w : World) : World :=
  match heap w !! a, heap w !! b with
  | Some va, Some vb =>
      let h1 := <[a := with_dependencies va (set_add (name vb) (_dependencies va))]> (heap w) in
      match h1 !! b with
      | Some vb' => mkWorld (<[b := with_dependents vb' (set_add a (_dependents vb'))]> h1) (log w)
      | None => w
      end
  | _, _ => w
  end.

(** [_notifyListeners]: every listener is called with the current value;
    an exception thrown by a listener is caught inside the loop. *)
Definition _notifyListeners (a : addr) (w : World) : World :=
  match heap w !! a with
  | Some v => mkWorld (heap w) (log w ++ map (fun cb => EvCall cb (_value v)) (_listeners v))
  | None => w
  end.

(** The body of [_notifyDependents], with the callee [dependent.markDirty]
    abstracted so that the two mutually recursive methods can be tied by
    one structural recursion on the fuel. *)
Definition notifyDependentsWith (markDirty : addr -> World -> option World)
  (a : addr) (w : World) : option World :=
  match heap w !! a with
  | Some v => forEachM markDirty (_dependents v) w
  | None => None
  end.

(** [markDirty]: nothing when already dirty; otherwise raise the flag and
    only then notify the dependents.  [None] means the fuel ran out. *)
Fixpoint markDirty (fuel : nat) (a : addr) (w : World) : option World :=
  match fuel with
  | O => None
  | S fuel' =>
      match heap w !! a with
      | Some v =>
          if _dirty v then Some w
          else
            notifyDependentsWith (markDirty fuel') a
              (mkWorld (<[a := with_dirty v true]> (heap w)) (log w ++ [EvDirty a]))
      | None => None
      end
  end.

Definition _notifyDependents (fuel : nat) (a : addr) (w : World) : option World :=
  notifyDependentsWith (markDirty fuel) a w.

(** [set(newValue)] at time [now] (the reading of [performance.now()]). *)
Definition set (fuel : nat) (now : Q) (a : addr) (newValue : JsVal) (w : World)
  : option World :=
  match heap w !! a with
  | Some v =>
      if strict_eq (_value v) newValue then Some w
      else
        let v' := mkVar (name v) newValue (_dependencies v) (_dependents v)
                        now false (_listeners v) in
        let w1 := mkWorld (<[a := v']> (heap w)) (log w) in
        _notifyDependents fuel a (_notifyListeners a w1)
  | None => None
  end.

(** [compute(fn)] where [fn()] returned [result] ([Some]) or threw ([None]). *)
Definition compute (fuel : nat) (now : Q) (a : addr) (result : option JsVal)
  (w : World) : option World :=
  match result with
  | Some r => set fuel now a r w
  | None => Some w
  end.

(** *** Graph vocabulary used by the statements *)

Definition edge (h : list FlowVariable) (x y : addr) : Prop :=
  exists vx, h !! x = Some vx /\ y ∈ _dependents vx.

(** Every dependent reference points to an allocated object. *)
Definition heap_wf (h : list FlowVariable) : Prop :=
  forall x y, edge h x y -> y < length h.

Definition is_dirty (h : list FlowVariable) (a : addr) : bool :=
  match h !! a with
  | Some v => _dirty v
  | None => false
  end.

Fixpoint clean_count (h : list FlowVariable) : nat :=
  match h with
  | [] => 0
  | v :: h' => (if _dirty v then 0 else 1) + clean_count h'
  end.

(** Two heaps with the same objects and the same dependent edges. *)
Definition same_graph (h h' : list FlowVariable) : Prop :=
  length h = length h' /\
  forall a v, h !! a = Some v ->
    exists v', h' !! a = Some v' /\ _dependents v' = _dependents v.


(** Executable check of [heap_wf]. *)
Definition heap_wfb (h : list FlowVariable) : bool :=
  forallb (fun v => forallb (fun d => d <? length h) (_dependents v)) h.

(** [this.removeDependency(variable)]: [a] is [this], [b] is [variable]. *)
Definition removeDependency (a b : addr) (w : World) : World :=
  match heap w !! a, heap w !! b with
  | Some va, Some vb =>
      let h1 := <[a := with_dependencies va (set_delete (name vb) (_dependencies va))]> (heap w) in
      match h1 !! b with
      | Some vb' => mkWorld (<[b := with_dependents vb' (set_delete a (_dependents vb'))]> h1) (log w)
      | None => w
      end
  | _, _ => w
  end.

(** [dispose]: the three sets of the object are cleared; no other object
    is touched. *)
Definition dispose (a : addr) (w : World) : World :=
  match heap w !! a with
  | Some v =>
      mkWorld (<[a := mkVar (name v) (_value v) [] [] (_lastComputed v) (_dirty v) []]> (heap w))
              (log w)
  | None => w
  end.

(** The [FlowValue] interface of types.ts and [toFlowValue]. *)
Record FlowValue : Type := mkFlowValue {
  fv_value : JsVal;
  fv_dependencies : list string;
  fv_dirty : bool;
  fv_lastComputed : Q
}.

Definition toFlowValue (v : FlowVariable) : FlowValue :=
  mkFlowValue (_value v) (_dependencies v) (_dirty v) (_lastComputed v).

(** The dependency and dependent sets agree: [a] is a dependent of [b]
    exactly when [a] lists the name of [b] as a dependency. *)
Definition mutual (h : list FlowVariable) : Prop :=
  forall a b va vb, h !! a = Some va -> h !! b = Some vb ->
    (a ∈ _dependents vb <-> name vb ∈ _dependencies va).

(** No two objects share a name (as inside one engine). *)
Definition distinct_names (h : list FlowVariable) : Prop :=
  forall a b va vb, h !! a = Some va -> h !! b = Some vb -> name va = name vb -> a = b.

End FlowVariable.


(** ** FlowParser.ts *)

Module FlowParser.
Import JS.

(** *** The regular expressions of the parser

    The patterns of the source only repeat single character classes and
    never nest groups, so a pattern is a sequence of atoms.  Matching
    backtracks as ECMAScript does: a greedy repetition tries the longest
    run first, a lazy one the shortest. *)
Inductive Atom : Type :=
| Lit (s : string)                           (* literal text *)
| Cls (p : ascii -> bool)                    (* one character of a class *)
| Opt (p : ascii -> bool)                    (* [p?] *)
| Star (p : ascii -> bool) (lazy : bool)     (* [p*] or [p*?] *)
| Open                                       (* [(] *)
| Close                                      (* [)] *)
| Bol                                        (* [^] *)
| Eol.                                       (* [$] *)

(** [p+] and [p+?] *)
Definition Plus (p : ascii -> bool) (lazy : bool) : list Atom := [Cls p; Star p lazy].

(** Match [re] against [s], the input from position [pos] on.  The result
    is the end position and the spans of the groups, in closing order. *)
Fixpoint matchHere (re : list Atom) (s : list ascii) (pos : nat)
  (opens : list nat) (caps : list (nat * nat)) {struct re}
  : option (nat * list (nat * nat)) :=
  match re with
  | [] => Some (pos, caps)
  | Lit l :: re' =>
      match strip_prefix (chars l) s with
      | Some s' => matchHere re' s' (pos + String.length l) opens caps
      | None => None
      end
  | Cls p :: re' =>
      match s with
      | c :: s' => if p c then matchHere re' s' (S pos) opens caps else None
      | [] => None
      end
  | Opt p :: re' =>
      match s with
      | c :: s' =>
          if p c then
            match matchHere re' s' (S pos) opens caps with
            | Some r => Some r
            | None => matchHere re' s pos opens caps
            end
          else matchHere re' s pos opens caps
      | [] => matchHere re' s pos opens caps
      end
  | Star p lazy :: re' =>
      (fix star (s : list ascii) (pos : nat) {struct s} :=
         let more (_ : unit) :=
           match s with
           | c :: s' => if p c then star s' (S pos) else None
           | [] => None
           end in
         if lazy then
           match matchHere re' s pos opens caps with
           | Some r => Some r
           | None => more tt
           end
         else
           match more tt with
           | Some r => Some r
           | None => matchHere re' s pos opens caps
           end) s pos
  | Open :: re' => matchHere re' s pos (pos :: opens) caps
  | Close :: re' =>
      match opens with
      | o :: os => matchHere re' s pos os (caps ++ [(o, pos)])
      | [] => None
      end
  | Bol :: re' => if pos =? 0 then matchHere re' s pos opens caps else None
  | Eol :: re' =>
      match s with
      | [] => matchHere re' s pos opens caps
      | _ :: _ => None
      end
  end.

(** The leftmost match. *)
Fixpoint searchFrom (re : list Atom) (s : list ascii) (pos : nat)
  : option (list (nat * nat)) :=
  match matchHere re s pos [] [] with
  | Some (_, caps) => Some caps
  | None =>
      match s with
      | _ :: s' => searchFrom re s' (S pos)
      | [] => None
      end
  end.

(** [s.match(re)]: the captured groups, without the whole match. *)
Definition regex_match (re : list Atom) (s : string) : option (list string) :=
  match searchFrom re (chars s) 0 with
  | Some caps => Some (map (fun '(b, e) => str (take (e - b) (drop b (chars s)))) caps)
  | None => None
  end.

(** [re.test(s)] *)
Definition regex_test (re : list Atom) (s : string) : bool :=
  match searchFrom re (chars s) 0 with
  | Some _ => true
  | None => false
  end.

(** [/^\s*\w+\s*=\s*.+/] *)
Definition re_assignment : list Atom :=
  [Bol; Star is_space false] ++ Plus is_word false ++
  [Star is_space false; Lit "="; Star is_space false] ++ Plus is_dot false.

(** [/if\s+(.+?)\s*{\s*(.+?)\s*}/] *)
Definition re_if : list Atom :=
  [Lit "if"] ++ Plus is_space false ++
  [Open] ++ Plus is_dot true ++ [Close; Star is_space false; Lit "{"; Star is_space false;
  Open] ++ Plus is_dot true ++ [Close; Star is_space false; Lit "}"].

(** [/(.+?)\s*\?\s*(.+?)\s*:\s*(.+)/] *)
Definition re_ternary : list Atom :=
  [Open] ++ Plus is_dot true ++ [Close; Star is_space false; Lit "?"; Star is_space false;
  Open] ++ Plus is_dot true ++ [Close; Star is_space false; Lit ":"; Star is_space false;
  Open] ++ Plus is_dot false ++ [Close].

(** [/for\s+(\w+)\s+in\s+(.+?)\s*{\s*(.+?)\s*}/] *)
Definition re_for : list Atom :=
  [Lit "for"] ++ Plus is_space false ++ [Open] ++ Plus is_word false ++ [Close] ++
  Plus is_space false ++ [Lit "in"] ++ Plus is_space false ++
  [Open] ++ Plus is_dot true ++ [Close; Star is_space false; Lit "{"; Star is_space false;
  Open] ++ Plus is_dot true ++ [Close; Star is_space false; Lit "}"].

(** [/^\d+\.?\d*$/] *)
Definition re_number : list Atom :=
  [Bol] ++ Plus is_digit false ++ [Opt (is_char "."); Star is_digit false; Eol].

(** [/^[a-zA-Z_][a-zA-Z0-9_]*$/] *)
Definition re_identifier : list Atom :=
  [Bol; Cls is_alpha_; Star is_word false; Eol].

(** [/[+\-*/^()=<>!]/] *)
Definition is_punct (c : ascii) : bool :=
  existsb (fun x => is_char x c) (chars "+-*/^()=<>!").

(** *** AST *)

(** What [_parseTokens] returns.  A number literal is a bare JavaScript
    number, finite or (for digits beyond the largest double) [Infinity];
    every other node is an object with a [type] field. *)
Inductive Ast : Type :=
| ANum (n : Q)                                   (* parseFloat(token), finite *)
| AInfinity                                      (* parseFloat(token), Infinity *)
| AVar (name : string)                           (* { type: "variable", name } *)
| AFun (name : string) (arguments : list Ast)    (* { type: "function", name, arguments } *)
| AOp (operator : string) (left right : Ast)     (* { type: "operation", operator, left, right } *)
| ALit (value : string).                         (* { type: "literal", value } *)

Inductive ExprType : Type := TVariable | TOperation | TCondition | TLoop | TFunction.

(** [FlowExpression] and the shapes its [value] field takes. *)
Inductive FlowExpression : Type :=
| mkExpr (type : ExprType) (value : ExprValue) (dependencies : list string) (complexity : nat)
with ExprValue : Type :=
| ValAst (ast : Ast)
| ValAssign (variable : string) (expression : FlowExpression)
| ValCond (condition trueBranch : FlowExpression) (falseBranch : option FlowExpression)
| ValLoop (variable : string) (range body : FlowExpression).

Definition type (e : FlowExpression) : ExprType := let 'mkExpr t _ _ _ := e in t.
Definition value (e : FlowExpression) : ExprValue := let 'mkExpr _ v _ _ := e in v.
Definition dependencies (e : FlowExpression) : list string := let 'mkExpr _ _ d _ := e in d.
Definition complexity (e : FlowExpression) : nat := let 'mkExpr _ _ _ c := e in c.

(** [_operators]: the precedence column.  ([token in this._operators] is
    also true for the names on [Object.prototype], but for those the
    precedence read is [undefined] and [undefined <= minPrecedence] is
    false, as for a token that is no operator.) *)
Definition precedence (token : string) : option nat :=
  if str_eqb token "+" then Some 1
  else if str_eqb token "-" then Some 1
  else if str_eqb token "*" then Some 2
  else if str_eqb token "/" then Some 2
  else if str_eqb token "^" then Some 3
  else if str_eqb token "=" then Some 0
  else None.

(** [_operators]: the associativity column (the code never reads it). *)
Definition associativity (token : string) : option string :=
  if str_eqb token "+" then Some "left"
  else if str_eqb token "-" then Some "left"
  else if str_eqb token "*" then Some "left"
  else if str_eqb token "/" then Some "left"
  else if str_eqb token "^" then Some "right"
  else if str_eqb token "=" then Some "right"
  else None.

Definition _functions : list string :=
  ["sin"; "cos"; "tan"; "sqrt"; "abs"; "floor"; "ceil"; "round"; "min"; "max";
   "clamp"; "lerp"; "atan2"; "pow"; "exp"; "log"].

Definition is_function (token : string) : bool :=
  existsb (str_eqb token) _functions.

(** *** Tokens *)

Definition push_current (current : list ascii) (tokens : list string) : list string :=
  match current with
  | [] => tokens                          (* if (current) fails on "" *)
  | _ :: _ => tokens ++ [str (rev current)]
  end.

(** The scanning loop of [_tokenize]; [current] is kept reversed. *)
Fixpoint tokenize_loop (expr : list ascii) (current : list ascii) (tokens : list string)
  : list string :=
  match expr with
  | [] => push_current current tokens
  | char :: rest =>
      if is_space char then tokenize_loop rest [] (push_current current tokens)
      else if is_punct char then
        tokenize_loop rest [] (push_current current tokens ++ [str [char]])
      else tokenize_loop rest (char :: current) tokens
  end.

Definition _tokenize (expr : string) : list string :=
  List.filter (fun t => 0 <? String.length t) (tokenize_loop (chars expr) [] []).

(** [minPrecedence] starts at [Infinity]. *)
Definition prec_le (p : nat) (minPrecedence : option nat) : bool :=
  match minPrecedence with
  | None => true
  | Some m => p <=? m
  end.

(** The loop of [_findMainOperator], from [i = tokens.length - 1] down to 0.
    [rtokens] holds the tokens still to visit, last first, so the index of
    its head is the length of its tail. *)
Fixpoint findMainOperator_loop (rtokens : list string) (minPrecedence : option nat)
  (operatorIndex : Z) (parenDepth : Z) : Z :=
  match rtokens with
  | [] => operatorIndex
  | token :: rest =>
      let i := Z.of_nat (length rest) in
      if str_eqb token ")" then
        findMainOperator_loop rest minPrecedence operatorIndex (parenDepth + 1)
      else if str_eqb token "(" then
        findMainOperator_loop rest minPrecedence operatorIndex (parenDepth - 1)
      else if (parenDepth =? 0)%Z then
        match precedence token with
        | Some p =>
            if prec_le p minPrecedence then
              findMainOperator_loop rest (Some p) i parenDepth
            else findMainOperator_loop rest minPrecedence operatorIndex parenDepth
        | None => findMainOperator_loop rest minPrecedence operatorIndex parenDepth
        end
      else findMainOperator_loop rest minPrecedence operatorIndex parenDepth
  end.

Definition _findMainOperator (tokens : list string) : Z :=
  findMainOperator_loop (rev tokens) None (-1) 0.

(** The token runs [_parseArguments] hands to [_parseTokens], in order.
    [current] is kept reversed. *)
Fixpoint argument_runs (tokens : list string) (current : list string) (parenDepth : Z)
  : list (list string) :=
  match tokens with
  | [] =>
      match current with
      | [] => []
      | _ :: _ => [rev current]
      end
  | token :: rest =>
      if str_eqb token "," && (parenDepth =? 0)%Z then
        match current with
        | [] => argument_runs rest current parenDepth
        | _ :: _ => rev current :: argument_runs rest [] parenDepth
        end
      else
        let parenDepth' :=
          if str_eqb token "(" then (parenDepth + 1)%Z
          else if str_eqb token ")" then (parenDepth - 1)%Z
          else parenDepth in
        argument_runs rest (token :: current) parenDepth'
  end.

(** [parseFloat(token)] for a token that matched [/^\d+\.?\d*$/]. *)
Fixpoint digits_value (l : list ascii) (acc : N) : N :=
  match l with
  | [] => acc
  | c :: l' => digits_value l' (acc * 10 + (N.of_nat (code c) - 48))%N
  end.

Definition parseFloat (token : string) : Num :=
  let parts := split "." token in
  let int_part := chars (nth 0 parts "") in
  let frac_part := chars (nth 1 parts "") in
  to_num (Qmake (Z.of_N (digits_value (int_part ++ frac_part) 0))
                (Z.to_pos (10 ^ Z.of_nat (length frac_part)))).

(** The leaf a number literal becomes; digits give neither [NaN] nor a
    negative number. *)
Definition number_leaf (x : Num) : Ast :=
  match x with
  | Finite n => ANum n
  | _ => AInfinity
  end.

(** Sequence the results of parsing every argument run. *)
Fixpoint mapM {A B : Type} (f : A -> option B) (l : list A) : option (list B) :=
  match l with
  | [] => Some []
  | x :: l' =>
      match f x with
      | Some y =>
          match mapM f l' with
          | Some ys => Some (y :: ys)
          | None => None
          end
      | None => None
      end
  end.

(** [tokens.slice(2, -1)] *)
Definition slice_2_m1 (tokens : list string) : list string :=
  take (length tokens - 3) (drop 2 tokens).

(** [_parseTokens].  The recursion is on slices of [tokens], each strictly
    shorter; [fuel] bounds its depth and [None] means it ran out. *)
Fixpoint parseTokens_fuel (fuel : nat) (tokens : list string) : option Ast :=
  match fuel with
  | O => None
  | S fuel' =>
      match tokens with
      | [token] =>
          if regex_test re_number token then Some (number_leaf (parseFloat token))
          else Some (AVar token)
      | _ =>
          if (3 <=? length tokens) && str_eqb (nth 1 tokens "") "(" &&
             is_function (nth 0 tokens "")
          then
            let funcName := nth 0 tokens "" in
            match mapM (parseTokens_fuel fuel') (argument_runs (slice_2_m1 tokens) [] 0) with
            | Some args => Some (AFun funcName args)
            | None => None
            end
          else
            let operatorIndex := _findMainOperator tokens in
            if (0 <? operatorIndex)%Z then
              let operator := nth (Z.to_nat operatorIndex) tokens "" in
              match parseTokens_fuel fuel' (take (Z.to_nat operatorIndex) tokens),
                    parseTokens_fuel fuel' (drop (Z.to_nat operatorIndex + 1) tokens) with
              | Some lhs, Some rhs => Some (AOp operator lhs rhs)
              | _, _ => None
              end
            else Some (ALit (join " " tokens))
      end
  end.

(** [_parseTokens] with the fuel its input needs
    (see [parseTokens_fuel_enough]). *)
Definition _parseTokens (tokens : list string) : Ast :=
  match parseTokens_fuel (S (length tokens)) tokens with
  | Some ast => ast
  | None => ALit ""
  end.

(** [_extractDependencies] *)
Fixpoint extractDependencies_loop (tokens : list string) (variables : list string)
  : list string :=
  match tokens with
  | [] => variables
  | token :: rest =>
      if regex_test re_identifier token && negb (is_function token) then
        if existsb (str_eqb token) variables then extractDependencies_loop rest variables
        else extractDependencies_loop rest (variables ++ [token])
      else extractDependencies_loop rest variables
  end.

Definition _extractDependencies (expr : string) : list string :=
  extractDependencies_loop (_tokenize expr) [].

(** [_calculateComplexity] *)
Fixpoint _calculateComplexity (ast : Ast) : nat :=
  match ast with
  | ANum _ | AInfinity => 1                       (* typeof ast !== "object" *)
  | AFun _ arguments =>
      1 + 5 + fold_left (fun sum arg => sum + _calculateComplexity arg) arguments 0
  | AOp _ lhs rhs => 1 + 2 + _calculateComplexity lhs + _calculateComplexity rhs
  | AVar _ | ALit _ => 1
  end.

(** [_parseMathExpression] *)
Definition _parseMathExpression (expr : string) : FlowExpression :=
  let tokens := _tokenize expr in
  let ast := _parseTokens tokens in
  mkExpr TOperation (ValAst ast) (_extractDependencies expr) (_calculateComplexity ast).

(** [_isAssignment], [_isConditional], [_isLoop] *)
Definition _isAssignment (expr : string) : bool := regex_test re_assignment expr.

Definition _isConditional (expr : string) : bool :=
  includes expr "if" && (includes expr "{" || includes expr "?").

Definition _isLoop (expr : string) : bool :=
  includes expr "for" && includes expr "{".

(** [_parseAssignment]: [const [variable, value] = expr.split("=").map(trim)]
    keeps the first two pieces.  [_isAssignment] has seen an ["="], so the
    second piece exists. *)
Definition _parseAssignment (expr : string) : FlowExpression :=
  let parts := map trim (split "=" expr) in
  let variable := nth 0 parts "" in
  let value := nth 1 parts "" in
  let valueExpr := _parseMathExpression value in
  mkExpr TVariable (ValAssign variable valueExpr)
         (dependencies valueExpr) (complexity valueExpr + 1).

(** [_parseConditional] *)
Definition _parseConditional (expr : string) : FlowExpression :=
  match regex_match re_if expr with
  | Some [condition; trueBranch] =>
      mkExpr TCondition
        (ValCond (_parseMathExpression condition) (_parseMathExpression trueBranch) None)
        (_extractDependencies expr) 10
  | _ =>
      match regex_match re_ternary expr with
      | Some [condition; trueBranch; falseBranch] =>
          mkExpr TCondition
            (ValCond (_parseMathExpression condition) (_parseMathExpression trueBranch)
                     (Some (_parseMathExpression falseBranch)))
            (_extractDependencies expr) 8
      | _ => _parseMathExpression expr
      end
  end.

(** [_parseLoop] *)
Definition _parseLoop (expr : string) : FlowExpression :=
  match regex_match re_for expr with
  | Some [variable; range; body] =>
      mkExpr TLoop
        (ValLoop variable (_parseMathExpression range) (_parseMathExpression body))
        (_extractDependencies expr) 50
  | _ => _parseMathExpression expr
  end.

(** [parse] *)
Definition parse (expression : string) : FlowExpression :=
  let trimmed := trim expression in
  if _isAssignment trimmed then _parseAssignment trimmed
  else if _isConditional trimmed then _parseConditional trimmed
  else if _isLoop trimmed then _parseLoop trimmed
  else _parseMathExpression trimmed.

(** *** Vocabulary of the statements about parentheses *)

Definition count_tok (t : string) (l : list string) : nat :=
  length (List.filter (str_eqb t) l).

(** Every ["("] has its [")"] later, and nothing else. *)
Definition balanced (tokens : list string) : Prop :=
  count_tok "(" tokens = count_tok ")" tokens /\
  forall k, count_tok ")" (take k tokens) <= count_tok "(" (take k tokens).

(** How many parentheses are open around position [i]. *)
Definition nesting (tokens : list string) (i : nat) : nat :=
  count_tok "(" (take i tokens) - count_tok ")" (take i tokens).

End FlowParser.


(** ** ExecutionEngine.ts *)

Module ExecutionEngine.
Import JS FlowParser.

Record ExecutionConfig : Type := mkConfig {
  maxFrameTime : Q;
  workerCount : nat;
  enableGPU : bool;
  cacheSize : nat
}.

(** A chunk made by [_chunkComputation].  Its [computation] closure is
    [() => this._evaluateExpressionChunk(task.expression, i, chunkSize)];
    the embedding keeps the captured [i] and [chunkSize] and runs the
    closure against the task that owns the chunk. *)
Record ComputationChunk : Type := mkChunk {
  chunk_id : string;
  chunk_index : nat;                 (* captured [i] *)
  chunk_total : nat;                 (* captured [chunkSize] *)
  chunk_dependencies : list string;
  estimatedMs : nat
}.

Record ComputationTask : Type := mkTask {
  id : string;
  expression : FlowExpression;
  priority : Z;
  chunks : option (list ComputationChunk)
}.

(** What an evaluation can return. *)
Inductive EvalResult : Type :=
| RNum (q : Q)                          (* a finite double *)
| RInfinity (negative : bool)
| RNaN
| RStr (s : string)
| RMath (fn : string) (args : list Q)   (* the double [Math.fn(args)], left symbolic *)
| RValue (v : ExprValue)                (* the object [expression.value] *)
| RExpr (e : FlowExpression)            (* an expression object *)
| RUndefined.

Inductive ConsoleEntry : Type :=
| LogCompleted (taskId : string) (result : EvalResult)  (* console.log of _notifyCompletion *)
| ErrorTask (taskId : string)                           (* console.error, simple task *)
| ErrorChunk (chunkId : string).                        (* console.error, chunk *)

(** Ghost record of what the frame loop did, in order. *)
Inductive TraceEvent : Type :=
| Shifted (task : ComputationTask)     (* [this._taskQueue.shift()] *)
| ChunkRan (chunkId : string).         (* [chunk.computation()] returned *)

Record ExecutionEngine : Type := mkEngine {
  _config : ExecutionConfig;
  _taskQueue : list ComputationTask;
  _frameStartTime : Q;
  clock : nat -> Q;                    (* the readings [performance.now()] gives *)
  reads : nat;                         (* how many readings were taken *)
  console : list ConsoleEntry;
  trace : list TraceEvent
}.

Definition with_queue (e : ExecutionEngine) (q : list ComputationTask) : ExecutionEngine :=
  mkEngine (_config e) q (_frameStartTime e) (clock e) (reads e) (console e) (trace e).

Definition with_console (e : ExecutionEngine) (c : list ConsoleEntry) : ExecutionEngine :=
  mkEngine (_config e) (_taskQueue e) (_frameStartTime e) (clock e) (reads e) c (trace e).

Definition with_trace (e : ExecutionEngine) (t : list TraceEvent) : ExecutionEngine :=
  mkEngine (_config e) (_taskQueue e) (_frameStartTime e) (clock e) (reads e) (console e) t.

Definition with_chunks (t : ComputationTask) (cs : option (list ComputationChunk))
  : ComputationTask :=
  mkTask (id t) (expression t) (priority t) cs.

(** The constructor: [config.x || default] for every field;
    [hardwareConcurrency] is [navigator.hardwareConcurrency]. *)
Definition new_engine (maxFrameTime_ : option Q) (workerCount_ : option nat)
  (enableGPU_ : option bool) (cacheSize_ : option nat) (hardwareConcurrency : nat)
  (clock_ : nat -> Q) : ExecutionEngine :=
  let or_q o d := match o with Some x => if Qeq_bool x 0 then d else x | None => d end in
  let or_n o d := match o with Some 0 => d | Some x => x | None => d end in
  mkEngine
    (mkConfig (or_q maxFrameTime_ 16%Q)
              (or_n workerCount_ (or_n (Some hardwareConcurrency) 4))
              (match enableGPU_ with Some b => b | None => false end)
              (or_n cacheSize_ 1000))
    [] 0%Q clock_ 0 [] [].

(** [performance.now()] *)
Definition performance_now (e : ExecutionEngine) : Q * ExecutionEngine :=
  (clock e (reads e),
   mkEngine (_config e) (_taskQueue e) (_frameStartTime e) (clock e) (S (reads e))
            (console e) (trace e)).

(** [_getRemainingFrameTime] *)
Definition _getRemainingFrameTime (e : ExecutionEngine) : Q * ExecutionEngine :=
  let '(now, e') := performance_now e in
  (Qmax 0 (maxFrameTime (_config e) - (now - _frameStartTime e)), e').

(** *** Evaluation *)

(** A number as the result of an evaluation. *)
Definition num_result (x : Num) : EvalResult :=
  match x with
  | Finite q => RNum q
  | Infinite s => RInfinity s
  | NotANumber => RNaN
  end.

(** The operand when it is a bare number. *)
Definition operand_number (a : Ast) : option Num :=
  match a with
  | ANum q => Some (to_num q)
  | AInfinity => Some (Infinite false)
  | _ => None
  end.

(** [ToNumber(x)] of an operand: a node object becomes [NaN]. *)
Definition to_number (a : Ast) : Num :=
  match operand_number a with
  | Some x => x
  | None => NotANumber
  end.

(** [String(x)] of an operand: a number prints, an object is
    ["[object Object]"]. *)
Definition operand_to_string (a : Ast) : string :=
  match operand_number a with
  | Some x => num_to_string x
  | None => "[object Object]"
  end.

Definition is_integer (q : Q) : bool := (Z.pos (Qden (Qred q)) =? 1)%Z.

(** An exact real result of a library function: the number it is when it
    is a double or beyond the doubles, and left symbolic otherwise (the
    library functions are not bound to round correctly). *)
Definition exact_or_symbolic (fn : string) (args : list Q) (p : Q) : EvalResult :=
  match round_double p with
  | None => RInfinity (is_negative p)
  | Some r => if Qeq_bool r p then RNum r else RMath fn args
  end.

(** [Math.pow(x, y)].  Anything to the power 0 is 1, [NaN] included; a
    finite power with an integer exponent is computed, any other finite
    power of a non-negative base is left symbolic. *)
Definition math_pow (x y : Num) : EvalResult :=
  match y with
  | NotANumber => RNaN
  | Finite b =>
      if Qeq_bool b 0 then RNum 1
      else
        match x with
        | NotANumber => RNaN
        | Finite a =>
            if is_integer b then
              if Qeq_bool a 0 then (if is_negative b then RInfinity false else RNum 0)
              else exact_or_symbolic "pow" [a; b] (Qpower a (Qnum (Qred b)))
            else if is_negative a then RNaN
            else RMath "pow" [a; b]
        | Infinite s =>
            if is_negative b then RNum 0
            else RInfinity (s && is_integer b && Z.odd (Qnum (Qred b)))
        end
  | Infinite s =>
      match x with
      | NotANumber => RNaN
      | Finite a =>
          match (Qabs a ?= 1)%Q with
          | Eq => RNaN
          | Gt => if s then RNum 0 else RInfinity false
          | Lt => if s then RInfinity false else RNum 0
          end
      | Infinite _ => if s then RNum 0 else RInfinity false
      end
  end.

(** [Math.sin], [Math.cos], [Math.tan] and [Math.sqrt] of a number: left
    symbolic on a finite argument. *)
Definition math_unary (fn : string) (x : Num) : EvalResult :=
  match x with
  | Finite a => RMath fn [a]
  | Infinite s => if str_eqb fn "sqrt" && negb s then RInfinity false else RNaN
  | NotANumber => RNaN
  end.

(** [_evaluateOperation]: [const { operator, left, right } = expression.value]
    and the [switch].  Only an operation node has an [operator] field;
    for every other value it is [undefined] and the [default] case runs.
    The operands are used as they are, not evaluated: [+] adds two bare
    numbers and concatenates the strings of its operands otherwise; the
    other operators convert a node object to [NaN]. *)
Definition _evaluateOperation (expr : FlowExpression) : EvalResult :=
  match value expr with
  | ValAst (AOp operator lhs rhs) =>
      if str_eqb operator "+" then
        match operand_number lhs, operand_number rhs with
        | Some x, Some y => num_result (num_add x y)
        | _, _ => RStr (operand_to_string lhs +:+ operand_to_string rhs)
        end
      else if str_eqb operator "-" then
        num_result (num_sub (to_number lhs) (to_number rhs))
      else if str_eqb operator "*" then
        num_result (num_mul (to_number lhs) (to_number rhs))
      else if str_eqb operator "/" then
        match to_number rhs with
        | Finite b =>
            if Qeq_bool b 0 then RNum 0       (* right !== 0 fails *)
            else num_result (num_div (to_number lhs) (Finite b))
        | y => num_result (num_div (to_number lhs) y)
        end
      else if str_eqb operator "^" then math_pow (to_number lhs) (to_number rhs)
      else if str_eqb operator "sin" then math_unary "sin" (to_number lhs)
      else if str_eqb operator "cos" then math_unary "cos" (to_number lhs)
      else if str_eqb operator "tan" then math_unary "tan" (to_number lhs)
      else if str_eqb operator "sqrt" then math_unary "sqrt" (to_number lhs)
      else RNum 0
  | _ => RNum 0
  end.

(** [_evaluateCondition]: [condition ? trueBranch : falseBranch] on the
    fields as they are.  [condition] is an expression object, hence truthy;
    a value without these fields gives [undefined]. *)
Definition _evaluateCondition (expr : FlowExpression) : EvalResult :=
  match value expr with
  | ValCond condition trueBranch falseBranch => RExpr trueBranch
  | _ => RUndefined
  end.

(** [return expression.value] *)
Definition value_result (v : ExprValue) : EvalResult :=
  match v with
  | ValAst (ANum q) => RNum q
  | ValAst AInfinity => RInfinity false
  | _ => RValue v
  end.

(** [_evaluateExpression] *)
Definition _evaluateExpression (expr : FlowExpression) : EvalResult :=
  match type expr with
  | TVariable => value_result (value expr)
  | TOperation => _evaluateOperation expr
  | TCondition => _evaluateCondition expr
  | _ => value_result (value expr)
  end.

(** [_evaluateExpressionChunk] *)
Definition _evaluateExpressionChunk (expr : FlowExpression) (chunkIndex totalChunks : nat)
  : EvalResult :=
  _evaluateExpression expr.


(** *** Scheduling *)

(** [_chunkComputation]: [Math.max(1, Math.floor(complexity / 10))] chunks. *)
Definition chunkSize (task : ComputationTask) : nat :=
  Nat.max 1 (complexity (expression task) / 10).

Definition make_chunk (task : ComputationTask) (i : nat) : ComputationChunk :=
  mkChunk (id task +:+ "_chunk_" +:+ Z_to_string 10 (Z.of_nat i)) i (chunkSize task)
          (dependencies (expression task)) 2.

Definition _chunkComputation (task : ComputationTask) : list ComputationChunk :=
  map (make_chunk task) (seq 0 (chunkSize task)).

(** [this._taskQueue.findIndex(t => t.priority < task.priority)] followed by
    [push] (no such index) or [splice(insertIndex, 0, task)]. *)
Fixpoint insert_by_priority (task : ComputationTask) (queue : list ComputationTask)
  : list ComputationTask :=
  match queue with
  | [] => [task]
  | t :: rest =>
      if (priority t <? priority task)%Z then task :: t :: rest
      else t :: insert_by_priority task rest
  end.

(** [schedule] *)
Definition schedule (task : ComputationTask) (e : ExecutionEngine) : ExecutionEngine :=
  let task' :=
    if 100 <? complexity (expression task)
    then with_chunks task (Some (_chunkComputation task))
    else task in
  with_queue e (insert_by_priority task' (_taskQueue e)).

(** [_notifyCompletion] *)
Definition _notifyCompletion (taskId : string) (result : EvalResult) (e : ExecutionEngine)
  : ExecutionEngine :=
  with_console e (console e ++ [LogCompleted taskId result]).

(** A call that may throw: [Some] is the returned value, [None] an
    exception.  The evaluator of this file never throws. *)
Definition try_evaluate (expr : FlowExpression) : option EvalResult :=
  Some (_evaluateExpression expr).

Definition run_computation (task : ComputationTask) (chunk : ComputationChunk)
  : option EvalResult :=
  Some (_evaluateExpressionChunk (expression task) (chunk_index chunk) (chunk_total chunk)).

(** [_executeSimpleTask] *)
Definition _executeSimpleTask (task : ComputationTask) (e : ExecutionEngine)
  : ExecutionEngine :=
  match try_evaluate (expression task) with
  | Some result => _notifyCompletion (id task) result e
  | None => with_console e (console e ++ [ErrorTask (id task)])
  end.

(** The [while] loop of [_executeChunkedTask]; [rest] is
    [task.chunks.slice(chunkIndex)].  The clock is read only when
    [chunkIndex < task.chunks.length]. *)
Fixpoint chunk_loop (task : ComputationTask) (rest : list ComputationChunk)
  (chunkIndex : nat) (e : ExecutionEngine) : nat * ExecutionEngine :=
  match rest with
  | [] => (chunkIndex, e)
  | chunk :: rest' =>
      let '(remaining, e1) := _getRemainingFrameTime e in
      if Qlt_le_dec 1 remaining then
        match run_computation task chunk with
        | Some result =>
            chunk_loop task rest' (S chunkIndex)
                       (with_trace e1 (trace e1 ++ [ChunkRan (chunk_id chunk)]))
        | None => (chunkIndex, with_console e1 (console e1 ++ [ErrorChunk (chunk_id chunk)]))
        end
      else (chunkIndex, e1)
  end.

(** [_executeChunkedTask] *)
Definition _executeChunkedTask (task : ComputationTask) (e : ExecutionEngine)
  : ExecutionEngine :=
  match chunks task with
  | None => e
  | Some cs =>
      let '(remainingTime, e0) := _getRemainingFrameTime e in
      let '(chunkIndex, e1) := chunk_loop task cs 0 e0 in
      if chunkIndex <? length cs then
        schedule (with_chunks task (Some (drop chunkIndex cs))) e1
      else e1
  end.

(** The [while] loop of [executeFrame].  The clock is read only when the
    queue is not empty.  [None]: the fuel ran out before the loop ended. *)
Fixpoint executeFrame_loop (fuel : nat) (e : ExecutionEngine) : option ExecutionEngine :=
  match fuel with
  | O => None
  | S fuel' =>
      match _taskQueue e with
      | [] => Some e
      | task :: rest =>
          let '(remaining, e1) := _getRemainingFrameTime e in
          if Qlt_le_dec 2 remaining then
            let e2 := with_trace (with_queue e1 rest) (trace e1 ++ [Shifted task]) in
            executeFrame_loop fuel'
              (match chunks task with
               | Some _ => _executeChunkedTask task e2
               | None => _executeSimpleTask task e2
               end)
          else Some e1
      end
  end.

(** [executeFrame] *)
Definition executeFrame (fuel : nat) (frameStartTime : Q) (e : ExecutionEngine)
  : option ExecutionEngine :=
  executeFrame_loop fuel
    (mkEngine (_config e) (_taskQueue e) frameStartTime (clock e) (reads e)
              (console e) (trace e)).

(** [dispose] *)
Definition dispose (e : ExecutionEngine) : ExecutionEngine := with_queue e [].

(** *** Vocabulary of the statements *)


(** The tasks taken off the queue, in order. *)
Definition shifted (tr : list TraceEvent) : list ComputationTask :=
  omap (fun ev => match ev with Shifted t => Some t | ChunkRan _ => None end) tr.




(** The clock never leaves the frame less than 2ms larger than needed:
    every reading keeps [maxFrameTime - (now - frameStart)] above 2. *)
Definition unlimited_frame_time (e : ExecutionEngine) (frameStartTime : Q) : Prop :=
  forall k, (2 < maxFrameTime (_config e) - (clock e k - frameStartTime))%Q.

End ExecutionEngine.


(** ** CacheManager.ts *)

Module CacheManager.
Import JS.

Record CacheEntry : Type := mkEntry {
  value : JsVal;
  createdAt : Z;
  expiresAt : option Z        (* [None] is [undefined] *)
}.

(** *** [Map<string, V>] as an association list in insertion order *)

Fixpoint map_get {V : Type} (k : string) (m : list (string * V)) : option V :=
  match m with
  | [] => None
  | (k', v) :: m' => if str_eqb k' k then Some v else map_get k m'
  end.

Definition map_has {V : Type} (k : string) (m : list (string * V)) : bool :=
  match map_get k m with
  | Some _ => true
  | None => false
  end.

(** [m.set(k, v)]: an existing key keeps its place. *)
Fixpoint map_set {V : Type} (k : string) (v : V) (m : list (string * V))
  : list (string * V) :=
  match m with
  | [] => [(k, v)]
  | (k', v') :: m' => if str_eqb k' k then (k, v) :: m' else (k', v') :: map_set k v m'
  end.

Definition map_delete {V : Type} (k : string) (m : list (string * V))
  : list (string * V) :=
  List.filter (fun kv => negb (str_eqb (fst kv) k)) m.

Record CacheManager : Type := mkCache {
  _cache : list (string * CacheEntry);
  _maxSize : nat;
  _accessCount : list (string * nat)
}.

(** [new CacheManager(maxSize)] *)
Definition new_cache (maxSize : option nat) : CacheManager :=
  mkCache [] (match maxSize with Some n => n | None => 1000 end) [].

(** [delete] *)
Definition delete (key : string) (c : CacheManager) : CacheManager :=
  mkCache (map_delete key (_cache c)) (_maxSize c) (map_delete key (_accessCount c)).

(** [clear] *)
Definition clear (c : CacheManager) : CacheManager := mkCache [] (_maxSize c) [].

(** [entry.expiresAt && Date.now() > entry.expiresAt] *)
Definition expired (now : Z) (entry : CacheEntry) : bool :=
  match expiresAt entry with
  | Some t => negb (t =? 0)%Z && (t <? now)%Z
  | None => false
  end.

(** [get(key)] when [Date.now()] reads [now]: the returned value and the
    cache afterwards. *)
Definition get (now : Z) (key : string) (c : CacheManager) : JsVal * CacheManager :=
  match map_get key (_cache c) with
  | None => (VUndefined, c)
  | Some entry =>
      if expired now entry then (VUndefined, delete key c)
      else
        let n := match map_get key (_accessCount c) with
                 | Some n => n        (* [0 || 0] is 0 as well *)
                 | None => 0
                 end in
        (value entry, mkCache (_cache c) (_maxSize c) (map_set key (n + 1) (_accessCount c)))
  end.

(** The loop of [_evictLRU]; [minAccess] starts at [Infinity]. *)
Fixpoint evict_scan (counts : list (string * nat)) (minAccess : option nat) (lruKey : string)
  : string :=
  match counts with
  | [] => lruKey
  | (key, accessCount) :: rest =>
      let lower := match minAccess with
                   | None => true
                   | Some m => accessCount <? m
                   end in
      if lower then evict_scan rest (Some accessCount) key
      else evict_scan rest minAccess lruKey
  end.

(** [_evictLRU]: [if (lruKey)] fails on the empty string. *)
Definition _evictLRU (c : CacheManager) : CacheManager :=
  let lruKey := evict_scan (_accessCount c) None "" in
  if str_eqb lruKey "" then c else delete lruKey c.

(** [set(key, value, ttlMs)] when [Date.now()] reads [now]. *)
Definition set (now : Z) (key : string) (v : JsVal) (ttlMs : option Z) (c : CacheManager)
  : CacheManager :=
  let c1 := if _maxSize c <=? length (_cache c) then _evictLRU c else c in
  let entry := mkEntry v now
                 (match ttlMs with
                  | Some t => if (t =? 0)%Z then None else Some (now + t)%Z
                  | None => None
                  end) in
  mkCache (map_set key entry (_cache c1)) (_maxSize c1) (map_set key 1 (_accessCount c1)).

(** [has(key)]: [this._cache.has(key) && this.get(key) !== undefined];
    [get] runs only when the key is stored. *)
Definition has (now : Z) (key : string) (c : CacheManager) : bool * CacheManager :=
  if map_has key (_cache c) then
    let '(v, c') := get now key c in (negb (strict_eq v VUndefined), c')
  else (false, c).

(** *** Keys *)

(** [ToInt32] *)
Definition to_int32 (z : Z) : Z := ((z + 2 ^ 31) mod 2 ^ 32 - 2 ^ 31)%Z.

(** The loop of [_hashString]: [hash = (hash << 5) - hash + char] and
    [hash = hash & hash]. *)
Fixpoint hash_loop (l : list ascii) (hash : Z) : Z :=
  match l with
  | [] => hash
  | c :: l' =>
      hash_loop l' (to_int32 (to_int32 (Z.shiftl hash 5) - hash + Z.of_nat (code c)))
  end.

(** [_hashString] *)
Definition _hashString (s : string) : string :=
  Z_to_string 16 (hash_loop (chars s) 0).

(** The one-character string holding a double quote. *)
Definition dquote : string := String (ascii_of_nat 34) EmptyString.

(** [JSON.stringify(value)] on the values that reach the last branch of
    [_hashValue]; [None] is the result [undefined]. *)
Definition JSON_stringify (v : JsVal) : option string :=
  match v with
  | VNull => Some "null"
  | VBool true => Some "true"
  | VBool false => Some "false"
  | VNum q => Some (number_to_string q)
  | VNaN => Some "null"
  | VStr s => Some (dquote +:+ s +:+ dquote)
  | VUndefined => None
  end.

(** [_hashValue]; [None] is the [TypeError] raised by [str.length] when
    [JSON.stringify] returned [undefined]. *)
Definition _hashValue (v : JsVal) : option string :=
  match v with
  | VStr s => Some (_hashString s)
  | VNum q => Some (number_to_string q)
  | VNaN => Some "NaN"
  | VBool b => Some (if b then "1" else "0")
  | _ => match JSON_stringify v with
         | Some s => Some (_hashString s)
         | None => None
         end
  end.

Section GenerateKey.

(** [a.localeCompare(b)]: the host's collation, negative, zero or positive. *)
Variable localeCompare : string -> string -> Z.

(** [Array.prototype.sort] with the comparator
    [([a], [b]) => a.localeCompare(b)]: a stable sort. *)
Fixpoint sort_insert (x : string * JsVal) (l : list (string * JsVal))
  : list (string * JsVal) :=
  match l with
  | [] => [x]
  | y :: l' =>
      if (0 <? localeCompare (fst x) (fst y))%Z then y :: sort_insert x l'
      else x :: y :: l'
  end.

Fixpoint sort_entries (l : list (string * JsVal)) : list (string * JsVal) :=
  match l with
  | [] => []
  | x :: l' => sort_insert x (sort_entries l')
  end.

(** [`${key}:${this._hashValue(value)}`] *)
Definition dep_piece (kv : string * JsVal) : option string :=
  match _hashValue (snd kv) with
  | Some h => Some (fst kv +:+ ":" +:+ h)
  | None => None
  end.

(** [generateKey(expression, dependencies)]; [dependencies] is the list
    [Object.entries] enumerates.  [None]: an exception was thrown. *)
Definition generateKey (expression : string) (dependencies : list (string * JsVal))
  : option string :=
  match FlowParser.mapM dep_piece (sort_entries dependencies) with
  | Some pieces =>
      Some (_hashString expression +:+ "#" +:+ _hashString (join "|" pieces))
  | None => None
  end.

End GenerateKey.

(** A collation for the concrete runs, with the traits of the host's
    default collation that bear on the sort: control characters are
    ignored, so that names differing only in them compare equal; letters
    are compared without regard to case first; and case decides between
    names that are otherwise the same, lower case first. *)
Definition is_control (c : ascii) : bool :=
  let n := code c in (n <? 32) || ((127 <=? n) && (n <? 160)).

Definition is_upper (c : ascii) : bool := let n := code c in (65 <=? n) && (n <=? 90).
Definition is_lower (c : ascii) : bool := let n := code c in (97 <=? n) && (n <=? 122).

Definition fold_case (c : ascii) : ascii :=
  if is_upper c then ascii_of_nat (code c + 32) else c.

Definition swap_case (c : ascii) : ascii :=
  if is_upper c then ascii_of_nat (code c + 32)
  else if is_lower c then ascii_of_nat (code c - 32)
  else c.

Definition collation_keys (s : string) : string * string :=
  let l := List.filter (fun c => negb (is_control c)) (chars s) in
  (str (map fold_case l), str (map swap_case l)).

Definition hostLikeCompare (a b : string) : Z :=
  let sign c := match c with Lt => (-1)%Z | Eq => 0%Z | Gt => 1%Z end in
  match String.compare (fst (collation_keys a)) (fst (collation_keys b)) with
  | Eq => sign (String.compare (snd (collation_keys a)) (snd (collation_keys b)))
  | c => sign c
  end.

(** The collation orders the names of [names] strictly and totally: it
    is antisymmetric and transitive on them and gives 0 for no two
    different ones. *)
Definition strict_on (localeCompare : string -> string -> Z) (names : list string) : Prop :=
  (forall a b, a ∈ names -> b ∈ names ->
     (0 < localeCompare a b)%Z <-> (localeCompare b a < 0)%Z) /\
  (forall a b, a ∈ names -> b ∈ names -> localeCompare a b = 0%Z -> a = b) /\
  (forall a b c, a ∈ names -> b ∈ names -> c ∈ names ->
     (localeCompare a b < 0)%Z -> (localeCompare b c < 0)%Z -> (localeCompare a c < 0)%Z).

(** Executable check of [strict_on]. *)
Definition strict_onb (localeCompare : string -> string -> Z) (names : list string) : bool :=
  forallb (fun a => forallb (fun b =>
    Bool.eqb (0 <? localeCompare a b)%Z (localeCompare b a <? 0)%Z &&
    (negb (localeCompare a b =? 0)%Z || str_eqb a b) &&
    forallb (fun c =>
      negb ((localeCompare a b <? 0)%Z && (localeCompare b c <? 0)%Z) ||
      (localeCompare a c <? 0)%Z) names) names) names.

(** The name ["a"] followed by the control character U+0001. *)
Definition a_soh : string := String "a"%char (String (ascii_of_nat 1) EmptyString).

(** *** Vocabulary of the statements *)

Inductive CacheOp : Type :=
| OpSet (key : string) (v : JsVal)       (* [set(key, v)], no TTL *)
| OpGet (key : string).                  (* [get(key)] *)

Definition run_op (now : Z) (op : CacheOp) (c : CacheManager) : CacheManager :=
  match op with
  | OpSet k v => set now k v None c
  | OpGet k => snd (get now k c)
  end.

Definition run_ops (now : Z) (ops : list CacheOp) (c : CacheManager) : CacheManager :=
  fold_left (fun c op => run_op now op c) ops c.

(** Insert [first], then every key of [steps], each preceded by the given
    number of [get(first)]. *)
Definition eviction_scenario (first : string * JsVal)
  (steps : list (nat * (string * JsVal))) : list CacheOp :=
  OpSet (fst first) (snd first) ::
  flat_map (fun s => repeat (OpGet (fst first)) (fst s) ++ [OpSet (fst (snd s)) (snd (snd s))])
           steps.

Definition size (c : CacheManager) : nat := length (_cache c).

End CacheManager.


(** ** FlowEngine.ts *)

Module FlowEngine.
Import JS.

(** The engine state.  The DOM bridge, the mouse and viewport fields of the
    context and the animation-frame handle belong to the browser side and
    are left out; the listeners the bridge registers are the opaque
    callbacks of [FlowVariable]. *)
Record FlowEngine : Type := mkFlowEngine {
  _variables : list (string * FlowVariable.addr);   (* Map<string, FlowVariable> *)
  world : FlowVariable.World;                       (* the FlowVariable objects *)
  _context_variables : list (string * (JsVal * bool));  (* name -> toFlowValue() snapshot *)
  _context_time : Q;
  _context_frameCount : Z;
  _executionEngine : ExecutionEngine.ExecutionEngine;
  _cache : CacheManager.CacheManager;
  _isRunning : bool
}.

Definition with_exec (E : FlowEngine) (x : ExecutionEngine.ExecutionEngine) : FlowEngine :=
  mkFlowEngine (_variables E) (world E) (_context_variables E) (_context_time E)
               (_context_frameCount E) x (_cache E) (_isRunning E).

Definition with_world (E : FlowEngine) (w : FlowVariable.World) : FlowEngine :=
  mkFlowEngine (_variables E) w (_context_variables E) (_context_time E)
               (_context_frameCount E) (_executionEngine E) (_cache E) (_isRunning E).

(** [performance.now()]: the clock is the one the execution engine reads. *)
Definition performance_now (E : FlowEngine) : Q * FlowEngine :=
  let '(t, x) := ExecutionEngine.performance_now (_executionEngine E) in
  (t, with_exec E x).

(** [new FlowVariable(name, initialValue)]: allocate the object, then
    [this.set(initialValue)] unless it is [undefined].  A new object has
    neither listeners nor dependents, so that [set] only stores. *)
Definition new_FlowVariable (name : string) (initialValue : JsVal) (E : FlowEngine)
  : FlowVariable.addr * FlowEngine :=
  let a := length (FlowVariable.heap (world E)) in
  let w0 := FlowVariable.mkWorld (FlowVariable.heap (world E) ++ [FlowVariable.fresh name])
                                 (FlowVariable.log (world E)) in
  let E0 := with_world E w0 in
  if strict_eq initialValue VUndefined then (a, E0)
  else
    let '(now, E1) := performance_now E0 in
    match FlowVariable.set 1 now a initialValue (world E1) with
    | Some w1 => (a, with_world E1 w1)
    | None => (a, E1)
    end.

(** [variable(name, initialValue)] *)
Definition variable (name : string) (initialValue : JsVal) (E : FlowEngine)
  : FlowVariable.addr * FlowEngine :=
  match CacheManager.map_get name (_variables E) with
  | Some a => (a, E)
  | None =>
      let '(a, E1) := new_FlowVariable name initialValue E in
      let snapshot :=
        match FlowVariable.heap (world E1) !! a with
        | Some v => (FlowVariable._value v, FlowVariable._dirty v)
        | None => (VUndefined, true)
        end in
      (a, mkFlowEngine (CacheManager.map_set name a (_variables E1)) (world E1)
                       (CacheManager.map_set name snapshot (_context_variables E1))
                       (_context_time E1) (_context_frameCount E1)
                       (_executionEngine E1) (_cache E1) (_isRunning E1))
  end.

(** [flow(expression)]; [now1] and [now2] are the two readings of
    [Date.now()], for the variable name and for the task id. *)
Definition flow (now1 now2 : Z) (expression : string) (E : FlowEngine)
  : FlowVariable.addr * FlowEngine :=
  let parsed := FlowParser.parse expression in
  let '(resultVar, E1) := variable ("_result_" +:+ Z_to_string 10 now1) VUndefined E in
  let task := ExecutionEngine.mkTask ("flow_" +:+ Z_to_string 10 now2) parsed 1 None in
  (resultVar, with_exec E1 (ExecutionEngine.schedule task (_executionEngine E1))).

(** [this.variable(name).set(v)]; [set] reads the clock only when the
    value changes. *)
Definition set_variable (fuel : nat) (name : string) (v : JsVal) (E : FlowEngine)
  : option FlowEngine :=
  let '(a, E1) := variable name VUndefined E in
  let changes :=
    match FlowVariable.heap (world E1) !! a with
    | Some x => negb (strict_eq (FlowVariable._value x) v)
    | None => false
    end in
  let '(now, E2) := if changes then performance_now E1 else (0%Q, E1) in
  match FlowVariable.set fuel now a v (world E2) with
  | Some w => Some (with_world E2 w)
  | None => None
  end.

(** [_updateContext] *)
Definition _updateContext (fuel : nat) (E : FlowEngine) : option FlowEngine :=
  let '(time, E1) := performance_now E in
  let frameCount := (_context_frameCount E1 + 1)%Z in
  let E2 := mkFlowEngine (_variables E1) (world E1) (_context_variables E1) time frameCount
                         (_executionEngine E1) (_cache E1) (_isRunning E1) in
  match set_variable fuel "time" (VNum time) E2 with
  | Some E3 => set_variable fuel "frameCount" (VNum (inject_Z frameCount)) E3
  | None => None
  end.

(** [_tick]: one animation frame.  [this._domBridge.flush()] reads the
    clock once; the styles it applies belong to the browser side.
    [None]: the fuel ran out. *)
Definition _tick (fuel : nat) (E : FlowEngine) : option FlowEngine :=
  if _isRunning E then
    let '(frameStart, E1) := performance_now E in
    match _updateContext fuel E1 with
    | Some E2 =>
        match ExecutionEngine.executeFrame fuel frameStart (_executionEngine E2) with
        | Some x => Some (snd (performance_now (with_exec E2 x)))
        | None => None
        end
    | None => None
    end
  else Some E.

(** The constructor: [_setupBuiltinVariables].  [innerWidth] and
    [innerHeight] are the window's; [Math.PI], [Math.E] and the literal
    [1.618033988749895] are entered as the doubles they are. *)
Definition new_FlowEngine (clock : nat -> Q) (innerWidth innerHeight : Q) : FlowEngine :=
  let E0 := mkFlowEngine [] (FlowVariable.mkWorld [] []) [] 0%Q 0%Z
              (ExecutionEngine.new_engine None None None None 4 clock)
              (CacheManager.new_cache (Some 1000)) false in
  let builtin := [("time", VNum 0); ("frameCount", VNum 0);
                  ("PI", VNum (884279719003555 # 281474976710656));
                  ("E", VNum (6121026514868073 # 2251799813685248));
                  ("GOLDEN_RATIO", VNum (910872158600853 # 562949953421312));
                  ("viewportWidth", VNum innerWidth); ("viewportHeight", VNum innerHeight);
                  ("mouseX", VNum 0); ("mouseY", VNum 0)] in
  fold_left (fun E nv => snd (variable (fst nv) (snd nv) E)) builtin E0.

(** [start()] *)
Definition start (fuel : nat) (E : FlowEngine) : option FlowEngine :=
  if _isRunning E then Some E
  else _tick fuel (mkFlowEngine (_variables E) (world E) (_context_variables E)
                                (_context_time E) (_context_frameCount E)
                                (_executionEngine E) (_cache E) true).

(** *** Vocabulary of the statements *)

(** The current value of the variable object at [a]. *)
Definition value_of (E : FlowEngine) (a : FlowVariable.addr) : option JsVal :=
  match FlowVariable.heap (world E) !! a with
  | Some v => Some (FlowVariable._value v)
  | None => None
  end.

(** Frames run one after the other. *)
Fixpoint ticks (fuel : nat) (n : nat) (E : FlowEngine) : option FlowEngine :=
  match n with
  | O => Some E
  | S n' =>
      match _tick fuel E with
      | Some E' => ticks fuel n' E'
      | None => None
      end
  end.

(** Names are bound to distinct allocated objects. *)
Definition names_wf (E : FlowEngine) : Prop :=
  forall n a, CacheManager.map_get n (_variables E) = Some a ->
    a < length (FlowVariable.heap (world E)) /\
    forall n', CacheManager.map_get n' (_variables E) = Some a -> n' = n.

End FlowEngine.


(** * Properties *)

(** ** Dirty propagation in the variable graph *)

Module FlowVariableProofs.
Import JS FlowVariable.

Lemma forEachM_app {A S : Type} (f : A -> S -> option S) l1 l2 s :
  forEachM f (l1 ++ l2) s =
  match forEachM f l1 s with
  | Some s' => forEachM f l2 s'
  | None => None
  end.
Proof.
  revert s. induction l1 as [|x l1 IH]; intros s; simpl; [done|].
  destruct (f x s); [apply IH | done].
Qed.

Lemma clean_count_mark (h : list FlowVariable) a v :
  h !! a = Some v -> _dirty v = false ->
  clean_count (<[a := with_dirty v true]> h) + 1 = clean_count h.
Proof.
  revert a. induction h as [|x h IH]; intros a Hl Hd; [done|].
  destruct a as [|a]; simpl in *.
  - injection Hl as ->. rewrite Hd. lia.
  - specialize (IH a Hl Hd). lia.
Qed.

Lemma is_dirty_lookup (h : list FlowVariable) a v :
  h !! a = Some v -> is_dirty h a = _dirty v.
Proof. unfold is_dirty. by intros ->. Qed.

Lemma same_graph_refl h : same_graph h h.
Proof. split; [done|]. intros a v Hv. by exists v. Qed.

Lemma same_graph_edge h h' x y : same_graph h h' -> edge h x y -> edge h' x y.
Proof.
  intros [_ Hg] (vx & Hx & Hy). destruct (Hg _ _ Hx) as (v' & Hv' & Hd).
  exists v'. split; [done|]. by rewrite Hd.
Qed.

Lemma same_graph_sym h h' : same_graph h h' -> same_graph h' h.
Proof.
  intros [Hlen Hg]. split; [done|]. intros a v' Hv'.
  assert (is_Some (h !! a)) as [v Hv].
  { apply lookup_lt_is_Some. rewrite Hlen. apply lookup_lt_is_Some; eauto. }
  destruct (Hg _ _ Hv) as (v'' & Hv'' & Hd). rewrite Hv'' in Hv'. injection Hv' as <-.
  by exists v.
Qed.

Lemma same_graph_insert (h : list FlowVariable) a v v' :
  h !! a = Some v -> _dependents v' = _dependents v -> same_graph h (<[a := v']> h).
Proof.
  intros Hv Hd. split; [by rewrite length_insert|].
  intros b vb Hb. destruct (decide (b = a)) as [->|Hne].
  - exists v'. rewrite list_lookup_insert_eq; [|by eapply lookup_lt_Some].
    split; [done|]. congruence.
  - exists vb. by rewrite list_lookup_insert_ne.
Qed.

Lemma same_graph_wf h h' : same_graph h h' -> heap_wf h -> heap_wf h'.
Proof.
  intros Hg Hwf x y He. destruct Hg as [Hlen Hg']. rewrite <- Hlen.
  apply (Hwf x). eapply same_graph_edge; [|done].
  apply same_graph_sym. by split.
Qed.

(** What one propagation pass does to the world: [ms] lists the variables
    whose flag it raised, in order.  [roots] are the variables the pass was
    started on. *)
Record Marked (roots : list addr) (w w' : World) (ms : list addr) : Prop := {
  mk_len : length (heap w') = length (heap w);
  mk_heap : forall b v, heap w !! b = Some v ->
              heap w' !! b = Some (with_dirty v (_dirty v || bool_decide (b ∈ ms)));
  mk_log : log w' = log w ++ map EvDirty ms;
  mk_nodup : NoDup ms;
  mk_clean : forall b, b ∈ ms -> b < length (heap w) /\ is_dirty (heap w) b = false;
  mk_closed : forall b d, b ∈ ms -> edge (heap w) b d -> is_dirty (heap w') d = true;
  mk_reach : forall b, b ∈ ms -> exists r, r ∈ roots /\ rtc (edge (heap w)) r b;
  mk_count : clean_count (heap w') + length ms = clean_count (heap w)
}.

Lemma Marked_same_graph roots w w' ms :
  Marked roots w w' ms -> same_graph (heap w) (heap w').
Proof.
  intros M. split; [symmetry; apply M|].
  intros b v Hv. eexists. split; [by apply M|]. by destruct v.
Qed.

Lemma Marked_dirty roots w w' ms b :
  Marked roots w w' ms ->
  is_dirty (heap w') b = is_dirty (heap w) b || bool_decide (b ∈ ms).
Proof.
  intros M. unfold is_dirty.
  destruct (heap w !! b) as [v|] eqn:Hv.
  - rewrite (mk_heap _ _ _ _ M _ _ Hv). done.
  - assert (heap w' !! b = None) as ->.
    { apply lookup_ge_None. rewrite (mk_len _ _ _ _ M). by apply lookup_ge_None. }
    rewrite bool_decide_eq_false_2; [done|].
    intros Hb. apply (mk_clean _ _ _ _ M) in Hb as [Hlt _].
    apply lookup_ge_None in Hv. lia.
Qed.

Lemma Marked_nil roots w : Marked roots w w [].
Proof.
  split; simpl; try done.
  - intros b v Hv. rewrite Hv. f_equal. destruct v; simpl.
    by rewrite orb_false_r.
  - by rewrite app_nil_r.
  - constructor.
  - intros b Hb. by apply elem_of_nil in Hb.
  - intros b d Hb. by apply elem_of_nil in Hb.
  - intros b Hb. by apply elem_of_nil in Hb.
Qed.

Lemma rtc_same_graph h h' x y :
  same_graph h h' -> rtc (edge h') x y -> rtc (edge h) x y.
Proof.
  intros Hg Hr. induction Hr as [|x z y He _ IH]; [done|].
  eapply rtc_l; [|exact IH].
  eapply same_graph_edge; [|exact He]. by apply same_graph_sym.
Qed.

(** Two passes in a row make one pass. *)
Lemma Marked_seq r1 r2 w w1 w2 ms1 ms2 :
  Marked r1 w w1 ms1 -> Marked r2 w1 w2 ms2 ->
  Marked (r1 ++ r2) w w2 (ms1 ++ ms2).
Proof.
  intros M1 M2.
  pose proof (Marked_same_graph _ _ _ _ M1) as G1.
  split.
  - rewrite (mk_len _ _ _ _ M2). apply M1.
  - intros b v Hv.
    rewrite (mk_heap _ _ _ _ M2 _ _ (mk_heap _ _ _ _ M1 _ _ Hv)).
    f_equal. destruct v; simpl. unfold with_dirty; simpl. f_equal.
    rewrite <- orb_assoc. f_equal.
    rewrite <- bool_decide_or. apply bool_decide_ext. by rewrite elem_of_app.
  - rewrite (mk_log _ _ _ _ M2), (mk_log _ _ _ _ M1), map_app, app_assoc. done.
  - apply NoDup_app. split; [apply M1|]. split; [|apply M2].
    intros b Hb1 Hb2.
    apply (mk_clean _ _ _ _ M2) in Hb2 as [_ Hc].
    rewrite (Marked_dirty _ _ _ _ b M1) in Hc.
    rewrite (bool_decide_eq_true_2 _ Hb1), orb_true_r in Hc. done.
  - intros b Hb. apply elem_of_app in Hb as [Hb|Hb].
    + by apply M1.
    + apply (mk_clean _ _ _ _ M2) in Hb as [Hlt Hc]. split.
      * by rewrite <- (mk_len _ _ _ _ M1).
      * rewrite (Marked_dirty _ _ _ _ b M1) in Hc.
        by apply orb_false_iff in Hc as [? _].
  - intros b d Hb He. apply elem_of_app in Hb as [Hb|Hb].
    + rewrite (Marked_dirty _ _ _ _ d M2).
      by rewrite (mk_closed _ _ _ _ M1 b d Hb He).
    + apply (mk_closed _ _ _ _ M2 b d Hb). by eapply same_graph_edge.
  - intros b Hb. apply elem_of_app in Hb as [Hb|Hb].
    + destruct (mk_reach _ _ _ _ M1 b Hb) as (r & Hr & Hp).
      exists r. split; [apply elem_of_app; by left | done].
    + destruct (mk_reach _ _ _ _ M2 b Hb) as (r & Hr & Hp).
      exists r. split; [apply elem_of_app; by right |].
      by eapply rtc_same_graph.
  - rewrite length_app. pose proof (mk_count _ _ _ _ M1). pose proof (mk_count _ _ _ _ M2). lia.
Qed.


Lemma heap_wfb_correct h : heap_wfb h = true -> heap_wf h.
Proof.
  unfold heap_wfb. intros H x y (vx & Hx & Hy).
  rewrite forallb_forall in H.
  assert (In vx h) as Hin by (apply list_elem_of_In; by eapply list_elem_of_lookup_2).
  specialize (H _ Hin). rewrite forallb_forall in H.
  apply list_elem_of_In in Hy. specialize (H _ Hy). by apply Nat.ltb_lt in H.
Qed.


Lemma forEachM_mono {A S : Type} (g g' : A -> S -> option S) l s s' :
  (forall x t t', g x t = Some t' -> g' x t = Some t') ->
  forEachM g l s = Some s' -> forEachM g' l s = Some s'.
Proof.
  intros Hg. revert s. induction l as [|x l IH]; intros s; simpl; [done|].
  destruct (g x s) as [t|] eqn:Hx; [|done].
  rewrite (Hg _ _ _ Hx). apply IH.
Qed.

(** More fuel does not change a result. *)
Lemma markDirty_mono f f' a w w' :
  markDirty f a w = Some w' -> f <= f' -> markDirty f' a w = Some w'.
Proof.
  revert f' a w w'. induction f as [|f IH]; intros f' a w w' H Hle; [done|].
  destruct f' as [|f']; [lia|]. simpl in *.
  destruct (heap w !! a) as [v|]; [|done].
  destruct (_dirty v); [done|].
  unfold notifyDependentsWith in *.
  destruct (_ !! a) as [v1|]; [|done].
  eapply forEachM_mono; [|exact H].
  intros x t t' Hx. apply IH; [done | lia].
Qed.

Section Loop.

Variable fuel : nat.
Hypothesis markDirty_ok : forall w a,
  heap_wf (heap w) -> a < length (heap w) -> clean_count (heap w) < fuel ->
  exists w' ms, markDirty fuel a w = Some w' /\ Marked [a] w w' ms /\
                is_dirty (heap w') a = true.

(** The loop of [_notifyDependents] over the dependents [ds]. *)
Lemma forEach_markDirty_spec ds w :
  heap_wf (heap w) -> (forall d, d ∈ ds -> d < length (heap w)) ->
  clean_count (heap w) < fuel ->
  exists w' ms, forEachM (markDirty fuel) ds w = Some w' /\ Marked ds w w' ms /\
                forall d, d ∈ ds -> is_dirty (heap w') d = true.
Proof using markDirty_ok.
  revert w. induction ds as [|d ds IH]; intros w Hwf Hds Hc.
  - exists w, []. split; [done|]. split; [apply Marked_nil|].
    intros d Hd. by apply elem_of_nil in Hd.
  - destruct (markDirty_ok w d Hwf) as (w1 & ms1 & Hrun1 & M1 & Hd1); [|done|].
    { apply Hds. by left. }
    pose proof (Marked_same_graph _ _ _ _ M1) as G1.
    destruct (IH w1) as (w2 & ms2 & Hrun2 & M2 & Hd2).
    { by eapply same_graph_wf. }
    { intros x Hx. rewrite (mk_len _ _ _ _ M1). apply Hds. by right. }
    { pose proof (mk_count _ _ _ _ M1). lia. }
    exists w2, (ms1 ++ ms2). simpl. rewrite Hrun1. split; [done|]. split.
    + apply (Marked_seq [d] ds _ _ _ _ _ M1 M2).
    + intros x Hx. apply elem_of_cons in Hx as [->|Hx]; [|by apply Hd2].
      by rewrite (Marked_dirty _ _ _ _ d M2), Hd1.
Qed.

End Loop.

(** [markDirty] returns as soon as the fuel exceeds the number of clean
    variables, whatever the shape of the graph. *)
Lemma markDirty_spec fuel w a :
  heap_wf (heap w) -> a < length (heap w) -> clean_count (heap w) < fuel ->
  exists w' ms, markDirty fuel a w = Some w' /\ Marked [a] w w' ms /\
                is_dirty (heap w') a = true.
Proof.
  revert w a. induction fuel as [|f IHf]; intros w a Hwf Ha Hc; [lia|].
  simpl. destruct (heap w !! a) as [v|] eqn:Hv; [|apply lookup_ge_None in Hv; lia].
  destruct (_dirty v) eqn:Hd.
  { exists w, []. split; [done|]. split; [apply Marked_nil|].
    by rewrite (is_dirty_lookup _ _ _ Hv). }
  set (w1 := mkWorld (<[a:=with_dirty v true]> (heap w)) (log w ++ [EvDirty a])).
  assert (heap w1 !! a = Some (with_dirty v true)) as Hw1a.
  { simpl. by apply list_lookup_insert_eq. }
  assert (same_graph (heap w) (heap w1)) as G1.
  { simpl. by eapply same_graph_insert. }
  unfold notifyDependentsWith. rewrite Hw1a. simpl _dependents.
  destruct (forEach_markDirty_spec f IHf (_dependents v) w1) as (w' & ms1 & Hrun & M & Hall).
  { by eapply same_graph_wf. }
  { intros d Hd'. simpl. rewrite length_insert. apply (Hwf a). by exists v. }
  { simpl. pose proof (clean_count_mark _ _ _ Hv Hd). lia. }
  exists w', (a :: ms1). split; [done|]. split; [split|].
  - rewrite (mk_len _ _ _ _ M). simpl. by rewrite length_insert.
  - intros b vb Hb. destruct (decide (b = a)) as [->|Hne].
    + rewrite Hv in Hb. injection Hb as <-.
      rewrite (mk_heap _ _ _ _ M _ _ Hw1a). simpl. f_equal.
      rewrite bool_decide_eq_true_2 by (by left). by rewrite orb_true_r.
    + assert (heap w1 !! b = Some vb) as Hb1 by (simpl; by rewrite list_lookup_insert_ne).
      rewrite (mk_heap _ _ _ _ M _ _ Hb1). do 3 f_equal.
      apply bool_decide_ext. rewrite elem_of_cons. intuition congruence.
  - rewrite (mk_log _ _ _ _ M). simpl. by rewrite <- app_assoc.
  - apply NoDup_cons. split; [|apply M].
    intros Ha1. apply (mk_clean _ _ _ _ M) in Ha1 as [_ Hc1].
    by rewrite (is_dirty_lookup _ _ _ Hw1a) in Hc1.
  - intros b Hb. apply elem_of_cons in Hb as [->|Hb].
    + split; [done|]. by rewrite (is_dirty_lookup _ _ _ Hv).
    + apply (mk_clean _ _ _ _ M) in Hb as [Hlt Hc1]. simpl in Hlt.
      rewrite length_insert in Hlt. split; [done|].
      destruct (decide (b = a)) as [->|Hne].
      * by rewrite (is_dirty_lookup _ _ _ Hw1a) in Hc1.
      * unfold is_dirty in *. simpl in Hc1. by rewrite list_lookup_insert_ne in Hc1.
  - intros b d Hb He. apply elem_of_cons in Hb as [->|Hb].
    + apply Hall. destruct He as (vx & Hx & Hy). congruence.
    + apply (mk_closed _ _ _ _ M b d Hb). by eapply same_graph_edge.
  - intros b Hb. exists a. split; [by left|].
    apply elem_of_cons in Hb as [->|Hb]; [done|].
    destruct (mk_reach _ _ _ _ M b Hb) as (r & Hr & Hp).
    eapply rtc_l; [by exists v|]. by eapply rtc_same_graph.
  - simpl. pose proof (mk_count _ _ _ _ M). pose proof (clean_count_mark _ _ _ Hv Hd).
    simpl in *. lia.
  - rewrite (Marked_dirty _ _ _ _ a M), (is_dirty_lookup _ _ _ Hw1a). done.
Qed.


(** A cyclic graph: 0 and 1 are each other's dependents, 2 hangs off 1. *)
Definition cyclic_world : World :=
  mkWorld [mkVar "a" (VNum 1) ["b"] [1] 0 false [];
           mkVar "b" (VNum 2) ["a"] [0; 2] 0 false [];
           mkVar "c" (VNum 3) ["b"] [] 0 false []] [].

(** C9.  On any finite variable graph, cyclic or not, [markDirty] returns:
    every fuel above the number of clean variables gives the same final
    world.  On an already-dirty variable it changes nothing, and in one
    pass no variable has its flag raised twice: the raised flags are
    listed without repetition, and a variable is dirty afterwards exactly
    when it was dirty before or is in that list. *)
Theorem markDirty_terminates w a :
  heap_wf (heap w) -> a < length (heap w) ->
  exists w' ms,
    (forall fuel, clean_count (heap w) < fuel -> markDirty fuel a w = Some w') /\
    log w' = log w ++ map EvDirty ms /\
    NoDup ms /\
    (is_dirty (heap w) a = true -> w' = w) /\
    (forall b, is_dirty (heap w') b = is_dirty (heap w) b || bool_decide (b ∈ ms)).
Proof.
  intros Hwf Ha.
  destruct (markDirty_spec (S (clean_count (heap w))) w a Hwf Ha) as (w' & ms & Hrun & M & _);
    [lia|].
  exists w', ms. split; [|split; [apply M | split; [apply M | split]]].
  - intros fuel Hf. eapply markDirty_mono; [exact Hrun | lia].
  - intros Hd. simpl in Hrun. unfold is_dirty in Hd.
    destruct (heap w !! a) as [v|]; [|done]. rewrite Hd in Hrun. congruence.
  - intros b. by eapply Marked_dirty.
Qed.

Lemma markDirty_terminates_witness :
  exists w' ms,
    (forall fuel, clean_count (heap cyclic_world) < fuel ->
                  markDirty fuel 0 cyclic_world = Some w') /\
    log w' = log cyclic_world ++ map EvDirty ms /\
    NoDup ms /\
    (is_dirty (heap cyclic_world) 0 = true -> w' = cyclic_world) /\
    (forall b, is_dirty (heap w') b =
               is_dirty (heap cyclic_world) b || bool_decide (b ∈ ms)).
Proof.
  apply (markDirty_terminates cyclic_world 0).
  - apply heap_wfb_correct. reflexivity.
  - simpl. lia.
Defined.

(** [subscribe] keeps the listeners a duplicate-free list and appends a new
    callback at the end: the list is the subscription order. *)
Lemma set_add_NoDup {A : Type} `{EqDecision A} (x : A) (s : list A) :
  NoDup s -> NoDup (set_add x s).
Proof.
  intros Hs. unfold set_add. destruct (decide (x ∈ s)); [done|].
  apply NoDup_app. split; [done|]. split; [|apply NoDup_singleton].
  intros y Hy Hy'. apply list_elem_of_singleton in Hy'. by subst.
Qed.

(** A linear graph 0 -> 1 -> 2 with two subscribers on 0. *)
Definition chain_world : World :=
  mkWorld [mkVar "a" (VNum 1) [] [1] 0 false [7; 3];
           mkVar "b" (VNum 2) ["a"] [2] 0 false [5];
           mkVar "c" (VNum 3) ["b"] [] 0 false []] [].




(** The run behind the witness: listeners 7 and 3 in that order, then the
    flags of 1 and 2. *)
Example set_chain_run :
  log <$> set 4 10 0 (VNum 5) chain_world =
  Some [EvCall 7 (VNum 5); EvCall 3 (VNum 5); EvDirty 1; EvDirty 2].
Proof. reflexivity. Qed.

End FlowVariableProofs.


(** ** The parser *)

Module FlowParserProofs.
Import JS FlowParser.

(** The loop returns the index it was given or the index of a token. *)
Lemma findMainOperator_loop_range rtokens minPrecedence operatorIndex parenDepth :
  let r := findMainOperator_loop rtokens minPrecedence operatorIndex parenDepth in
  r = operatorIndex \/ (0 <= r < Z.of_nat (length rtokens))%Z.
Proof.
  revert minPrecedence operatorIndex parenDepth.
  induction rtokens as [|token rest IH]; intros mp oi depth; [by left|].
  simpl findMainOperator_loop. simpl length.
  repeat match goal with
         | |- context [if ?c then _ else _] => destruct c
         | |- context [match ?c with Some _ => _ | None => _ end] => destruct c
         end;
    match goal with
    | |- context [findMainOperator_loop rest ?m ?o ?d] =>
        destruct (IH m o d) as [->|?]; [|right; lia]
    end; first [by left | right; lia].
Qed.

Lemma findMainOperator_range tokens :
  _findMainOperator tokens = (-1)%Z \/
  (0 <= _findMainOperator tokens < Z.of_nat (length tokens))%Z.
Proof.
  unfold _findMainOperator.
  destruct (findMainOperator_loop_range (rev tokens) None (-1) 0) as [?|H]; [by left|].
  right. by rewrite length_rev in H.
Qed.

Lemma argument_runs_length tokens current parenDepth :
  Forall (fun run => length run <= length tokens + length current)
         (argument_runs tokens current parenDepth).
Proof.
  revert current parenDepth.
  induction tokens as [|token rest IH]; intros current depth; simpl.
  - destruct current; constructor; [|constructor]. rewrite length_rev. simpl. lia.
  - destruct (str_eqb token "," && (depth =? 0)%Z).
    + destruct current as [|c current'].
      * eapply Forall_impl; [apply IH|]. simpl. intros; lia.
      * constructor; [rewrite length_rev; simpl; lia|].
        eapply Forall_impl; [apply IH|]. simpl. intros; lia.
    + eapply Forall_impl; [apply IH|]. simpl. intros; lia.
Qed.

Lemma mapM_total {A B : Type} (f : A -> option B) l :
  Forall (fun x => is_Some (f x)) l -> is_Some (mapM f l).
Proof.
  induction 1 as [|x l [y Hy] _ [ys Hys]]; simpl; [by eexists|].
  rewrite Hy, Hys. by eexists.
Qed.

Lemma parseTokens_fuel_unfold fuel tokens :
  length tokens <> 1 ->
  parseTokens_fuel (S fuel) tokens =
  if (3 <=? length tokens) && str_eqb (nth 1 tokens "") "(" && is_function (nth 0 tokens "")
  then
    match mapM (parseTokens_fuel fuel) (argument_runs (slice_2_m1 tokens) [] 0) with
    | Some args => Some (AFun (nth 0 tokens "") args)
    | None => None
    end
  else
    if (0 <? _findMainOperator tokens)%Z then
      match parseTokens_fuel fuel (take (Z.to_nat (_findMainOperator tokens)) tokens),
            parseTokens_fuel fuel (drop (Z.to_nat (_findMainOperator tokens) + 1) tokens) with
      | Some lhs, Some rhs =>
          Some (AOp (nth (Z.to_nat (_findMainOperator tokens)) tokens "") lhs rhs)
      | _, _ => None
      end
    else Some (ALit (join " " tokens)).
Proof. destruct tokens as [|t0 [|t1 rest]]; done. Qed.

(** [_parseTokens] terminates: a fuel above the number of tokens is never
    used up. *)
Lemma parseTokens_fuel_enough fuel tokens :
  length tokens < fuel -> is_Some (parseTokens_fuel fuel tokens).
Proof.
  revert tokens. induction fuel as [|fuel IH]; intros tokens Hlen; [lia|].
  destruct (decide (length tokens = 1)) as [Hone|Hone].
  { destruct tokens as [|t0 [|t1 rest]]; try done. simpl.
    destruct (regex_test re_number t0); by eexists. }
  rewrite parseTokens_fuel_unfold by done.
  destruct ((3 <=? length tokens) && str_eqb (nth 1 tokens "") "(" &&
            is_function (nth 0 tokens "")) eqn:Hcall.
  - apply andb_true_iff in Hcall as [Hcall _]. apply andb_true_iff in Hcall as [Hthree _].
    apply Nat.leb_le in Hthree.
    destruct (mapM_total (parseTokens_fuel fuel)
                (argument_runs (slice_2_m1 tokens) [] 0)) as [args ->]; [|by eexists].
    eapply Forall_impl; [apply argument_runs_length|].
    intros run Hrun. apply IH. unfold slice_2_m1 in Hrun.
    rewrite length_take, length_drop in Hrun. simpl in Hrun. lia.
  - destruct (findMainOperator_range tokens) as [Hm|Hm].
    + rewrite Hm. simpl. by eexists.
    + destruct (0 <? _findMainOperator tokens)%Z; [|by eexists].
      destruct (IH (take (Z.to_nat (_findMainOperator tokens)) tokens)) as [l ->].
      { rewrite length_take. lia. }
      destruct (IH (drop (Z.to_nat (_findMainOperator tokens) + 1) tokens)) as [r ->].
      { rewrite length_drop. lia. }
      by eexists.
Qed.

Lemma count_tok_app t l1 l2 : count_tok t (l1 ++ l2) = count_tok t l1 + count_tok t l2.
Proof. unfold count_tok. by rewrite List.filter_app, length_app. Qed.

Lemma count_tok_rev t l : count_tok t (rev l) = count_tok t l.
Proof.
  induction l as [|x l IH]; [done|]. simpl rev. rewrite count_tok_app, IH.
  unfold count_tok. simpl. destruct (str_eqb t x); simpl; lia.
Qed.

Lemma str_eqb_true a b : str_eqb a b = true -> a = b.
Proof. unfold str_eqb. by destruct (decide (a = b)). Qed.

Lemma str_eqb_false a b : str_eqb a b = false -> a <> b.
Proof. unfold str_eqb. by destruct (decide (a = b)). Qed.

Lemma count_tok_cons t x l :
  count_tok t (x :: l) = (if str_eqb t x then 1 else 0) + count_tok t l.
Proof. unfold count_tok. simpl. by destruct (str_eqb t x). Qed.

(** The invariant of the right-to-left scan: with [suffix] the tokens
    already visited, [parenDepth] is the number of [")"] minus the number
    of ["("] among them; an index once chosen has as many ["("] as [")"]
    before it and holds an operator. *)
Lemma findMainOperator_loop_top_level tokens rtokens suffix minPrecedence operatorIndex parenDepth :
  count_tok "(" tokens = count_tok ")" tokens ->
  tokens = rev rtokens ++ suffix ->
  parenDepth = (Z.of_nat (count_tok ")" suffix) - Z.of_nat (count_tok "(" suffix))%Z ->
  let good i :=
    (0 <= i)%Z /\
    count_tok "(" (take (Z.to_nat i) tokens) = count_tok ")" (take (Z.to_nat i) tokens) /\
    is_Some (precedence (nth (Z.to_nat i) tokens "")) in
  (operatorIndex = (-1)%Z \/ good operatorIndex) ->
  let r := findMainOperator_loop rtokens minPrecedence operatorIndex parenDepth in
  r = (-1)%Z \/ good r.
Proof.
  intros Hbal. revert suffix minPrecedence operatorIndex parenDepth.
  induction rtokens as [|token rest IH]; intros suffix mp oi depth Htok Hdepth good Hoi; [done|].
  simpl rev in Htok. rewrite <- app_assoc in Htok. simpl app in Htok.
  simpl findMainOperator_loop.
  destruct (str_eqb token ")") eqn:Hclose.
  { apply (IH (token :: suffix)); [done| |done].
    rewrite !count_tok_cons. apply str_eqb_true in Hclose. subst token. simpl. lia. }
  destruct (str_eqb token "(") eqn:Hopen.
  { apply (IH (token :: suffix)); [done| |done].
    rewrite !count_tok_cons. apply str_eqb_true in Hopen. subst token. simpl. lia. }
  assert (depth = (Z.of_nat (count_tok ")" (token :: suffix))
                   - Z.of_nat (count_tok "(" (token :: suffix)))%Z) as Hdepth'.
  { rewrite !count_tok_cons.
    assert (str_eqb ")" token = false) as ->.
    { unfold str_eqb in *. destruct (decide (token = ")")); [done|].
      by destruct (decide (")" = token)). }
    assert (str_eqb "(" token = false) as ->.
    { unfold str_eqb in *. destruct (decide (token = "(")); [done|].
      by destruct (decide ("(" = token)). }
    simpl. lia. }
  destruct (depth =? 0)%Z eqn:Hzero; [|by apply (IH (token :: suffix))].
  destruct (precedence token) as [p|] eqn:Hprec; [|by apply (IH (token :: suffix))].
  destruct (prec_le p mp); [|by apply (IH (token :: suffix))].
  apply (IH (token :: suffix)); [done|done|]. right.
  assert (take (length rest) tokens = rev rest) as Htake.
  { rewrite Htok. rewrite take_app_length'; [done|by rewrite length_rev]. }
  unfold good. rewrite Nat2Z.id, Htake. split; [lia|]. split.
  - apply Z.eqb_eq in Hzero. rewrite Htok, !count_tok_app in Hbal. lia.
  - rewrite Htok. rewrite app_nth2; rewrite length_rev; [|lia].
    rewrite Nat.sub_diag. simpl. by rewrite Hprec.
Qed.

(** The split point is never inside parentheses: on a balanced token
    sequence the index [_findMainOperator] returns, when there is one, is
    at nesting depth 0 and holds an operator. *)
Lemma findMainOperator_top_level tokens :
  balanced tokens ->
  (0 <= _findMainOperator tokens)%Z ->
  nesting tokens (Z.to_nat (_findMainOperator tokens)) = 0 /\
  is_Some (precedence (nth (Z.to_nat (_findMainOperator tokens)) tokens "")).
Proof.
  intros [Hbal _] Hpos. unfold _findMainOperator in *.
  destruct (findMainOperator_loop_top_level tokens (rev tokens) [] None (-1) 0 Hbal)
    as [Hr|(_ & Hn & Hp)].
  - by rewrite rev_involutive, app_nil_r.
  - done.
  - by left.
  - lia.
  - split; [|done]. unfold nesting. rewrite Hn. lia.
Qed.

(** C6.  The chain [2 - 3 - 4]: the main operator is the first ["-"]
    (index 1), so the tree is [2 - (3 - 4)] although the operator table
    declares ["-"] left-associative. *)
Theorem equal_precedence_chain_groups_right :
  _findMainOperator ["2"; "-"; "3"; "-"; "4"] = 1%Z /\
  _parseTokens ["2"; "-"; "3"; "-"; "4"] =
    AOp "-" (ANum 2) (AOp "-" (ANum 3) (ANum 4)) /\
  value (parse "2 - 3 - 4") = ValAst (AOp "-" (ANum 2) (AOp "-" (ANum 3) (ANum 4))) /\
  associativity "-" = Some "left".
Proof. repeat split; vm_compute; reflexivity. Qed.

End FlowParserProofs.


(** ** The scheduler and the evaluator *)

Module ExecutionEngineProofs.
Import JS FlowParser ExecutionEngine.

(** *** The evaluator on parsed assignments *)

(** The claim of C3 fails: the value-expression of [x = 2 + 3 * 4] does not
    evaluate to 14, nor to any number. *)
Lemma assignment_value_is_not_14 :
  ~ exists variable valueExpr deps c q,
      parse "x = 2 + 3 * 4" = mkExpr TVariable (ValAssign variable valueExpr) deps c /\
      _evaluateOperation valueExpr = RNum q /\ (q == 14)%Q.
Proof.
  intros (variable & valueExpr & deps & c & q & Hparse & Heval & _).
  vm_compute in Hparse. injection Hparse as _ <- _ _.
  vm_compute in Heval. discriminate.
Qed.

(** C3, amended.  [parse "x = 2 + 3 * 4"] is an assignment node (type tag
    ["variable"]) whose value-expression holds the tree [2 + (3 * 4)].  The
    operation evaluator applies the operator to the operand nodes as they
    are, without evaluating them: on this value-expression it concatenates
    [2] and the printed object.  On the value-expression of [x = 2 + 12],
    whose operands are the number literals 2 and 12, it returns 14. *)
Theorem assignment_value_evaluation :
  let valueExpr :=
    mkExpr TOperation (ValAst (AOp "+" (ANum 2) (AOp "*" (ANum 3) (ANum 4)))) [] 9 in
  let valueExpr' := mkExpr TOperation (ValAst (AOp "+" (ANum 2) (ANum 12))) [] 5 in
  parse "x = 2 + 3 * 4" = mkExpr TVariable (ValAssign "x" valueExpr) [] 10 /\
  _evaluateOperation valueExpr = RStr "2[object Object]" /\
  _evaluateExpression valueExpr = RStr "2[object Object]" /\
  parse "x = 2 + 12" = mkExpr TVariable (ValAssign "x" valueExpr') [] 6 /\
  _evaluateOperation valueExpr' = RNum 14 /\
  _evaluateExpression valueExpr' = RNum 14.
Proof. repeat split; vm_compute; reflexivity. Qed.


(** *** Re-submission of a partially run chunked task *)

(** [schedule] rebuilds the chunk list of every task whose complexity
    exceeds 100, whatever list the task carried. *)
Lemma schedule_rechunks task cs e :
  100 < complexity (expression task) ->
  schedule (with_chunks task cs) e =
  with_queue e (insert_by_priority (with_chunks task (Some (_chunkComputation task)))
                                   (_taskQueue e)).
Proof.
  intros Hc. unfold schedule. simpl.
  apply Nat.ltb_lt in Hc. rewrite Hc. done.
Qed.

(** A task of complexity 110 (11 chunks), and a clock that lets two chunks
    run before the frame is nearly over. *)
Definition big_task : ComputationTask :=
  mkTask "t" (mkExpr TOperation (ValAst (ANum 1)) [] 110) 1 None.

Definition short_frame_clock (k : nat) : Q := if k <? 4 then 0 else 15.5.

Definition short_frame_engine : ExecutionEngine :=
  schedule big_task (new_engine None None None None 4 short_frame_clock).

(** C2.  The frame runs chunks 0 and 1 of [big_task] and re-submits it.
    The task that re-enters the queue carries the whole list of 11 chunks,
    starting again at chunk 0, not the 9 chunks that were left. *)
Theorem resubmitted_task_carries_all_chunks :
  exists e' task',
    executeFrame 3 0 short_frame_engine = Some e' /\
    trace e' = [Shifted (with_chunks big_task (Some (_chunkComputation big_task)));
                ChunkRan "t_chunk_0"; ChunkRan "t_chunk_1"] /\
    _taskQueue e' = [task'] /\
    chunks task' = Some (_chunkComputation big_task) /\
    length (_chunkComputation big_task) = 11 /\
    chunks task' <> Some (drop 2 (_chunkComputation big_task)).
Proof.
  eexists _, _. split; [vm_compute; reflexivity|].
  repeat split. vm_compute. discriminate.
Qed.

(** *** Priority order *)

Definition by_priority (a b : ComputationTask) : Prop := (priority b <= priority a)%Z.

(** The task [schedule] puts in the queue. *)
Definition prepared (task : ComputationTask) : ComputationTask :=
  if 100 <? complexity (expression task)
  then with_chunks task (Some (_chunkComputation task))
  else task.



Lemma schedule_queue task e :
  _taskQueue (schedule task e) = insert_by_priority (prepared task) (_taskQueue e).
Proof. done. Qed.

Lemma insert_by_priority_perm task queue :
  Permutation (insert_by_priority task queue) (task :: queue).
Proof.
  induction queue as [|t rest IH]; simpl; [done|].
  destruct (priority t <? priority task)%Z; [done|].
  rewrite IH. apply perm_swap.
Qed.

Lemma insert_by_priority_sorted task queue :
  StronglySorted by_priority queue ->
  StronglySorted by_priority (insert_by_priority task queue).
Proof.
  induction 1 as [|t rest Hs IH Hall]; simpl.
  - repeat constructor.
  - destruct (priority t <? priority task)%Z eqn:Hlt.
    + apply Z.ltb_lt in Hlt. constructor; [by constructor|].
      constructor; [unfold by_priority; lia|].
      eapply Forall_impl; [exact Hall|]. unfold by_priority. intros; lia.
    + apply Z.ltb_ge in Hlt. constructor; [done|].
      rewrite insert_by_priority_perm. by constructor.
Qed.




(** Every clock reading leaves more than 2ms of the current frame. *)
Definition plenty (e : ExecutionEngine) : Prop :=
  unlimited_frame_time e (_frameStartTime e).

(** One step of the frame loop keeps the queue, the shifted tasks and the
    time budget, up to what the lemma at hand says otherwise. *)
Definition untouched (e e' : ExecutionEngine) : Prop :=
  _taskQueue e' = _taskQueue e /\ shifted (trace e') = shifted (trace e) /\
  (plenty e -> plenty e').

Lemma remaining_spec e :
  exists r e1, _getRemainingFrameTime e = (r, e1) /\ untouched e e1 /\
               console e1 = console e /\
               (plenty e -> (2 < r)%Q).
Proof.
  unfold _getRemainingFrameTime, performance_now. eexists _, _. split; [done|].
  split; [by repeat split|]. split; [done|].
  intros Hp. eapply Qlt_le_trans; [apply (Hp (reads e))|]. apply Q.le_max_r.
Qed.

Lemma shifted_app tr1 tr2 : shifted (tr1 ++ tr2) = shifted tr1 ++ shifted tr2.
Proof. unfold shifted. apply omap_app. Qed.

(** *** What a drained queue has executed *)

Lemma priority_prepared task : priority (prepared task) = priority task.
Proof. unfold prepared. by destruct (100 <? _). Qed.



(** From [e] to [e']: the trace grew by [tr], the console by [out], and
    the queue, the configuration and the clock are the same. *)
Definition ran (tr : list TraceEvent) (out : list ConsoleEntry)
  (e e' : ExecutionEngine) : Prop :=
  _taskQueue e' = _taskQueue e /\ trace e' = trace e ++ tr /\
  console e' = console e ++ out /\ _config e' = _config e /\
  _frameStartTime e' = _frameStartTime e /\ clock e' = clock e.










(** Priorities 1, 5, 3 as in the claim, and a fourth task of priority 5
    whose complexity makes [schedule] chunk it, on a 16ms frame whose
    clock stands still. *)
Definition three_tasks : list ComputationTask :=
  [mkTask "a" (parse "1 + 0") 1 None;
   mkTask "b" (parse "5 + 0") 5 None;
   mkTask "c" (parse "3 + 0") 3 None].

Definition four_tasks : list ComputationTask :=
  three_tasks ++ [mkTask "d" (mkExpr TOperation (ValAst (ANum 1)) [] 110) 5 None].

Definition still_engine : ExecutionEngine :=
  new_engine None None None None 4 (fun _ => 0%Q).


(** The run of the claim: priorities [1; 5; 3] are executed in the order
    5, 3, 1, each task logging its completion with its value. *)
Example three_tasks_run :
  (fun e => (map priority (shifted (trace e)), console e)) <$>
    executeFrame 4 0 (fold_left (fun e t => schedule t e) three_tasks still_engine)
  = Some ([5; 3; 1]%Z,
          [LogCompleted "b" (RNum 5); LogCompleted "c" (RNum 3); LogCompleted "a" (RNum 1)]).
Proof. vm_compute. reflexivity. Qed.

(** With the chunked task ["d"] behind ["b"]: ["b"] completes, the eleven
    chunks of ["d"] run, then ["c"] and ["a"] complete. *)
Example four_tasks_run :
  (fun e => (map id (shifted (trace e)),
             length (List.filter (fun ev => match ev with ChunkRan _ => true | _ => false end)
                                 (trace e)),
             console e)) <$>
    executeFrame 5 0 (fold_left (fun e t => schedule t e) four_tasks still_engine)
  = Some (["b"; "d"; "c"; "a"], 11,
          [LogCompleted "b" (RNum 5); LogCompleted "c" (RNum 3); LogCompleted "a" (RNum 1)]).
Proof. vm_compute. reflexivity. Qed.

End ExecutionEngineProofs.


(** ** The result cache *)

Module CacheManagerProofs.
Import JS CacheManager.

Lemma str_eqb_eq a b : str_eqb a b = true <-> a = b.
Proof. unfold str_eqb. destruct (decide (a = b)); naive_solver. Qed.

Lemma str_eqb_neq a b : str_eqb a b = false <-> a <> b.
Proof. unfold str_eqb. destruct (decide (a = b)); naive_solver. Qed.

Lemma str_eqb_refl a : str_eqb a a = true.
Proof. by apply str_eqb_eq. Qed.

Lemma map_get_set_eq {V : Type} k (v : V) m : map_get k (map_set k v m) = Some v.
Proof.
  induction m as [|[k' v'] m IH]; simpl.
  - by rewrite str_eqb_refl.
  - destruct (str_eqb k' k) eqn:E; simpl; [by rewrite str_eqb_refl | by rewrite E].
Qed.

Lemma map_get_delete_eq {V : Type} k (m : list (string * V)) :
  map_get k (map_delete k m) = None.
Proof.
  induction m as [|[k' v'] m IH]; simpl; [done|].
  destruct (str_eqb k' k) eqn:E; simpl; [done | by rewrite E].
Qed.

Lemma map_get_None {V : Type} k (m : list (string * V)) :
  map_get k m = None <-> k ∉ map fst m.
Proof.
  induction m as [|[k' v'] m IH]; simpl.
  - split; [intros _ H; by apply elem_of_nil in H | done].
  - rewrite not_elem_of_cons. destruct (str_eqb k' k) eqn:E.
    + apply str_eqb_eq in E. split; [done|]. intros [Hne _]. congruence.
    + apply str_eqb_neq in E. rewrite IH. split; [|by intros [_ ?]].
      intros Hnin. split; [congruence | done].
Qed.

Lemma map_set_fresh {V : Type} k (v : V) m :
  k ∉ map fst m -> map_set k v m = m ++ [(k, v)].
Proof.
  induction m as [|[k' v'] m IH]; simpl; [done|].
  rewrite not_elem_of_cons. intros [Hne Hnin].
  assert (str_eqb k' k = false) as -> by (apply str_eqb_neq; congruence).
  by rewrite IH.
Qed.

Lemma map_delete_length {V : Type} k (m : list (string * V)) :
  length (map_delete k m) <= length m.
Proof. unfold map_delete. apply List.filter_length_le. Qed.

Lemma map_delete_absent {V : Type} k (m : list (string * V)) :
  k ∉ map fst m -> map_delete k m = m.
Proof.
  induction m as [|[k' v'] m IH]; simpl; [done|].
  rewrite not_elem_of_cons. intros [Hne Hnin].
  assert (str_eqb k' k = false) as -> by (apply str_eqb_neq; congruence).
  simpl. by rewrite IH.
Qed.

Lemma map_delete_cons_eq {V : Type} k (kv : string * V) m :
  fst kv = k -> map_delete k (kv :: m) = map_delete k m.
Proof. intros <-. unfold map_delete. simpl. by rewrite str_eqb_refl. Qed.

Lemma map_delete_cons_ne {V : Type} k k' (v : V) m :
  k' <> k -> map_delete k ((k', v) :: m) = (k', v) :: map_delete k m.
Proof.
  intros Hne. unfold map_delete. simpl.
  by assert (str_eqb k' k = false) as -> by (by apply str_eqb_neq).
Qed.

Lemma map_set_length {V : Type} k (v : V) m : length (map_set k v m) <= S (length m).
Proof.
  induction m as [|[k' v'] m IH]; simpl; [lia|].
  destruct (str_eqb k' k); simpl; lia.
Qed.

Lemma map_delete_shrinks {V : Type} k (v : V) (m : list (string * V)) :
  map_get k m = Some v -> length (map_delete k m) < length m.
Proof.
  induction m as [|[k' v'] m IH]; simpl; [done|].
  destruct (str_eqb k' k) eqn:E; simpl.
  - intros _. pose proof (map_delete_length k m). unfold map_delete in *. lia.
  - intros H. apply IH in H. unfold map_delete in *. lia.
Qed.

(** A cache of capacity 2 that holds ["a"], then stores [undefined] under
    ["k"], then stores ["b"]; and the same cache without the second step. *)
Definition cache_with_undefined : CacheManager :=
  set 3 "b" (VNum 2) None
    (set 2 "k" VUndefined None (set 1 "a" (VNum 1) None (new_cache (Some 2)))).

Definition cache_without : CacheManager :=
  set 3 "b" (VNum 2) None (set 1 "a" (VNum 1) None (new_cache (Some 2))).

(** The claim of C10 fails in its conclusion: an entry that stores
    [undefined] is not indistinguishable from an absent one.  It reads as
    absent, but it is counted in the size and fills a slot: storing ["b"]
    then evicts ["a"], which the cache that never stored ["k"] still
    returns. *)
Lemma stored_undefined_is_not_absent :
  fst (get 4 "k" cache_with_undefined) = VUndefined /\
  fst (get 4 "k" cache_without) = VUndefined /\
  size cache_with_undefined = 2 /\ map fst (_cache cache_with_undefined) = ["k"; "b"] /\
  size cache_without = 2 /\ map fst (_cache cache_without) = ["a"; "b"] /\
  fst (get 4 "a" cache_with_undefined) = VUndefined /\
  fst (get 4 "a" cache_without) = VNum 1 /\
  fst (has 4 "a" cache_with_undefined) = false /\
  fst (has 4 "a" cache_without) = true.
Proof. repeat split. Qed.

(** C10, amended.  After [set(key, undefined)] without TTL, [get(key)]
    returns [undefined] and [has(key)] returns [false], at any later time
    and whatever the cache held; this is what both return for a key that
    is not stored (here: just deleted).  The entry is stored all the same:
    the cache holds it under the key, it is counted in the size (deleting
    it lowers the size), and reading it raises its access count. *)
Theorem undefined_value_reads_as_absent c key now now' :
  fst (get now' key (set now key VUndefined None c)) = VUndefined /\
  fst (has now' key (set now key VUndefined None c)) = false /\
  fst (get now' key (delete key c)) = VUndefined /\
  fst (has now' key (delete key c)) = false /\
  map_get key (_cache (set now key VUndefined None c)) =
    Some (mkEntry VUndefined now None) /\
  size (delete key (set now key VUndefined None c)) <
    size (set now key VUndefined None c) /\
  map_get key (_accessCount (snd (get now' key (set now key VUndefined None c)))) = Some 2.
Proof.
  assert (map_get key (_cache (set now key VUndefined None c)) =
            Some (mkEntry VUndefined now None)) as Hstored.
  { unfold set. cbn [_cache]. apply map_get_set_eq. }
  assert (fst (get now' key (set now key VUndefined None c)) = VUndefined) as Hget.
  { unfold get. by rewrite Hstored. }
  split; [done|]. split; [|split; [|split; [|split; [done|split]]]].
  - unfold has. destruct (map_has key _); [|done].
    destruct (get now' key _) as [v c']. simpl in *. by subst v.
  - unfold get, delete. cbn [_cache]. by rewrite map_get_delete_eq.
  - unfold has, map_has, delete. cbn [_cache]. by rewrite map_get_delete_eq.
  - unfold size, delete. cbn [_cache]. by eapply map_delete_shrinks.
  - unfold get. rewrite Hstored. cbn [expired expiresAt snd _accessCount].
    assert (map_get key (_accessCount (set now key VUndefined None c)) = Some 1) as ->.
    { unfold set. cbn [_accessCount]. apply map_get_set_eq. }
    apply map_get_set_eq.
Qed.


(** *** Eviction *)

(** The claim of C7 fails at capacity 1: the first key, although read
    again, is the only candidate and is evicted. *)
Lemma capacity_one_evicts_first_key :
  let ops := eviction_scenario ("a", VNum 1) [(1, ("b", VNum 2))] in
  let c := run_ops 0 ops (new_cache (Some 1)) in
  ops = [OpSet "a" (VNum 1); OpGet "a"; OpSet "b" (VNum 2)] /\
  map_has "a" (_cache c) = false.
Proof. split; reflexivity. Qed.

(** With the empty string as second key nothing is evicted and the cache
    grows past its capacity. *)
Example empty_key_is_not_evicted :
  size (run_ops 0 (eviction_scenario ("a", VNum 1) [(1, ("", VNum 2)); (0, ("c", VNum 3))])
                (new_cache (Some 2))) = 3.
Proof. reflexivity. Qed.

Definition key_of (s : nat * (string * JsVal)) : string := fst (snd s).

Definition entry_of (now : Z) (s : nat * (string * JsVal)) : string * CacheEntry :=
  (key_of s, mkEntry (snd (snd s)) now None).

Definition count_of (s : nat * (string * JsVal)) : string * nat := (key_of s, 1).

Definition step_ops (first : string) (s : nat * (string * JsVal)) : list CacheOp :=
  repeat (OpGet first) (fst s) ++ [OpSet (key_of s) (snd (snd s))].

Definition gets_of (steps : list (nat * (string * JsVal))) : nat :=
  fold_right (fun s n => fst s + n) 0 steps.

Definition count_sets (ops : list CacheOp) : nat :=
  length (List.filter (fun op => match op with OpSet _ _ => true | OpGet _ => false end) ops).

Lemma run_ops_app now ops1 ops2 c :
  run_ops now (ops1 ++ ops2) c = run_ops now ops2 (run_ops now ops1 c).
Proof. unfold run_ops. apply fold_left_app. Qed.

Lemma evictLRU_size c : size (_evictLRU c) <= size c.
Proof.
  unfold _evictLRU. destruct (str_eqb _ ""); [done|].
  unfold size, delete. simpl. apply map_delete_length.
Qed.

(** No operation adds more than one entry, and only [set] adds one. *)
Lemma run_op_size now op c :
  size (run_op now op c) <=
  size c + match op with OpSet _ _ => 1 | OpGet _ => 0 end.
Proof.
  destruct op as [k v|k]; simpl.
  - unfold set, size. cbn [_cache].
    etransitivity; [apply map_set_length|].
    destruct (_maxSize c <=? length (_cache c)); [|lia].
    pose proof (evictLRU_size c). unfold size in *. lia.
  - unfold get. destruct (map_get k (_cache c)) as [e|]; [|simpl; lia].
    destruct (expired now e); simpl; unfold size; simpl; [|lia].
    pose proof (map_delete_length k (_cache c)). lia.
Qed.

Lemma run_ops_size now ops c :
  size (run_ops now ops c) <= size c + count_sets ops.
Proof.
  revert c. induction ops as [|op ops IH]; intros c; [simpl; lia|].
  change (run_ops now (op :: ops) c) with (run_ops now ops (run_op now op c)).
  etransitivity; [apply IH|]. pose proof (run_op_size now op c).
  unfold count_sets in *. simpl. destruct op; simpl in *; lia.
Qed.

Lemma count_sets_app ops1 ops2 : count_sets (ops1 ++ ops2) = count_sets ops1 + count_sets ops2.
Proof. unfold count_sets. by rewrite List.filter_app, length_app. Qed.

Lemma count_sets_take n ops : count_sets (take n ops) <= count_sets ops.
Proof.
  rewrite <- (take_drop n ops) at 2. rewrite count_sets_app. lia.
Qed.

Lemma count_sets_gets k n : count_sets (repeat (OpGet k) n) = 0.
Proof. induction n; [done|]. by simpl. Qed.

Lemma count_sets_steps first steps :
  count_sets (flat_map (step_ops first) steps) = length steps.
Proof.
  induction steps as [|s steps IH]; [done|].
  simpl. unfold step_ops at 1.
  rewrite !count_sets_app, count_sets_gets, IH. done.
Qed.

Section Scenario.

Variables (now : Z) (maxSize : nat) (k1 : string) (v1 : JsVal).

Let e1 := mkEntry v1 now None.

(** The cache while nothing has been evicted: the first key in front with
    its access count, the other keys behind with count 1. *)
Definition filling (g : nat) (steps : list (nat * (string * JsVal))) : CacheManager :=
  mkCache ((k1, e1) :: map (entry_of now) steps) maxSize
          ((k1, g) :: map count_of steps).

Lemma run_gets g steps n :
  run_ops now (repeat (OpGet k1) n) (filling g steps) = filling (g + n) steps.
Proof using Type.
  revert g. induction n as [|n IH]; intros g; [by rewrite Nat.add_0_r|].
  change (run_ops now (repeat (OpGet k1) (S n)) (filling g steps))
    with (run_ops now (repeat (OpGet k1) n) (run_op now (OpGet k1) (filling g steps))).
  assert (run_op now (OpGet k1) (filling g steps) = filling (g + 1) steps) as ->.
  { unfold run_op, get, filling. simpl. rewrite !str_eqb_refl. simpl.
    by rewrite ?str_eqb_refl. }
  rewrite IH. f_equal. lia.
Qed.

Lemma keys_entries steps : map fst (map (entry_of now) steps) = map key_of steps.
Proof using Type. induction steps; simpl; congruence. Qed.

Lemma keys_counts steps : map fst (map count_of steps) = map key_of steps.
Proof using Type. induction steps; simpl; congruence. Qed.

(** Below capacity every step appends its key. *)
Lemma run_steps_filling steps done_ g :
  S (length done_ + length steps) <= maxSize ->
  NoDup (k1 :: map key_of (done_ ++ steps)) ->
  run_ops now (flat_map (step_ops k1) steps) (filling g done_) =
  filling (g + gets_of steps) (done_ ++ steps).
Proof using Type.
  revert done_ g. induction steps as [|s steps IH]; intros done_ g Hlen Hnd.
  - simpl. by rewrite Nat.add_0_r, app_nil_r.
  - cbn [flat_map]. rewrite run_ops_app.
    replace (run_ops now (step_ops k1 s) (filling g done_))
      with (run_ops now [OpSet (key_of s) (snd (snd s))] (filling (g + fst s) done_))
      by (unfold step_ops; by rewrite run_ops_app, run_gets).
    assert (key_of s ∉ k1 :: map key_of done_) as Hfresh.
    { rewrite map_app in Hnd. simpl in Hnd.
      apply NoDup_cons in Hnd as [Hk1 Hnd]. apply NoDup_app in Hnd as (_ & Hdisj & Hnd2).
      rewrite not_elem_of_cons. split.
      - intros Heq. apply Hk1. rewrite <- Heq, elem_of_app. right. by left.
      - intros Hin. apply (Hdisj _ Hin). by left. }
    assert (run_ops now [OpSet (key_of s) (snd (snd s))] (filling (g + fst s) done_)
            = filling (g + fst s) (done_ ++ [s])) as ->.
    { unfold run_ops, run_op, set, filling. cbn [fold_left _cache _maxSize _accessCount].
      assert ((maxSize <=? length ((k1, e1) :: map (entry_of now) done_)) = false) as ->.
      { apply Nat.leb_gt. simpl. rewrite length_map. simpl in Hlen. lia. }
      cbn [_cache _maxSize _accessCount].
      rewrite !map_set_fresh.
      - by rewrite !map_app.
      - simpl. by rewrite keys_counts.
      - simpl. by rewrite keys_entries. }
    rewrite IH.
    + rewrite <- app_assoc. simpl. f_equal. lia.
    + rewrite length_app. simpl in *. lia.
    + by rewrite <- app_assoc.
Qed.

End Scenario.

Lemma evict_scan_ones steps lruKey :
  evict_scan (map count_of steps) (Some 1) lruKey = lruKey.
Proof. induction steps as [|s steps IH]; simpl; done. Qed.

Lemma eviction_scenario_steps first steps :
  eviction_scenario first steps =
  OpSet (fst first) (snd first) :: flat_map (step_ops (fst first)) steps.
Proof. done. Qed.

(** At capacity, with the first key read at least once, the next insert
    evicts the second key and nothing else. *)
Lemma set_at_capacity now maxSize k1 v1 g second mid last :
  2 <= g -> length (second :: mid) + 1 = maxSize ->
  NoDup (k1 :: map key_of (second :: mid ++ [last])) ->
  key_of second <> "" ->
  set now (key_of last) (snd (snd last)) None (filling now maxSize k1 v1 g (second :: mid))
  = filling now maxSize k1 v1 g (mid ++ [last]).
Proof.
  intros Hg Hlen Hnd Hne.
  apply NoDup_cons in Hnd as [Hk1 Hnd]. simpl in Hk1, Hnd.
  apply NoDup_cons in Hnd as [Hk2 Hnd].
  rewrite not_elem_of_cons in Hk1. destruct Hk1 as [Hk12 Hk1].
  rewrite map_app in Hk1, Hk2, Hnd. simpl in Hk1, Hk2, Hnd.
  rewrite elem_of_app in Hk1, Hk2.
  apply NoDup_app in Hnd as (_ & Hdisj & _).
  unfold set. cbn [filling _cache _maxSize _accessCount].
  assert ((maxSize <=? length ((k1, mkEntry v1 now None)
                               :: map (entry_of now) (second :: mid))) = true) as ->.
  { apply Nat.leb_le. simpl in *. rewrite length_map. lia. }
  assert (_evictLRU (filling now maxSize k1 v1 g (second :: mid))
          = filling now maxSize k1 v1 g mid) as Hevict.
  { unfold _evictLRU, filling. cbn [_accessCount map evict_scan count_of].
    assert ((1 <? g) = true) as -> by (apply Nat.ltb_lt; lia).
    rewrite evict_scan_ones.
    assert (str_eqb (key_of second) "" = false) as -> by (by apply str_eqb_neq).
    unfold delete. cbn [_cache _maxSize _accessCount].
    change (map (entry_of now) (second :: mid))
      with ((key_of second, mkEntry (snd (snd second)) now None) :: map (entry_of now) mid).
    change (map count_of (second :: mid))
      with ((key_of second, 1) :: map count_of mid).
    rewrite !(map_delete_cons_ne (key_of second) k1) by done.
    rewrite !map_delete_cons_eq by done.
    rewrite !map_delete_absent; [done| |].
    - rewrite keys_counts. tauto.
    - rewrite keys_entries. tauto. }
  fold (filling now maxSize k1 v1 g (second :: mid)). rewrite Hevict.
  unfold filling. cbn [_cache _maxSize _accessCount].
  assert (key_of last ∉ k1 :: map key_of mid) as Hfresh.
  { rewrite not_elem_of_cons. split.
    - intros Heq. apply Hk1. right. rewrite Heq. by left.
    - intros Hin. apply (Hdisj _ Hin). by left. }
  rewrite !map_set_fresh.
  - by rewrite !map_app.
  - simpl. by rewrite keys_counts.
  - simpl. by rewrite keys_entries.
Qed.

(** C7, amended.  A cache of capacity [maxSize >= 2], empty at first,
    receives [maxSize + 1] distinct keys; between the inserts only the
    first key is read, at least once; the second key is not the empty
    string.  Then the first key is still stored at the end, the second key
    has been evicted, its access count before the last insert was 1 and no
    count was lower, the cache ends with [maxSize] entries and after no
    prefix of the operations holds more. *)
Theorem eviction_keeps_the_accessed_first_key now maxSize first second rest :
  let steps := second :: rest in
  let ops := eviction_scenario first steps in
  let c0 := new_cache (Some maxSize) in
  2 <= maxSize -> length steps = maxSize ->
  NoDup (fst first :: map key_of steps) ->
  key_of second <> "" ->
  1 <= gets_of steps ->
  map_has (fst first) (_cache (run_ops now ops c0)) = true /\
  map_has (key_of second) (_cache (run_ops now ops c0)) = false /\
  map_get (key_of second) (_accessCount (run_ops now (removelast ops) c0)) = Some 1 /\
  (forall k n, map_get k (_accessCount (run_ops now (removelast ops) c0)) = Some n ->
               1 <= n) /\
  size (run_ops now ops c0) = maxSize /\
  (forall n, size (run_ops now (take n ops) c0) <= maxSize).
Proof.
  intros steps ops c0 Hmax Hlen Hnd Hne Hgets.
  destruct first as [k1 v1]. simpl fst in *.
  destruct (exists_last (l:=rest)) as (mid & last & Hrest).
  { intros ->. simpl in Hlen. lia. }
  set (init := second :: mid).
  set (G := 1 + gets_of steps).
  set (A := OpSet k1 v1 :: flat_map (step_ops k1) init ++ repeat (OpGet k1) (fst last)).
  assert (ops = A ++ [OpSet (key_of last) (snd (snd last))]) as Hops.
  { unfold ops, steps, A, init. rewrite eviction_scenario_steps, Hrest. simpl.
    rewrite flat_map_app. simpl. rewrite app_nil_r. unfold step_ops at 3.
    by rewrite <- !app_assoc. }
  assert (length init + 1 = maxSize) as Hinit.
  { unfold steps in Hlen. rewrite Hrest in Hlen. simpl in Hlen.
    rewrite length_app in Hlen. simpl in *. lia. }
  assert (run_ops now [OpSet k1 v1] c0 = filling now maxSize k1 v1 1 []) as Hfirst.
  { unfold run_ops, run_op, set, c0, new_cache, filling. simpl.
    assert ((maxSize <=? 0) = false) as -> by (apply Nat.leb_gt; lia). done. }
  assert (run_ops now A c0 = filling now maxSize k1 v1 G init) as Hbefore.
  { unfold A. change (OpSet k1 v1 :: ?l) with ([OpSet k1 v1] ++ l).
    rewrite !run_ops_app, Hfirst.
    rewrite (run_steps_filling now maxSize k1 v1 init [] 1); simpl app.
    - rewrite run_gets. f_equal. unfold G, steps. rewrite Hrest.
      unfold init. simpl. clear. induction mid as [|m mid IH]; simpl in *; lia.
    - unfold init in *. simpl in *. lia.
    - unfold steps in Hnd. rewrite Hrest in Hnd. simpl in Hnd. unfold init. simpl.
      rewrite map_app in Hnd. simpl in Hnd.
      apply NoDup_cons in Hnd as [Hk1 Hnd]. apply NoDup_cons. split.
      + intros Hin. apply Hk1. rewrite elem_of_cons in Hin. rewrite elem_of_cons.
        destruct Hin as [?|Hin]; [by left|]. right. rewrite elem_of_app. by left.
      + apply NoDup_cons in Hnd as [Hk2 Hnd]. apply NoDup_cons. split.
        * intros Hin. apply Hk2. rewrite elem_of_app. by left.
        * by apply NoDup_app in Hnd as (? & _ & _). }
  assert (run_ops now ops c0 = filling now maxSize k1 v1 G (mid ++ [last])) as Hfinal.
  { rewrite Hops, run_ops_app, Hbefore. unfold run_ops, run_op. cbn [fold_left].
    apply set_at_capacity; [unfold G; lia | done | | done].
    unfold steps in Hnd. by rewrite Hrest in Hnd. }
  assert (removelast ops = A) as Hremove by (rewrite Hops; apply removelast_last).
  rewrite Hfinal, Hremove, Hbefore.
  unfold steps in Hnd. rewrite Hrest in Hnd.
  apply NoDup_cons in Hnd as [Hk1 Hnd]. simpl in Hnd, Hk1.
  apply NoDup_cons in Hnd as [Hk2 Hnd]. rewrite not_elem_of_cons in Hk1.
  destruct Hk1 as [Hk12 Hk1].
  split; [|split; [|split; [|split; [|split]]]].
  - unfold map_has, filling. simpl. by rewrite str_eqb_refl.
  - unfold map_has, filling. cbn [_cache map_get].
    assert (str_eqb k1 (key_of second) = false) as -> by (by apply str_eqb_neq).
    assert (map_get (key_of second) (map (entry_of now) (mid ++ [last])) = None) as ->; [|done].
    apply map_get_None. by rewrite keys_entries.
  - unfold filling, init. cbn [_accessCount map map_get count_of fst].
    assert (str_eqb k1 (key_of second) = false) as -> by (by apply str_eqb_neq).
    by rewrite str_eqb_refl.
  - intros k n. unfold filling. cbn [_accessCount map_get].
    destruct (str_eqb k1 k); [intros [= <-]; unfold G; lia|].
    generalize init. clear. intros l. induction l as [|s l IH]; simpl; [done|].
    destruct (str_eqb (key_of s) k); [intros [= <-]; lia | done].
  - unfold size, filling. simpl. rewrite length_map, length_app. simpl.
    unfold init in Hinit. simpl in Hinit. lia.
  - intros n. destruct (decide (n < length ops)) as [Hlt|Hge].
    + rewrite Hops in Hlt |- *. rewrite length_app in Hlt.
      change (length [OpSet (key_of last) (snd (snd last))]) with 1 in Hlt.
      rewrite take_app_le by lia.
      etransitivity; [apply run_ops_size|].
      etransitivity; [apply Nat.add_le_mono_l, count_sets_take|].
      unfold A. change (OpSet k1 v1 :: ?l) with ([OpSet k1 v1] ++ l).
      rewrite !count_sets_app, count_sets_steps, count_sets_gets.
      change (size c0) with 0. change (count_sets [OpSet k1 v1]) with 1. lia.
    + rewrite take_ge by lia. rewrite Hfinal.
      unfold size, filling. simpl. rewrite length_map, length_app. simpl.
      unfold init in Hinit. simpl in Hinit. lia.
Qed.

Lemma eviction_keeps_the_accessed_first_key_witness :
  let steps := [(1, ("b", VNum 2)); (0, ("c", VNum 3))] in
  let ops := eviction_scenario ("a", VNum 1) steps in
  let c0 := new_cache (Some 2) in
  map_has "a" (_cache (run_ops 0 ops c0)) = true /\
  map_has "b" (_cache (run_ops 0 ops c0)) = false /\
  map_get "b" (_accessCount (run_ops 0 (removelast ops) c0)) = Some 1 /\
  (forall k n, map_get k (_accessCount (run_ops 0 (removelast ops) c0)) = Some n ->
               1 <= n) /\
  size (run_ops 0 ops c0) = 2 /\
  (forall n, size (run_ops 0 (take n ops) c0) <= 2).
Proof.
  apply (eviction_keeps_the_accessed_first_key 0 2 ("a", VNum 1)
           (1, ("b", VNum 2)) [(0, ("c", VNum 3))]).
  - lia.
  - reflexivity.
  - apply (bool_decide_unpack _). reflexivity.
  - discriminate.
  - simpl. lia.
Defined.


(** *** Cache keys *)

(** The claim of C8 fails in both halves.  Second half: the number 1 and
    the boolean [true] are different values of the dependency [a], and
    under every collation the two mappings get the same key.  First half:
    where the collation gives 0 for two different names of the mapping, as
    the host's does for names that differ in a control character, the two
    enumeration orders of one mapping get different keys. *)
Lemma generateKey_is_not_as_claimed :
  (strict_eq (VNum 1) (VBool true) = false /\
   forall localeCompare,
     generateKey localeCompare "a+b" [("a", VNum 1)] =
     generateKey localeCompare "a+b" [("a", VBool true)] /\
     generateKey localeCompare "a+b" [("a", VNum 1)] = Some "171b8#17358") /\
  (hostLikeCompare "a" a_soh = 0%Z /\
   generateKey hostLikeCompare "a+b" [("a", VNum 1); (a_soh, VNum 2)] =
     Some "171b8#-4ce796e4" /\
   generateKey hostLikeCompare "a+b" [(a_soh, VNum 2); ("a", VNum 1)] =
     Some "171b8#-8d447ac").
Proof. repeat split. Qed.

(** Entries with the same name whose values serialise alike. *)
Definition same_piece (x y : string * JsVal) : Prop :=
  fst x = fst y /\ _hashValue (snd x) = _hashValue (snd y).

Lemma mapM_dep_piece l1 l2 :
  Forall2 same_piece l1 l2 ->
  FlowParser.mapM dep_piece l1 = FlowParser.mapM dep_piece l2.
Proof.
  induction 1 as [|x y l1 l2 [Hk Hv] _ IH]; [done|]. simpl.
  unfold dep_piece at 1 3. by rewrite Hk, Hv, IH.
Qed.

Lemma strict_onb_correct localeCompare names :
  strict_onb localeCompare names = true -> strict_on localeCompare names.
Proof.
  unfold strict_onb. rewrite forallb_forall. intros H.
  assert (forall a b, a ∈ names -> b ∈ names ->
            Bool.eqb (0 <? localeCompare a b)%Z (localeCompare b a <? 0)%Z = true /\
            (negb (localeCompare a b =? 0)%Z || str_eqb a b = true) /\
            forall c, c ∈ names ->
              negb ((localeCompare a b <? 0)%Z && (localeCompare b c <? 0)%Z) ||
              (localeCompare a c <? 0)%Z = true) as Hall.
  { intros a b Ha Hb. apply list_elem_of_In in Ha, Hb.
    specialize (H a Ha). rewrite forallb_forall in H. specialize (H b Hb).
    apply andb_true_iff in H as [H Htrans]. apply andb_true_iff in H as [Hanti Heq].
    split; [done|]. split; [done|]. intros c Hc. apply list_elem_of_In in Hc.
    rewrite forallb_forall in Htrans. by apply Htrans. }
  split; [|split].
  - intros a b Ha Hb. destruct (Hall a b Ha Hb) as (Hanti & _ & _).
    apply Bool.eqb_prop in Hanti. rewrite <- Z.ltb_lt, Hanti, Z.ltb_lt. done.
  - intros a b Ha Hb H0. destruct (Hall a b Ha Hb) as (_ & Heq & _).
    rewrite H0 in Heq. simpl in Heq. by apply str_eqb_eq.
  - intros a b c Ha Hb Hc Hab Hbc. destruct (Hall a b Ha Hb) as (_ & _ & Htrans).
    specialize (Htrans c Hc). apply Z.ltb_lt in Hab, Hbc. rewrite Hab, Hbc in Htrans.
    simpl in Htrans. by apply Z.ltb_lt.
Qed.

Section KeyOrder.

Variable localeCompare : string -> string -> Z.

Lemma sort_insert_same_piece x y l1 l2 :
  same_piece x y -> Forall2 same_piece l1 l2 ->
  Forall2 same_piece (sort_insert localeCompare x l1) (sort_insert localeCompare y l2).
Proof using Type.
  intros Hxy H. induction H as [|a b l1 l2 Hab Hl IH]; simpl.
  - constructor; [done | constructor].
  - rewrite (proj1 Hxy), (proj1 Hab).
    destruct (0 <? localeCompare (fst y) (fst b))%Z.
    + constructor; [done | apply IH].
    + constructor; [done|]. by constructor.
Qed.

Lemma sort_entries_same_piece l1 l2 :
  Forall2 same_piece l1 l2 ->
  Forall2 same_piece (sort_entries localeCompare l1) (sort_entries localeCompare l2).
Proof using Type.
  induction 1; simpl; [constructor|]. by apply sort_insert_same_piece.
Qed.

Lemma sort_insert_perm x l : sort_insert localeCompare x l ≡ₚ x :: l.
Proof using Type.
  induction l as [|y l IH]; simpl; [done|].
  destruct (0 <? localeCompare (fst x) (fst y))%Z; [|done].
  rewrite IH. apply perm_swap.
Qed.

Lemma sort_entries_perm l : sort_entries localeCompare l ≡ₚ l.
Proof using Type.
  induction l as [|x l IH]; simpl; [done|]. by rewrite sort_insert_perm, IH.
Qed.

Definition before (x y : string * JsVal) : Prop :=
  (localeCompare (fst x) (fst y) < 0)%Z.

Lemma sort_insert_sorted names x l :
  strict_on localeCompare names ->
  fst x ∈ names -> Forall (fun y => fst y ∈ names) l ->
  fst x ∉ map fst l -> StronglySorted before l ->
  StronglySorted before (sort_insert localeCompare x l).
Proof using Type.
  intros (Hanti & Heq & Htrans) Hxn Hln Hx Hs.
  induction Hs as [|y l Hs IH Hall]; simpl.
  - repeat constructor.
  - simpl in Hx. rewrite not_elem_of_cons in Hx. destruct Hx as [Hne Hx].
    apply Forall_cons in Hln as [Hyn Hln].
    destruct (0 <? localeCompare (fst x) (fst y))%Z eqn:Hc.
    + apply Z.ltb_lt in Hc. constructor; [by apply IH|].
      rewrite sort_insert_perm. constructor; [|done].
      unfold before. by apply Hanti.
    + apply Z.ltb_ge in Hc.
      assert (localeCompare (fst x) (fst y) < 0)%Z as Hlt.
      { destruct (decide (localeCompare (fst x) (fst y) = 0%Z)) as [H0|H0]; [|lia].
        by apply Heq in H0. }
      constructor; [by constructor|]. constructor; [done|].
      rewrite Forall_forall in Hall, Hln. apply Forall_forall. intros z Hz.
      unfold before. apply (Htrans _ (fst y)); [done|done|by apply Hln|done|by apply Hall].
Qed.

Lemma sort_entries_sorted names l :
  strict_on localeCompare names ->
  Forall (fun y => fst y ∈ names) l -> NoDup (map fst l) ->
  StronglySorted before (sort_entries localeCompare l).
Proof using Type.
  intros Hstrict. induction l as [|x l IH]; simpl; [constructor|].
  intros Hln Hnd. apply Forall_cons in Hln as [Hxn Hln].
  apply NoDup_cons in Hnd as [Hx Hnd].
  apply (sort_insert_sorted names); [done|done| | |by apply IH].
  - by rewrite sort_entries_perm.
  - by rewrite sort_entries_perm.
Qed.

Lemma sort_entries_unique l1 l2 :
  strict_on localeCompare (map fst l1) -> NoDup (map fst l1) -> l1 ≡ₚ l2 ->
  sort_entries localeCompare l1 = sort_entries localeCompare l2.
Proof using Type.
  intros Hstrict Hnd Hp.
  assert (Forall (fun y => fst y ∈ map fst l1) l1) as Hin1.
  { apply Forall_forall. intros y Hy. apply list_elem_of_fmap. by exists y. }
  apply (StronglySorted_unique_strong before).
  - unfold before. intros x1 x2 H1 H2 H12 H21.
    rewrite sort_entries_perm in H1. rewrite sort_entries_perm, <- Hp in H2.
    rewrite Forall_forall in Hin1.
    destruct Hstrict as (Hanti & _ & _).
    apply Hanti in H21; [lia|by apply Hin1|by apply Hin1].
  - by apply (sort_entries_sorted (map fst l1)).
  - apply (sort_entries_sorted (map fst l1)); [done| |by rewrite <- Hp].
    by rewrite <- Hp.
  - by rewrite !sort_entries_perm.
Qed.

(** C8, amended.  For every expression and every collation, the key of a
    dependency mapping is the same for every enumeration order of its
    entries, provided the collation orders the names of the mapping
    strictly (it gives 0 for no two different names of the mapping); and
    two mappings with the same names, listed alike, whose values serialise
    alike under [_hashValue] get the same key, whether or not the values
    are equal. *)
Theorem generateKey_deterministic expression deps1 deps2 :
  NoDup (map fst deps1) -> strict_on localeCompare (map fst deps1) ->
  deps1 ≡ₚ deps2 ->
  generateKey localeCompare expression deps1 =
  generateKey localeCompare expression deps2 /\
  (forall deps deps',
     Forall2 same_piece deps deps' ->
     generateKey localeCompare expression deps =
     generateKey localeCompare expression deps').
Proof using Type.
  intros Hnd Hstrict Hp. split.
  - unfold generateKey. by rewrite (sort_entries_unique deps1 deps2).
  - intros deps deps' H. unfold generateKey.
    by rewrite (mapM_dep_piece _ _ (sort_entries_same_piece _ _ H)).
Qed.

End KeyOrder.

(** Three names the collation tells apart, ["B"] among them, in two
    enumeration orders. *)
Lemma generateKey_deterministic_witness :
  generateKey hostLikeCompare "a+b" [("b", VNum 1); ("B", VBool true); ("a", VStr "x")] =
  generateKey hostLikeCompare "a+b" [("a", VStr "x"); ("b", VNum 1); ("B", VBool true)] /\
  (forall deps deps',
     Forall2 same_piece deps deps' ->
     generateKey hostLikeCompare "a+b" deps = generateKey hostLikeCompare "a+b" deps').
Proof.
  apply (generateKey_deterministic hostLikeCompare "a+b"
           [("b", VNum 1); ("B", VBool true); ("a", VStr "x")]
           [("a", VStr "x"); ("b", VNum 1); ("B", VBool true)]).
  - apply (bool_decide_unpack _). vm_compute. reflexivity.
  - apply strict_onb_correct. vm_compute. reflexivity.
  - symmetry. apply (Permutation_cons_append [("b", VNum 1); ("B", VBool true)]).
Defined.

(** The sorted order of those names: [a], [b], [B]. *)
Example generateKey_two_orders :
  map fst (sort_entries hostLikeCompare
             [("b", VNum 1); ("B", VBool true); ("a", VStr "x")]) = ["a"; "b"; "B"] /\
  map fst (sort_entries hostLikeCompare
             [("B", VBool true); ("a", VStr "x"); ("b", VNum 1)]) = ["a"; "b"; "B"].
Proof. split; reflexivity. Qed.

End CacheManagerProofs.


(** ** The engine facade *)

Module FlowEngineProofs.
Import JS FlowEngine.
Import CacheManagerProofs.

(** *** Propagation never writes a value *)

Definition values_kept (w w' : FlowVariable.World) : Prop :=
  length (FlowVariable.heap w') = length (FlowVariable.heap w) /\
  forall b, FlowVariable._value <$> (FlowVariable.heap w' !! b) =
            FlowVariable._value <$> (FlowVariable.heap w !! b).

Lemma values_kept_refl w : values_kept w w.
Proof. done. Qed.

Lemma values_kept_trans w1 w2 w3 :
  values_kept w1 w2 -> values_kept w2 w3 -> values_kept w1 w3.
Proof.
  intros [Hl1 Hv1] [Hl2 Hv2]. split; [congruence|].
  intros b. by rewrite Hv2, Hv1.
Qed.

Lemma forEachM_values {A : Type} (g : A -> FlowVariable.World -> option FlowVariable.World)
  l s s' :
  (forall x t t', g x t = Some t' -> values_kept t t') ->
  forEachM g l s = Some s' -> values_kept s s'.
Proof.
  intros Hg. revert s. induction l as [|x l IH]; intros s; simpl.
  - intros [= <-]. apply values_kept_refl.
  - destruct (g x s) as [t|] eqn:Hx; [|done].
    intros Hrest. eapply values_kept_trans; [by eapply Hg | by apply IH].
Qed.

Lemma markDirty_values fuel a w w' :
  FlowVariable.markDirty fuel a w = Some w' -> values_kept w w'.
Proof.
  revert a w w'. induction fuel as [|fuel IH]; intros a w w'; [done|]. simpl.
  destruct (FlowVariable.heap w !! a) as [v|] eqn:Hv; [|done].
  destruct (FlowVariable._dirty v); [intros [= <-]; apply values_kept_refl|].
  unfold FlowVariable.notifyDependentsWith. simpl.
  rewrite list_lookup_insert_eq by (by eapply lookup_lt_Some).
  intros Hrun. eapply values_kept_trans; [|eapply forEachM_values; [|exact Hrun]].
  - split; simpl; [by rewrite length_insert|].
    intros b. destruct (decide (b = a)) as [->|Hne].
    + rewrite list_lookup_insert_eq by (by eapply lookup_lt_Some). by rewrite Hv.
    + by rewrite list_lookup_insert_ne.
  - intros x t t'. apply IH.
Qed.

(** [set] writes the value of its own variable only. *)
Lemma set_values fuel now a v w w' :
  FlowVariable.set fuel now a v w = Some w' ->
  length (FlowVariable.heap w') = length (FlowVariable.heap w) /\
  forall b, b <> a ->
    FlowVariable._value <$> (FlowVariable.heap w' !! b) =
    FlowVariable._value <$> (FlowVariable.heap w !! b).
Proof.
  unfold FlowVariable.set.
  destruct (FlowVariable.heap w !! a) as [x|] eqn:Hx; [|done].
  destruct (strict_eq _ _); [by intros [= <-]|].
  unfold FlowVariable._notifyDependents, FlowVariable.notifyDependentsWith,
    FlowVariable._notifyListeners. simpl.
  rewrite list_lookup_insert_eq by (by eapply lookup_lt_Some). simpl.
  rewrite list_lookup_insert_eq by (by eapply lookup_lt_Some).
  intros Hrun.
  apply forEachM_values in Hrun as [Hlen Hval];
    [|intros ???; apply markDirty_values].
  simpl in Hlen, Hval. rewrite length_insert in Hlen. split; [done|].
  intros b Hne. by rewrite Hval, list_lookup_insert_ne.
Qed.

Lemma map_get_set_ne {V : Type} k k' (v : V) m :
  k' <> k -> CacheManager.map_get k' (CacheManager.map_set k v m) = CacheManager.map_get k' m.
Proof.
  intros Hne. induction m as [|[k0 v0] m IH]; simpl.
  - by assert (str_eqb k k' = false) as -> by (apply str_eqb_neq; congruence).
  - destruct (str_eqb k0 k) eqn:E; simpl.
    + apply str_eqb_eq in E. subst k0.
      by assert (str_eqb k k' = false) as -> by (apply str_eqb_neq; congruence).
    + by rewrite IH.
Qed.


(** *** What the engine's operations keep of a registered variable *)

Lemma value_of_fmap E a :
  value_of E a = FlowVariable._value <$> (FlowVariable.heap (world E) !! a).
Proof. unfold value_of. by destruct (_ !! a). Qed.

Lemma performance_now_keeps E :
  _variables (snd (performance_now E)) = _variables E /\
  world (snd (performance_now E)) = world E.
Proof. done. Qed.

Lemma new_FlowVariable_spec name initialValue E :
  let a := length (FlowVariable.heap (world E)) in
  let E1 := snd (new_FlowVariable name initialValue E) in
  fst (new_FlowVariable name initialValue E) = a /\
  _variables E1 = _variables E /\
  length (FlowVariable.heap (world E1)) = S a /\
  ExecutionEngine._taskQueue (_executionEngine E1) =
    ExecutionEngine._taskQueue (_executionEngine E) /\
  (forall b, b < a -> value_of E1 b = value_of E b) /\
  (strict_eq initialValue VUndefined = true ->
     value_of E1 a = Some VUndefined /\ _executionEngine E1 = _executionEngine E).
Proof.
  intros a E1. unfold E1, new_FlowVariable. fold a.
  set (w0 := FlowVariable.mkWorld _ _).
  assert (forall b, b < a ->
            FlowVariable._value <$> (FlowVariable.heap w0 !! b) =
            FlowVariable._value <$> (FlowVariable.heap (world E) !! b)) as Hold.
  { intros b Hb. unfold w0. simpl. by rewrite lookup_app_l. }
  assert (length (FlowVariable.heap w0) = S a) as Hlen0.
  { unfold w0. simpl. rewrite length_app. simpl. unfold a. lia. }
  destruct (strict_eq initialValue VUndefined) eqn:Hundef.
  { simpl. split; [done|]. split; [done|]. split; [done|]. split; [done|]. split.
    - intros b Hb. rewrite !value_of_fmap. by apply Hold.
    - intros _. split; [|done]. rewrite value_of_fmap. simpl. unfold a.
      rewrite lookup_app_r by lia. by rewrite Nat.sub_diag. }
  cbn [performance_now with_exec with_world world _executionEngine
       ExecutionEngine.performance_now].
  destruct (FlowVariable.set 1 _ a initialValue w0) as [w1|] eqn:Hset; simpl.
  - apply set_values in Hset as [Hlen1 Hval].
    split; [done|]. split; [done|]. split; [congruence|]. split; [done|]. split; [|done].
    intros b Hb. rewrite !value_of_fmap. simpl. rewrite Hval by lia. by apply Hold.
  - split; [done|]. split; [done|]. split; [done|]. split; [done|]. split; [|done].
    intros b Hb. rewrite !value_of_fmap. by apply Hold.
Qed.

(** The facts about a registered name [nm], bound to the object [r], that
    every step of the engine preserves. *)
Definition registered (nm : string) (r : nat) (E : FlowEngine) : Prop :=
  names_wf E /\ CacheManager.map_get nm (_variables E) = Some r.

Lemma variable_spec nm r name initialValue E :
  registered nm r E ->
  let a := fst (variable name initialValue E) in
  let E1 := snd (variable name initialValue E) in
  registered nm r E1 /\
  value_of E1 r = value_of E r /\
  CacheManager.map_get name (_variables E1) = Some a /\
  ExecutionEngine._taskQueue (_executionEngine E1) =
    ExecutionEngine._taskQueue (_executionEngine E).
Proof.
  intros [Hwf Hr] a E1. unfold a, E1, variable.
  destruct (CacheManager.map_get name (_variables E)) as [a0|] eqn:Hname; [done|].
  destruct (new_FlowVariable name initialValue E) as [a1 E'] eqn:Hnew.
  pose proof (new_FlowVariable_spec name initialValue E) as Hspec.
  rewrite Hnew in Hspec. simpl in Hspec.
  destruct Hspec as (-> & Hvars & Hlen & Hqueue & Hold & _).
  assert (name <> nm) as Hne by congruence.
  assert (r < length (FlowVariable.heap (world E))) as Hrlt by (by apply (Hwf nm)).
  simpl. split; [split|split; [|split]].
  - intros n b. simpl. rewrite Hvars, Hlen.
    destruct (decide (n = name)) as [->|Hn].
    + rewrite map_get_set_eq. intros [= <-]. split; [lia|].
      intros n' Hn'. destruct (decide (n' = name)) as [|Hn'']; [done|].
      rewrite map_get_set_ne in Hn' by done.
      apply Hwf in Hn' as [Hlt _]. lia.
    + rewrite map_get_set_ne by done. intros Hb.
      destruct (Hwf _ _ Hb) as [Hlt Huniq]. split; [lia|].
      intros n' Hn'. destruct (decide (n' = name)) as [->|Hn''].
      * rewrite map_get_set_eq in Hn'. injection Hn' as <-. lia.
      * rewrite map_get_set_ne in Hn' by done. by apply Huniq.
  - simpl. rewrite Hvars. by rewrite map_get_set_ne.
  - rewrite <- (Hold r Hrlt). by rewrite !value_of_fmap.
  - by rewrite map_get_set_eq.
  - done.
Qed.

Lemma set_variable_keeps nm r name v fuel E E' :
  registered nm r E -> nm <> name ->
  set_variable fuel name v E = Some E' ->
  registered nm r E' /\ value_of E' r = value_of E r.
Proof.
  intros Hreg Hne. unfold set_variable.
  pose proof (variable_spec nm r name VUndefined E Hreg) as Hspec.
  destruct (variable name VUndefined E) as [a E1]. simpl in Hspec.
  destruct Hspec as ([Hwf1 Hr1] & Hval1 & Ha & _).
  assert (a <> r) as Har.
  { intros ->. destruct (Hwf1 _ _ Hr1) as [_ Huniq]. apply Hne. symmetry. by apply Huniq. }
  match goal with |- context [if ?c then _ else _] => destruct c end;
    cbn [performance_now with_exec world ExecutionEngine.performance_now];
    (destruct (FlowVariable.set fuel _ a v (world E1)) as [w|] eqn:Hset; [|done]);
    intros [= <-]; apply set_values in Hset as [Hlen Hval];
    (split; [split|]).
  all: try done.
  all: try (intros n b Hb; simpl in *; rewrite Hlen; by apply Hwf1).
  all: rewrite <- Hval1, !value_of_fmap; simpl; by rewrite Hval.
Qed.

Lemma updateContext_keeps nm r fuel E E' :
  registered nm r E -> nm <> "time" -> nm <> "frameCount" ->
  _updateContext fuel E = Some E' ->
  registered nm r E' /\ value_of E' r = value_of E r.
Proof.
  intros Hreg Ht Hf. unfold _updateContext.
  cbn [performance_now with_exec ExecutionEngine.performance_now].
  set (E2 := mkFlowEngine _ _ _ _ _ _ _ _).
  assert (registered nm r E2) as Hreg2 by done.
  destruct (set_variable fuel "time" _ E2) as [E3|] eqn:H3; [|done].
  destruct (set_variable_keeps _ _ _ _ _ _ _ Hreg2 Ht H3) as [Hreg3 Hval3].
  intros H4.
  destruct (set_variable_keeps _ _ _ _ _ _ _ Hreg3 Hf H4) as [Hreg4 Hval4].
  split; [done|]. by rewrite Hval4, Hval3.
Qed.

Lemma tick_keeps nm r fuel E E' :
  registered nm r E -> nm <> "time" -> nm <> "frameCount" ->
  _tick fuel E = Some E' ->
  registered nm r E' /\ value_of E' r = value_of E r.
Proof.
  intros Hreg Ht Hf. unfold _tick.
  destruct (_isRunning E); [|by intros [= <-]].
  cbn [performance_now ExecutionEngine.performance_now].
  set (E1 := with_exec E _).
  assert (registered nm r E1) as Hreg1 by done.
  destruct (_updateContext fuel E1) as [E2|] eqn:H2; [|done].
  destruct (updateContext_keeps _ _ _ _ _ Hreg1 Ht Hf H2) as [Hreg2 Hval2].
  destruct (ExecutionEngine.executeFrame _ _ _) as [x|]; [|done].
  intros [= <-]. split; [done | exact Hval2].
Qed.

Lemma ticks_keeps nm r fuel n E E' :
  registered nm r E -> nm <> "time" -> nm <> "frameCount" ->
  ticks fuel n E = Some E' ->
  registered nm r E' /\ value_of E' r = value_of E r.
Proof.
  intros Hreg Ht Hf. revert E Hreg. induction n as [|n IH]; intros E Hreg; simpl.
  - by intros [= <-].
  - destruct (_tick fuel E) as [E1|] eqn:H1; [|done].
    destruct (tick_keeps _ _ _ _ _ Hreg Ht Hf H1) as [Hreg1 Hval1].
    intros Hn. destruct (IH _ Hreg1 Hn) as [Hreg' Hval'].
    split; [done|]. by rewrite Hval', Hval1.
Qed.

Lemma result_name_not_builtin s :
  "_result_" +:+ s <> "time" /\ "_result_" +:+ s <> "frameCount".
Proof. split; discriminate. Qed.

(** A running engine whose clock advances 0.125ms per reading, after
    [flow("2 + 3")] at [Date.now() = 1700]. *)
Definition demo_engine : FlowEngine :=
  new_FlowEngine (fun k => inject_Z (Z.of_nat k) / 8)%Q 800 600.

(** The claim of C1 fails in its last part: the frame that runs the task
    logs the result 5 and empties the queue, and the returned variable is
    still [undefined], as it is three frames later. *)
Lemma result_variable_is_not_filled :
  exists E2 E3,
    start 20 (snd (flow 1700 1700 "2 + 3" demo_engine)) = Some E2 /\
    ExecutionEngine.console (_executionEngine E2) =
      [ExecutionEngine.LogCompleted "flow_1700" (ExecutionEngine.RNum 5)] /\
    ExecutionEngine._taskQueue (_executionEngine E2) = [] /\
    value_of E2 (fst (flow 1700 1700 "2 + 3" demo_engine)) = Some VUndefined /\
    ticks 20 3 E2 = Some E3 /\
    value_of E3 (fst (flow 1700 1700 "2 + 3" demo_engine)) = Some VUndefined.
Proof.
  eexists _, _. split; [vm_compute; reflexivity|].
  split; [reflexivity|]. split; [reflexivity|]. split; [reflexivity|].
  split; [vm_compute; reflexivity|]. reflexivity.
Qed.

(** C1, amended.  [flow] parses the expression, registers (or finds) the
    variable named [_result_<now>], puts a task of priority 1 holding the
    parsed expression in the queue at its priority position, and returns
    that variable at once; a variable created by the call holds
    [undefined].  No later frame writes the variable: after any number of
    frames its value is the one it had when [flow] returned. *)
Theorem flow_schedules_and_returns now1 now2 expression E :
  names_wf E ->
  let r := fst (flow now1 now2 expression E) in
  let E1 := snd (flow now1 now2 expression E) in
  let name := "_result_" +:+ Z_to_string 10 now1 in
  let task := ExecutionEngine.mkTask ("flow_" +:+ Z_to_string 10 now2)
                                     (FlowParser.parse expression) 1 None in
  CacheManager.map_get name (_variables E1) = Some r /\
  ExecutionEngine._taskQueue (_executionEngine E1) =
    ExecutionEngine.insert_by_priority
      (ExecutionEngineProofs.prepared task)
      (ExecutionEngine._taskQueue (_executionEngine E)) /\
  (CacheManager.map_get name (_variables E) = None -> value_of E1 r = Some VUndefined) /\
  (forall fuel n E', ticks fuel n E1 = Some E' -> value_of E' r = value_of E1 r).
Proof.
  intros Hwf r E1 name task. unfold r, E1, flow. fold name. fold task.
  destruct (variable name VUndefined E) as [a Ev] eqn:Hvar. simpl.
  assert (names_wf Ev /\ CacheManager.map_get name (_variables Ev) = Some a /\
          ExecutionEngine._taskQueue (_executionEngine Ev) =
            ExecutionEngine._taskQueue (_executionEngine E) /\
          (CacheManager.map_get name (_variables E) = None ->
           value_of Ev a = Some VUndefined)) as (Hwfv & Ha & Hq & Hfresh).
  { unfold variable in Hvar.
    destruct (CacheManager.map_get name (_variables E)) as [a0|] eqn:Hname.
    - injection Hvar as <- <-. done.
    - pose proof (new_FlowVariable_spec name VUndefined E) as Hspec.
      destruct (new_FlowVariable name VUndefined E) as [a1 E'] eqn:Hnew.
      simpl in Hspec. destruct Hspec as (-> & Hvars & Hlen & Hqueue & Hold & Hundef).
      injection Hvar as <- <-. simpl. rewrite Hvars, map_get_set_eq.
      destruct (Hundef eq_refl) as [Hval _].
      split; [|split; [done|split; [done|]]].
      + intros n b. simpl. rewrite ?Hvars, Hlen.
        destruct (decide (n = name)) as [->|Hn].
        * rewrite map_get_set_eq. intros [= <-]. split; [lia|].
          intros n' Hn'. destruct (decide (n' = name)) as [|Hn'']; [done|].
          rewrite map_get_set_ne in Hn' by done.
          apply Hwf in Hn' as [Hlt _]. lia.
        * rewrite map_get_set_ne by done. intros Hb.
          destruct (Hwf _ _ Hb) as [Hlt Huniq]. split; [lia|].
          intros n' Hn'. destruct (decide (n' = name)) as [->|Hn''].
          -- rewrite map_get_set_eq in Hn'. injection Hn' as <-. lia.
          -- rewrite map_get_set_ne in Hn' by done. by apply Huniq.
      + intros _. by rewrite value_of_fmap in Hval |- *. }
  split; [done|]. split; [by rewrite <- Hq|]. split; [done|].
  intros fuel n E' Hticks.
  destruct (result_name_not_builtin (Z_to_string 10 now1)) as [Ht Hf].
  assert (registered name a
            (with_exec Ev (ExecutionEngine.schedule task (_executionEngine Ev)))) as Hreg
    by (by split).
  by destruct (ticks_keeps name a fuel n _ E' Hreg Ht Hf Hticks) as [_ ->].
Qed.

(** Executable check of [names_wf]. *)
Definition names_wfb (E : FlowEngine) : bool :=
  forallb (fun na =>
             (snd na <? length (FlowVariable.heap (world E))) &&
             forallb (fun na' => if snd na' =? snd na then str_eqb (fst na') (fst na) else true)
                     (_variables E))
          (_variables E).

Lemma map_get_In {V : Type} k (v : V) m :
  CacheManager.map_get k m = Some v -> In (k, v) m.
Proof.
  induction m as [|[k' v'] m IH]; simpl; [done|].
  destruct (str_eqb k' k) eqn:E.
  - apply str_eqb_eq in E. intros [= ->]. left. by subst.
  - intros H. right. by apply IH.
Qed.

Lemma names_wfb_correct E : names_wfb E = true -> names_wf E.
Proof.
  unfold names_wfb. rewrite forallb_forall. intros H n a Hn.
  apply map_get_In in Hn. apply H in Hn. simpl in Hn.
  apply andb_true_iff in Hn as [Hlt Hall]. apply Nat.ltb_lt in Hlt.
  split; [done|]. intros n' Hn'. apply map_get_In in Hn'.
  rewrite forallb_forall in Hall. apply Hall in Hn'. simpl in Hn'.
  rewrite Nat.eqb_refl in Hn'. by apply str_eqb_eq.
Qed.

Lemma demo_engine_wf : names_wf demo_engine.
Proof. apply names_wfb_correct. vm_compute. reflexivity. Qed.

Lemma flow_schedules_and_returns_witness :
  let r := fst (flow 1700 1700 "2 + 3" demo_engine) in
  let E1 := snd (flow 1700 1700 "2 + 3" demo_engine) in
  let name := "_result_" +:+ Z_to_string 10 1700 in
  let task := ExecutionEngine.mkTask ("flow_" +:+ Z_to_string 10 1700)
                                     (FlowParser.parse "2 + 3") 1 None in
  CacheManager.map_get name (_variables E1) = Some r /\
  ExecutionEngine._taskQueue (_executionEngine E1) =
    ExecutionEngine.insert_by_priority
      (ExecutionEngineProofs.prepared task)
      (ExecutionEngine._taskQueue (_executionEngine demo_engine)) /\
  (CacheManager.map_get name (_variables demo_engine) = None ->
   value_of E1 r = Some VUndefined) /\
  (forall fuel n E', ticks fuel n E1 = Some E' -> value_of E' r = value_of E1 r).
Proof.
  apply (flow_schedules_and_returns 1700 1700 "2 + 3" demo_engine).
  apply demo_engine_wf.
Defined.

End FlowEngineProofs.


(** * Further properties *)

(** ** FlowVariable: subscriptions, dependency edges, disposal *)

Module FlowVariableExtra.
Import JS FlowVariable FlowVariableProofs.

Lemma elem_of_set_add {A : Type} `{EqDecision A} (x y : A) s :
  y ∈ set_add x s <-> y = x \/ y ∈ s.
Proof.
  unfold set_add. destruct (decide (x ∈ s)) as [Hin|Hnin].
  - split; [by right|]. intros [->|?]; done.
  - rewrite elem_of_app, list_elem_of_singleton. tauto.
Qed.

Lemma elem_of_set_delete {A : Type} `{EqDecision A} (x y : A) s :
  y ∈ set_delete x s <-> y <> x /\ y ∈ s.
Proof.
  unfold set_delete. rewrite list_elem_of_In, filter_In, <- list_elem_of_In.
  destruct (decide (y = x)); split; intros [? ?]; done.
Qed.

Lemma set_delete_absent {A : Type} `{EqDecision A} (x : A) s :
  x ∉ s -> set_delete x s = s.
Proof.
  unfold set_delete. induction s as [|y s IH]; [done|]. simpl.
  rewrite not_elem_of_cons. intros [Hne Hnin].
  destruct (decide (y = x)); [congruence|]. by rewrite IH.
Qed.

Lemma set_delete_add {A : Type} `{EqDecision A} (x : A) s :
  x ∉ s -> set_delete x (set_add x s) = s.
Proof.
  intros Hnin. unfold set_add. destruct (decide (x ∈ s)); [done|].
  unfold set_delete. rewrite List.filter_app. simpl.
  destruct (decide (x = x)); [|done].
  rewrite app_nil_r. by apply set_delete_absent.
Qed.

Lemma set_add_idem {A : Type} `{EqDecision A} (x : A) s :
  set_add x (set_add x s) = set_add x s.
Proof.
  unfold set_add at 1. destruct (decide (x ∈ set_add x s)) as [|Hn]; [done|].
  exfalso. apply Hn, elem_of_set_add. by left.
Qed.

Lemma with_listeners_id v : with_listeners v (_listeners v) = v.
Proof. by destruct v. Qed.

(** Propagation only appends flag raises to the log. *)
Lemma forEachM_log_dirty {A : Type} (g : A -> World -> option World) l s s' :
  (forall x t t', g x t = Some t' -> exists ms, log t' = log t ++ map EvDirty ms) ->
  forEachM g l s = Some s' -> exists ms, log s' = log s ++ map EvDirty ms.
Proof.
  intros Hg. revert s. induction l as [|x l IH]; intros s; simpl.
  - intros [= <-]. exists []. by rewrite app_nil_r.
  - destruct (g x s) as [t|] eqn:Hx; [|done]. intros Hrest.
    destruct (Hg _ _ _ Hx) as [ms1 H1]. destruct (IH _ Hrest) as [ms2 H2].
    exists (ms1 ++ ms2). by rewrite H2, H1, map_app, app_assoc.
Qed.

Lemma markDirty_log_dirty fuel a w w' :
  markDirty fuel a w = Some w' -> exists ms, log w' = log w ++ map EvDirty ms.
Proof.
  revert a w w'. induction fuel as [|fuel IH]; intros a w w'; [done|]. simpl.
  destruct (heap w !! a) as [v|] eqn:Hv; [|done].
  destruct (_dirty v).
  { intros [= <-]. exists []. by rewrite app_nil_r. }
  unfold notifyDependentsWith. simpl.
  rewrite list_lookup_insert_eq by (by eapply lookup_lt_Some).
  intros Hrun. apply forEachM_log_dirty in Hrun as [ms Hms]; [|intros ???; apply IH].
  simpl in Hms. exists (a :: ms). by rewrite Hms, <- app_assoc.
Qed.




(** What [addDependency] and [removeDependency] do to the object at [c]:
    [fd] acts on the dependency names of [a], [ft] on the dependents of
    [b]; everything else stays. *)
Definition edge_update (fd : list string -> list string) (ft : list nat -> list nat)
  (a b c : nat) (vc : FlowVariable) : FlowVariable :=
  mkVar (name vc) (_value vc)
        (if decide (c = a) then fd (_dependencies vc) else _dependencies vc)
        (if decide (c = b) then ft (_dependents vc) else _dependents vc)
        (_lastComputed vc) (_dirty vc) (_listeners vc).

Lemma edge_update_lookup fd ft (h : list FlowVariable) a b va vb c vc :
  h !! a = Some va -> h !! b = Some vb -> h !! c = Some vc ->
  let h1 := <[a := with_dependencies va (fd (_dependencies va))]> h in
  match h1 !! b with
  | Some vb' => (<[b := with_dependents vb' (ft (_dependents vb'))]> h1) !! c
  | None => None
  end = Some (edge_update fd ft a b c vc).
Proof.
  intros Ha Hb Hc h1.
  assert (a < length h) as Hla by (by eapply lookup_lt_Some).
  assert (b < length h) as Hlb by (by eapply lookup_lt_Some).
  unfold edge_update, h1.
  destruct (decide (a = b)) as [<-|Hab].
  - rewrite list_lookup_insert_eq by done.
    rewrite list_insert_insert_eq.
    destruct (decide (c = a)) as [->|Hca].
    + rewrite list_lookup_insert_eq by done. simpl.
      rewrite Ha in Hc. by injection Hc as <-.
    + rewrite list_lookup_insert_ne by done. rewrite Hc. by destruct vc.
  - rewrite list_lookup_insert_ne by done. rewrite Hb.
    destruct (decide (c = b)) as [->|Hcb].
    + rewrite list_lookup_insert_eq by (by rewrite length_insert).
      rewrite Hb in Hc. injection Hc as <-.
      destruct (decide (b = a)); [congruence|]. done.
    + rewrite list_lookup_insert_ne by done.
      destruct (decide (c = a)) as [->|Hca].
      * rewrite list_lookup_insert_eq by done.
        rewrite Ha in Hc. by injection Hc as <-.
      * rewrite list_lookup_insert_ne by done. rewrite Hc. by destruct vc.
Qed.

Lemma addDependency_lookup w a b va vb c vc :
  heap w !! a = Some va -> heap w !! b = Some vb -> heap w !! c = Some vc ->
  heap (addDependency a b w) !! c =
  Some (edge_update (set_add (name vb)) (set_add a) a b c vc).
Proof.
  intros Ha Hb Hc.
  pose proof (edge_update_lookup (set_add (name vb)) (set_add a) _ _ _ _ _ _ _ Ha Hb Hc) as H.
  unfold addDependency. rewrite Ha, Hb. simpl in H |- *.
  destruct (<[a:=with_dependencies va (set_add (name vb) (_dependencies va))]> (heap w) !! b)
    as [vb'|]; [exact H | done].
Qed.

Lemma removeDependency_lookup w a b va vb c vc :
  heap w !! a = Some va -> heap w !! b = Some vb -> heap w !! c = Some vc ->
  heap (removeDependency a b w) !! c =
  Some (edge_update (set_delete (name vb)) (set_delete a) a b c vc).
Proof.
  intros Ha Hb Hc.
  pose proof (edge_update_lookup (set_delete (name vb)) (set_delete a) _ _ _ _ _ _ _ Ha Hb Hc) as H.
  unfold removeDependency. rewrite Ha, Hb. simpl in H |- *.
  destruct (<[a:=with_dependencies va (set_delete (name vb) (_dependencies va))]> (heap w) !! b)
    as [vb'|]; [exact H | done].
Qed.

Lemma addDependency_length w a b :
  length (heap (addDependency a b w)) = length (heap w) /\
  log (addDependency a b w) = log w.
Proof.
  unfold addDependency. destruct (heap w !! a); [|done]. destruct (heap w !! b); [|done].
  simpl. destruct (_ !! b); [|done]. simpl. by rewrite !length_insert.
Qed.

Lemma removeDependency_length w a b :
  length (heap (removeDependency a b w)) = length (heap w) /\
  log (removeDependency a b w) = log w.
Proof.
  unfold removeDependency. destruct (heap w !! a); [|done]. destruct (heap w !! b); [|done].
  simpl. destruct (_ !! b); [|done]. simpl. by rewrite !length_insert.
Qed.

Lemma world_eq w w' :
  length (heap w') = length (heap w) -> log w' = log w ->
  (forall c vc, heap w !! c = Some vc -> heap w' !! c = Some vc) -> w' = w.
Proof.
  destruct w as [h l], w' as [h' l']. simpl. intros Hlen -> Hlk. f_equal.
  apply list_eq. intros c. destruct (h !! c) as [vc|] eqn:Hc.
  - by apply Hlk.
  - apply lookup_ge_None. rewrite Hlen. by apply lookup_ge_None.
Qed.

(** X2.  [a.addDependency(b)] records the name of [b] among the
    dependencies of [a] and [a] among the dependents of [b], so that a
    later change of [b] reaches [a]; calling it again changes nothing;
    and [a.removeDependency(b)] afterwards restores the world, when the
    edge was not there before. *)
Theorem addDependency_removeDependency w a b va vb :
  heap w !! a = Some va -> heap w !! b = Some vb ->
  edge (heap (addDependency a b w)) b a /\
  (exists va', heap (addDependency a b w) !! a = Some va' /\
               name vb ∈ _dependencies va') /\
  addDependency a b (addDependency a b w) = addDependency a b w /\
  (name vb ∉ _dependencies va -> a ∉ _dependents vb ->
   removeDependency a b (addDependency a b w) = w).
Proof.
  intros Ha Hb.
  pose proof (addDependency_lookup w a b va vb a va Ha Hb Ha) as Ha1.
  pose proof (addDependency_lookup w a b va vb b vb Ha Hb Hb) as Hb1.
  destruct (addDependency_length w a b) as [Hlen Hlog].
  split; [|split; [|split]].
  - eexists. split; [exact Hb1|]. simpl.
    destruct (decide (b = b)); [|done]. apply elem_of_set_add. by left.
  - eexists. split; [exact Ha1|]. simpl.
    destruct (decide (a = a)); [|done]. apply elem_of_set_add. by left.
  - apply world_eq.
    + by destruct (addDependency_length (addDependency a b w) a b) as [-> _].
    + by destruct (addDependency_length (addDependency a b w) a b) as [_ ->].
    + intros c vc Hc.
      assert (is_Some (heap w !! c)) as [vc0 Hc0].
      { apply lookup_lt_is_Some. rewrite <- Hlen. by eapply lookup_lt_Some. }
      rewrite (addDependency_lookup _ a b _ _ c vc Ha1 Hb1 Hc).
      rewrite (addDependency_lookup w a b va vb c vc0 Ha Hb Hc0) in Hc.
      injection Hc as <-. unfold edge_update. simpl. f_equal.
      destruct (decide (b = b)); [|done].
      destruct (decide (c = a)), (decide (c = b)); by rewrite ?set_add_idem.
  - intros Hna Hnb. apply world_eq.
    + destruct (removeDependency_length (addDependency a b w) a b) as [-> _]. done.
    + destruct (removeDependency_length (addDependency a b w) a b) as [_ ->]. done.
    + intros c vc Hc.
      pose proof (addDependency_lookup w a b va vb c vc Ha Hb Hc) as Hc1.
      rewrite (removeDependency_lookup _ a b _ _ c _ Ha1 Hb1 Hc1).
      unfold edge_update. simpl. destruct (decide (b = b)); [|done].
      destruct vc as [n x ds ts lc d ls]. simpl. f_equal. f_equal.
      * destruct (decide (c = a)) as [->|]; [|done].
        rewrite Ha in Hc. injection Hc as ->. simpl in Hna. by apply set_delete_add.
      * destruct (decide (c = b)) as [->|]; [|done].
        rewrite Hb in Hc. injection Hc as ->. simpl in Hnb. by apply set_delete_add.
Qed.

(** Two variables without any edge. *)
Definition loose_world : World :=
  mkWorld [mkVar "a" (VNum 1) [] [] 0 false [];
           mkVar "b" (VNum 2) [] [] 0 false []] [].

Lemma addDependency_removeDependency_witness :
  edge (heap (addDependency 0 1 loose_world)) 1 0 /\
  (exists va', heap (addDependency 0 1 loose_world) !! 0 = Some va' /\
               "b" ∈ _dependencies va') /\
  addDependency 0 1 (addDependency 0 1 loose_world) = addDependency 0 1 loose_world /\
  ("b" ∉ [] -> 0 ∉ [] ->
   removeDependency 0 1 (addDependency 0 1 loose_world) = loose_world).
Proof.
  apply (addDependency_removeDependency loose_world 0 1
           (mkVar "a" (VNum 1) [] [] 0 false [])
           (mkVar "b" (VNum 2) [] [] 0 false [])); reflexivity.
Defined.


Lemma mutual_edge_update (add : bool) fd ft (h h' : list FlowVariable) a b va vb :
  h !! a = Some va -> h !! b = Some vb -> length h' = length h ->
  (forall c vc, h !! c = Some vc -> h' !! c = Some (edge_update fd ft a b c vc)) ->
  (forall x s, x ∈ fd s <->
     if add then x = name vb \/ x ∈ s else x <> name vb /\ x ∈ s) ->
  (forall x s, x ∈ ft s <-> if add then x = a \/ x ∈ s else x <> a /\ x ∈ s) ->
  mutual h -> distinct_names h -> mutual h' /\ distinct_names h'.
Proof.
  intros Ha Hb Hlen Hlk Hfd Hft Hmut Hdist.
  assert (forall c vc', h' !! c = Some vc' ->
            exists vc, h !! c = Some vc /\ vc' = edge_update fd ft a b c vc) as Hback.
  { intros c vc' Hc'.
    assert (is_Some (h !! c)) as [vc Hc].
    { apply lookup_lt_is_Some. rewrite <- Hlen. by eapply lookup_lt_Some. }
    exists vc. split; [done|]. rewrite (Hlk _ _ Hc) in Hc'. congruence. }
  split.
  - intros c d vc' vd' Hc' Hd'.
    destruct (Hback _ _ Hc') as (vc & Hc & ->), (Hback _ _ Hd') as (vd & Hd & ->).
    specialize (Hmut c d vc vd Hc Hd). unfold edge_update. simpl.
    assert (name vd = name vb <-> d = b) as Hname.
    { split; [by apply (Hdist d b vd vb) | intros ->; congruence]. }
    destruct (decide (d = b)) as [->|Hdb], (decide (c = a)) as [->|Hca];
      rewrite ?Hfd, ?Hft; destruct add; tauto.
  - intros c d vc' vd' Hc' Hd'.
    destruct (Hback _ _ Hc') as (vc & Hc & ->), (Hback _ _ Hd') as (vd & Hd & ->).
    simpl. by apply Hdist.
Qed.

(** X3.  On a heap whose objects have distinct names and whose dependency
    and dependent sets agree, they still agree after [addDependency] and
    after [removeDependency], whatever the two objects. *)
Theorem dependency_sets_stay_mutual w a b :
  mutual (heap w) -> distinct_names (heap w) ->
  (mutual (heap (addDependency a b w)) /\ distinct_names (heap (addDependency a b w))) /\
  (mutual (heap (removeDependency a b w)) /\
   distinct_names (heap (removeDependency a b w))).
Proof.
  intros Hmut Hdist.
  destruct (heap w !! a) as [va|] eqn:Ha;
    [|unfold addDependency, removeDependency; by rewrite Ha].
  destruct (heap w !! b) as [vb|] eqn:Hb;
    [|unfold addDependency, removeDependency; by rewrite Ha, Hb].
  split.
  - apply (mutual_edge_update true (set_add (name vb)) (set_add a) (heap w) _ a b va vb);
      try done.
    + apply addDependency_length.
    + intros c vc. by apply (addDependency_lookup w a b va vb).
    + intros x s. apply elem_of_set_add.
    + intros x s. apply elem_of_set_add.
  - apply (mutual_edge_update false (set_delete (name vb)) (set_delete a) (heap w) _
             a b va vb); try done.
    + apply removeDependency_length.
    + intros c vc. by apply (removeDependency_lookup w a b va vb).
    + intros x s. apply elem_of_set_delete.
    + intros x s. apply elem_of_set_delete.
Qed.

Lemma loose_world_mutual : mutual (heap loose_world) /\ distinct_names (heap loose_world).
Proof.
  split.
  - intros a b va vb Ha Hb.
    destruct b as [|[|b]]; simpl in Hb; try done; injection Hb as <-;
      destruct a as [|[|a]]; simpl in Ha; try done; injection Ha as <-; simpl;
        split; intros H; by apply elem_of_nil in H.
  - intros a b va vb Ha Hb.
    destruct b as [|[|b]]; simpl in Hb; try done; injection Hb as <-;
      destruct a as [|[|a]]; simpl in Ha; try done; injection Ha as <-; simpl; done.
Qed.

Lemma dependency_sets_stay_mutual_witness :
  (mutual (heap (addDependency 0 1 loose_world)) /\
   distinct_names (heap (addDependency 0 1 loose_world))) /\
  (mutual (heap (removeDependency 0 1 loose_world)) /\
   distinct_names (heap (removeDependency 0 1 loose_world))).
Proof.
  apply (dependency_sets_stay_mutual loose_world 0 1); apply loose_world_mutual.
Defined.

(** X4.  Whatever the fuel, a [markDirty] that returns has changed
    nothing but dirty flags, has raised and never cleared them, has only
    appended flag raises to the log, and leaves its variable dirty, so
    that a second [markDirty] on it changes nothing. *)
Theorem markDirty_only_raises_flags fuel a w w' :
  markDirty fuel a w = Some w' ->
  length (heap w') = length (heap w) /\
  (forall b v, heap w !! b = Some v ->
     exists d, heap w' !! b = Some (with_dirty v d) /\ (_dirty v = true -> d = true)) /\
  (exists ms, log w' = log w ++ map EvDirty ms) /\
  is_dirty (heap w') a = true /\
  markDirty (S fuel) a w' = Some w'.
Proof.
  intros Hrun.
  assert (forall f x t t', markDirty f x t = Some t' ->
            length (heap t') = length (heap t) /\
            forall b v, heap t !! b = Some v ->
              exists d, heap t' !! b = Some (with_dirty v d) /\
                        (_dirty v = true -> d = true)) as Hflags.
  { clear. induction f as [|f IH]; intros x t t' H; [done|]. simpl in H.
    destruct (heap t !! x) as [vx|] eqn:Hx; [|done].
    destruct (_dirty vx) eqn:Hdx.
    { injection H as <-. split; [done|]. intros b v Hb. exists (_dirty v).
      split; [|done]. rewrite Hb. by destruct v. }
    unfold notifyDependentsWith in H. simpl in H.
    rewrite list_lookup_insert_eq in H by (by eapply lookup_lt_Some). simpl in H.
    set (t1 := mkWorld (<[x:=with_dirty vx true]> (heap t)) (log t ++ [EvDirty x])) in H.
    assert (length (heap t1) = length (heap t) /\
            forall b v, heap t !! b = Some v ->
              exists d, heap t1 !! b = Some (with_dirty v d) /\
                        (_dirty v = true -> d = true)) as H1.
    { split; [simpl; by rewrite length_insert|]. intros b v Hb. simpl.
      destruct (decide (b = x)) as [->|Hne].
      - rewrite list_lookup_insert_eq by (by eapply lookup_lt_Some).
        exists true. split; [congruence|done].
      - rewrite list_lookup_insert_ne by done. exists (_dirty v).
        split; [|done]. rewrite Hb. by destruct v. }
    revert H H1. generalize t1. generalize (_dependents vx). clear -IH.
    induction l as [|d l IHl]; intros t1 H H1; simpl in H.
    - by injection H as <-.
    - destruct (markDirty f d t1) as [t2|] eqn:H2; [|done].
      apply (IHl t2 H). destruct (IH _ _ _ H2) as [Hlen2 Hh2], H1 as [Hlen1 Hh1].
      split; [congruence|]. intros b v Hb.
      destruct (Hh1 _ _ Hb) as (d1 & Hb1 & Hd1).
      destruct (Hh2 _ _ Hb1) as (d2 & Hb2 & Hd2).
      exists d2. split; [by rewrite Hb2|]. intros Hv. apply Hd2. simpl. by apply Hd1. }
  assert (is_dirty (heap w') a = true) as Hdirty.
  { destruct fuel as [|f]; [done|]. simpl in Hrun. unfold is_dirty.
    destruct (heap w !! a) as [v|] eqn:Hv; [|done].
    destruct (_dirty v) eqn:Hd.
    { injection Hrun as <-. by rewrite Hv. }
    unfold notifyDependentsWith in Hrun. simpl in Hrun.
    rewrite list_lookup_insert_eq in Hrun by (by eapply lookup_lt_Some). simpl in Hrun.
    assert (forall l t t', forEachM (markDirty f) l t = Some t' ->
              forall b v, heap t !! b = Some v -> _dirty v = true ->
                exists v', heap t' !! b = Some v' /\ _dirty v' = true) as Hkeep.
    { clear -Hflags. induction l as [|d l IHl]; intros t t' H b v Hb Hv; simpl in H.
      - injection H as <-. eauto.
      - destruct (markDirty f d t) as [t2|] eqn:H2; [|done].
        destruct (Hflags _ _ _ _ H2) as [_ Hh]. destruct (Hh _ _ Hb) as (d2 & Hb2 & Hd2).
        eapply (IHl _ _ H); [exact Hb2|]. simpl. by apply Hd2. }
    destruct (Hkeep _ _ _ Hrun a (with_dirty v true)) as (v' & -> & Hv'); [|done|done].
    simpl. by apply list_lookup_insert_eq, lookup_lt_Some with v. }
  destruct (Hflags _ _ _ _ Hrun) as [Hlen Hh].
  split; [done|]. split; [done|]. split; [by eapply markDirty_log_dirty|].
  split; [done|]. simpl. unfold is_dirty in Hdirty.
  destruct (heap w' !! a) as [v'|]; [|done]. by rewrite Hdirty.
Qed.

Lemma markDirty_only_raises_flags_witness :
  exists w',
    length (heap w') = length (heap cyclic_world) /\
    (forall b v, heap cyclic_world !! b = Some v ->
       exists d, heap w' !! b = Some (with_dirty v d) /\ (_dirty v = true -> d = true)) /\
    (exists ms, log w' = log cyclic_world ++ map EvDirty ms) /\
    is_dirty (heap w') 0 = true /\
    markDirty 5 0 w' = Some w'.
Proof.
  eexists. apply (markDirty_only_raises_flags 4 0 cyclic_world). reflexivity.
Defined.


(** X5.  After [dispose] a variable has neither listeners nor dependents:
    a [set] on it returns without needing fuel and logs nothing.  No other
    object is touched, so a variable that listed the disposed one as a
    dependent still does. *)
Theorem dispose_clears_own_sets_only w a v :
  heap w !! a = Some v ->
  (forall fuel now newValue,
     exists w', set fuel now a newValue (dispose a w) = Some w' /\ log w' = log w) /\
  (forall b, b <> a -> heap (dispose a w) !! b = heap w !! b) /\
  (forall b, b <> a -> edge (heap w) b a -> edge (heap (dispose a w)) b a).
Proof.
  intros Hv. assert (a < length (heap w)) as Ha by (by eapply lookup_lt_Some).
  assert (forall b, b <> a -> heap (dispose a w) !! b = heap w !! b) as Hother.
  { intros b Hne. unfold dispose. rewrite Hv. simpl. by rewrite list_lookup_insert_ne. }
  split; [|split; [done|]].
  - intros fuel now newValue. unfold dispose. rewrite Hv. unfold set. cbn [heap].
    rewrite list_lookup_insert_eq by done. cbn [_value].
    destruct (strict_eq (_value v) newValue); [by eexists|].
    unfold _notifyDependents, _notifyListeners, notifyDependentsWith. cbn [heap log].
    rewrite !list_lookup_insert_eq by (by rewrite ?length_insert).
    cbn [_listeners _dependents map forEachM heap].
    rewrite !list_lookup_insert_eq by (by rewrite ?length_insert).
    cbn [_dependents forEachM]. eexists. split; [done|]. simpl. by rewrite app_nil_r.
  - intros b Hne (vb & Hb & Hin). exists vb. split; [|done]. by rewrite Hother.
Qed.

Lemma dispose_clears_own_sets_only_witness :
  (forall fuel now newValue,
     exists w', set fuel now 1 newValue (dispose 1 chain_world) = Some w' /\
                log w' = log chain_world) /\
  (forall b, b <> 1 -> heap (dispose 1 chain_world) !! b = heap chain_world !! b) /\
  (forall b, b <> 1 -> edge (heap chain_world) b 1 ->
             edge (heap (dispose 1 chain_world)) b 1).
Proof.
  apply (dispose_clears_own_sets_only chain_world 1
           (mkVar "b" (VNum 2) ["a"] [2] 0 false [5])).
  reflexivity.
Defined.

End FlowVariableExtra.


(** ** ExecutionEngine: the frame budget and the queue *)

Module ExecutionEngineExtra.
Import JS FlowParser ExecutionEngine ExecutionEngineProofs.

(** X6.  [executeFrame] starts no task when the queue is empty (the clock
    is not even read) or when the first clock reading leaves at most 2ms
    of the frame: queue, console and trace stay as they were. *)
Theorem executeFrame_respects_budget e frameStartTime fuel :
  _taskQueue e = [] \/
  (maxFrameTime (_config e) - (clock e (reads e) - frameStartTime) <= 2)%Q ->
  exists e', executeFrame (S fuel) frameStartTime e = Some e' /\
             _taskQueue e' = _taskQueue e /\ console e' = console e /\
             trace e' = trace e /\
             reads e' = (match _taskQueue e with [] => reads e | _ => S (reads e) end).
Proof.
  intros H. unfold executeFrame. cbn [executeFrame_loop _taskQueue].
  destruct (_taskQueue e) as [|task rest].
  { eexists. by repeat split. }
  destruct H as [H|H]; [done|].
  unfold _getRemainingFrameTime, performance_now.
  cbn [_config clock reads _frameStartTime].
  destruct (Qlt_le_dec 2 _) as [Hlt|_].
  - exfalso. apply Q.max_lt_iff in Hlt as [Hlt|Hlt].
    + by apply (Qlt_irrefl 2), (Qlt_trans _ 0).
    + apply (Qlt_irrefl 2). by eapply Qlt_le_trans.
  - eexists. by repeat split.
Qed.

(** An engine whose clock reads 15ms into a 16ms frame. *)
Definition late_engine : ExecutionEngine :=
  schedule big_task (new_engine None None None None 4 (fun _ => 15%Q)).

Lemma executeFrame_respects_budget_witness :
  exists e', executeFrame 1 0 late_engine = Some e' /\
             _taskQueue e' = _taskQueue late_engine /\
             console e' = console late_engine /\
             trace e' = trace late_engine /\
             reads e' = (match _taskQueue late_engine with
                         | [] => reads late_engine
                         | _ => S (reads late_engine)
                         end).
Proof.
  apply (executeFrame_respects_budget late_engine 0 0).
  right. vm_compute. discriminate.
Defined.

(** The frame loop on a queue without chunked tasks, for any clock. *)
Lemma executeFrame_loop_simple queue e :
  _taskQueue e = queue -> Forall (fun t => chunks t = None) queue ->
  exists e' ran,
    (forall fuel, length queue < fuel -> executeFrame_loop fuel e = Some e') /\
    queue = ran ++ _taskQueue e' /\
    shifted (trace e') = shifted (trace e) ++ ran /\
    console e' = console e ++
      map (fun t => LogCompleted (id t) (_evaluateExpression (expression t))) ran.
Proof.
  revert e. induction queue as [|task rest IH]; intros e Hq Hsimple.
  - exists e, []. rewrite Hq, !app_nil_r. repeat split; try done.
    intros [|fuel] Hf; [simpl in Hf; lia|]. simpl. by rewrite Hq.
  - apply Forall_cons in Hsimple as [Htask Hrest].
    destruct (remaining_spec e) as (r & e1 & Hrem & (Hq1 & Hs1 & _) & Hc1 & _).
    destruct (Qlt_le_dec 2 r) as [Hlt|Hle] eqn:Hdec.
    + set (e2 := with_trace (with_queue e1 rest) (trace e1 ++ [Shifted task])).
      destruct (IH (_executeSimpleTask task e2)) as (e' & ran & Hrun & Hqueue & Hsh & Hcon);
        [done|done|].
      exists e', (task :: ran). split; [|split; [|split]].
      * intros [|fuel] Hf; [simpl in Hf; lia|]. cbn [executeFrame_loop].
        rewrite Hq, Hrem, Hdec, Htask. apply Hrun. simpl in Hf. lia.
      * simpl. by rewrite <- Hqueue.
      * rewrite Hsh. simpl. rewrite shifted_app, Hs1. simpl. by rewrite <- app_assoc.
      * rewrite Hcon. simpl. rewrite Hc1. by rewrite <- app_assoc.
    + exists e1, []. split; [|split; [|split]].
      * intros [|fuel] Hf; [simpl in Hf; lia|]. cbn [executeFrame_loop].
        by rewrite Hq, Hrem, Hdec.
      * simpl. congruence.
      * by rewrite app_nil_r.
      * simpl. by rewrite app_nil_r.
Qed.

(** X7.  When no queued task is chunked, [executeFrame] returns under
    every clock, within as many loop turns as there are tasks.  The tasks
    it took are a front part of the queue, the others stay queued in
    order, and each task taken logged exactly one completion, carrying its
    id and the value of its expression, in queue order. *)
Theorem executeFrame_simple_tasks e frameStartTime :
  Forall (fun t => chunks t = None) (_taskQueue e) ->
  exists e' ran,
    (forall fuel, length (_taskQueue e) < fuel ->
                  executeFrame fuel frameStartTime e = Some e') /\
    _taskQueue e = ran ++ _taskQueue e' /\
    shifted (trace e') = shifted (trace e) ++ ran /\
    console e' = console e ++
      map (fun t => LogCompleted (id t) (_evaluateExpression (expression t))) ran.
Proof.
  intros Hsimple. unfold executeFrame.
  by apply (executeFrame_loop_simple (_taskQueue e)
              (mkEngine (_config e) (_taskQueue e) frameStartTime (clock e) (reads e)
                        (console e) (trace e))).
Qed.

Lemma executeFrame_simple_tasks_witness :
  let e := fold_left (fun e t => schedule t e) three_tasks still_engine in
  exists e' ran,
    (forall fuel, length (_taskQueue e) < fuel -> executeFrame fuel 0 e = Some e') /\
    _taskQueue e = ran ++ _taskQueue e' /\
    shifted (trace e') = shifted (trace e) ++ ran /\
    console e' = console e ++
      map (fun t => LogCompleted (id t) (_evaluateExpression (expression t))) ran.
Proof.
  apply (executeFrame_simple_tasks
           (fold_left (fun e t => schedule t e) three_tasks still_engine) 0).
  repeat constructor.
Defined.

(** X8.  [schedule] puts the task behind every queued task of the same or
    a higher priority and in front of every task of lower priority; the
    queued tasks keep their places relative to each other, and a queue in
    descending priority order stays so. *)
Theorem schedule_insertion_point task e :
  StronglySorted by_priority (_taskQueue e) ->
  exists front back,
    _taskQueue e = front ++ back /\
    _taskQueue (schedule task e) = front ++ prepared task :: back /\
    Forall (fun t => (priority task <= priority t)%Z) front /\
    Forall (fun t => (priority t < priority task)%Z) back /\
    StronglySorted by_priority (_taskQueue (schedule task e)).
Proof.
  intros Hs. rewrite schedule_queue.
  assert (priority (prepared task) = priority task) as Hp.
  { unfold prepared. by destruct (100 <? _). }
  assert (exists front back,
            _taskQueue e = front ++ back /\
            insert_by_priority (prepared task) (_taskQueue e) =
              front ++ prepared task :: back /\
            Forall (fun t => (priority task <= priority t)%Z) front /\
            Forall (fun t => (priority t < priority task)%Z) back)
    as (front & back & H1 & H2 & H3 & H4).
  { induction Hs as [|t rest Hs IH Hall]; simpl.
    - exists [], []. by repeat split.
    - rewrite Hp. destruct (priority t <? priority task)%Z eqn:Hlt.
      + apply Z.ltb_lt in Hlt. exists [], (t :: rest). repeat split; try done.
        constructor; [done|]. eapply Forall_impl; [exact Hall|].
        unfold by_priority. intros; lia.
      + apply Z.ltb_ge in Hlt. destruct IH as (front & back & H1 & H2 & H3 & H4).
        exists (t :: front), back. simpl. rewrite H1 at 1. rewrite H2.
        repeat split; try done. by constructor. }
  exists front, back. repeat split; try done.
  by apply insert_by_priority_sorted.
Qed.

Lemma schedule_insertion_point_witness :
  let e := fold_left (fun e t => schedule t e) three_tasks still_engine in
  exists front back,
    _taskQueue e = front ++ back /\
    _taskQueue (schedule big_task e) = front ++ prepared big_task :: back /\
    Forall (fun t => (priority big_task <= priority t)%Z) front /\
    Forall (fun t => (priority t < priority big_task)%Z) back /\
    StronglySorted by_priority (_taskQueue (schedule big_task e)).
Proof.
  apply (schedule_insertion_point big_task
           (fold_left (fun e t => schedule t e) three_tasks still_engine)).
  repeat constructor; unfold by_priority; simpl; lia.
Defined.

Lemma remaining_eq e :
  _getRemainingFrameTime e =
  (Qmax 0 (maxFrameTime (_config e) - (clock e (reads e) - _frameStartTime e)),
   mkEngine (_config e) (_taskQueue e) (_frameStartTime e) (clock e) (S (reads e))
            (console e) (trace e)).
Proof. done. Qed.

(** The chunk loop under any clock: it runs a front part of the chunks. *)
Lemma chunk_loop_spec task cs chunkIndex e :
  exists n e',
    chunk_loop task cs chunkIndex e = (chunkIndex + n, e') /\ n <= length cs /\
    _taskQueue e' = _taskQueue e /\ console e' = console e /\
    trace e' = trace e ++ map (fun c => ChunkRan (chunk_id c)) (take n cs).
Proof.
  revert chunkIndex e. induction cs as [|c cs IH]; intros i e; cbn [chunk_loop].
  - exists 0, e. rewrite Nat.add_0_r, app_nil_r.
    split; [done|]. split; [done|]. by repeat split.
  - rewrite remaining_eq.
    set (e1 := mkEngine _ _ _ _ _ _ _).
    destruct (Qlt_le_dec 1 _).
    + unfold run_computation.
      destruct (IH (S i) (with_trace e1 (trace e1 ++ [ChunkRan (chunk_id c)])))
        as (n & e' & Hrun & Hn & Hq & Hc & Ht).
      exists (S n), e'. rewrite Hrun. split; [f_equal; lia|].
      split; [simpl; lia|]. split; [by rewrite Hq|]. split; [by rewrite Hc|].
      rewrite Ht. simpl. by rewrite <- app_assoc.
    + exists 0, e1. rewrite Nat.add_0_r. simpl. rewrite app_nil_r.
      split; [done|]. split; [lia|]. by repeat split.
Qed.

(** X9.  [_executeChunkedTask] under any clock runs a front part of the
    task's chunks, in order.  If all ran, the queue is untouched.  If some
    are left, the task goes back into the queue at its priority position:
    with the chunks that are left when its complexity is at most 100, and
    with a complete new chunk list, starting again at chunk 0, when its
    complexity exceeds 100. *)
Theorem executeChunkedTask_requeues task cs e :
  chunks task = Some cs ->
  exists n,
    n <= length cs /\
    trace (_executeChunkedTask task e) =
      trace e ++ map (fun c => ChunkRan (chunk_id c)) (take n cs) /\
    console (_executeChunkedTask task e) = console e /\
    _taskQueue (_executeChunkedTask task e) =
      if n <? length cs then
        insert_by_priority
          (with_chunks task
             (Some (if 100 <? complexity (expression task)
                    then _chunkComputation task else drop n cs)))
          (_taskQueue e)
      else _taskQueue e.
Proof.
  intros Hcs. unfold _executeChunkedTask. rewrite Hcs, remaining_eq.
  set (e0 := mkEngine _ _ _ _ _ _ _).
  destruct (chunk_loop_spec task cs 0 e0) as (n & e1 & -> & Hn & Hq & Hc & Ht).
  exists n. simpl. split; [done|].
  destruct (n <? length cs).
  - rewrite schedule_queue. unfold schedule, prepared. simpl.
    destruct (100 <? complexity (expression task)); simpl; rewrite ?Hq, ?Hc, ?Ht; done.
  - by rewrite Hq, Hc, Ht.
Qed.

Lemma executeChunkedTask_requeues_witness :
  let task := with_chunks big_task (Some (_chunkComputation big_task)) in
  let e := new_engine None None None None 4 short_frame_clock in
  exists n,
    n <= length (_chunkComputation big_task) /\
    trace (_executeChunkedTask task e) =
      trace e ++ map (fun c => ChunkRan (chunk_id c)) (take n (_chunkComputation big_task)) /\
    console (_executeChunkedTask task e) = console e /\
    _taskQueue (_executeChunkedTask task e) =
      if n <? length (_chunkComputation big_task) then
        insert_by_priority
          (with_chunks task
             (Some (if 100 <? complexity (expression task)
                    then _chunkComputation task
                    else drop n (_chunkComputation big_task))))
          (_taskQueue e)
      else _taskQueue e.
Proof.
  apply (executeChunkedTask_requeues
           (with_chunks big_task (Some (_chunkComputation big_task)))
           (_chunkComputation big_task)
           (new_engine None None None None 4 short_frame_clock)).
  reflexivity.
Defined.

End ExecutionEngineExtra.


(** ** FlowParser: tokens, dependencies, the main operator *)

Module FlowParserExtra.
Import JS FlowParser FlowParserProofs.

Lemma chars_str l : chars (str l) = l.
Proof. apply list_ascii_of_string_of_list_ascii. Qed.

Lemma str_chars s : str (chars s) = s.
Proof. apply string_of_list_ascii_of_string. Qed.

(** A well-formed token: not empty, without white space, and a
    punctuation character only as a token of its own. *)
Definition token_ok (t : string) : Prop :=
  chars t <> [] /\
  Forall (fun c => is_space c = false) (chars t) /\
  (Exists (fun c => is_punct c = true) (chars t) -> length (chars t) = 1).

(** The characters of [_tokenize]'s accumulator: neither space nor
    punctuation. *)
Definition plain_chars (l : list ascii) : Prop :=
  Forall (fun c => is_space c = false /\ is_punct c = false) l.

Lemma push_current_ok current tokens :
  plain_chars current -> Forall token_ok tokens ->
  Forall token_ok (push_current current tokens) /\
  concat (map chars (push_current current tokens)) =
    concat (map chars tokens) ++ rev current.
Proof.
  intros Hcur Htok. destruct current as [|c current]; simpl.
  { by rewrite app_nil_r. }
  split.
  - apply Forall_app. split; [done|]. constructor; [|constructor].
    unfold token_ok. rewrite chars_str.
    assert (plain_chars (rev current ++ [c])) as Hp.
    { apply Forall_app. apply Forall_cons in Hcur as [Hc Hcur]. split.
      - by apply Forall_rev.
      - by constructor. }
    split; [by destruct (rev current)|]. split.
    + eapply Forall_impl; [exact Hp|]. by intros ? [? _].
    + intros Hex. exfalso. apply Exists_exists in Hex as (x & Hx & Hpx).
      unfold plain_chars in Hp. rewrite Forall_forall in Hp.
      destruct (Hp x Hx) as [_ Hnp]. congruence.
  - rewrite map_app, concat_app. simpl. by rewrite chars_str, app_nil_r.
Qed.

Lemma tokenize_loop_ok expr current tokens :
  plain_chars current -> Forall token_ok tokens ->
  Forall token_ok (tokenize_loop expr current tokens) /\
  concat (map chars (tokenize_loop expr current tokens)) =
    concat (map chars tokens) ++ rev current ++
    List.filter (fun c => negb (is_space c)) expr.
Proof.
  revert current tokens. induction expr as [|char rest IH]; intros current tokens Hcur Htok.
  - simpl. rewrite app_nil_r. by apply push_current_ok.
  - cbn [tokenize_loop List.filter].
    destruct (push_current_ok current tokens Hcur Htok) as [Hpush Hcat].
    destruct (is_space char) eqn:Hsp; cbn [negb].
    + destruct (IH [] (push_current current tokens)) as [H1 H2]; [constructor|done|].
      split; [done|]. rewrite H2, Hcat. simpl. by rewrite <- app_assoc.
    + destruct (is_punct char) eqn:Hpu.
      * destruct (IH [] (push_current current tokens ++ [str [char]])) as [H1 H2];
          [constructor| |].
        { apply Forall_app. split; [done|]. constructor; [|constructor].
          unfold token_ok. rewrite chars_str. split; [done|]. split; [|done].
          by repeat constructor. }
        split; [done|]. rewrite H2, map_app, concat_app, Hcat.
        cbn [map concat]. rewrite chars_str. simpl. by rewrite <- !app_assoc.
      * destruct (IH (char :: current) tokens) as [H1 H2]; [by constructor|done|].
        split; [done|]. rewrite H2. simpl. by rewrite <- !app_assoc.
Qed.

(** X10.  Every token [_tokenize] returns is non-empty and free of white
    space, and holds a punctuation character only when it is that single
    character; put end to end, the tokens are the input with its white
    space removed. *)
Theorem tokenize_tokens expr :
  Forall token_ok (_tokenize expr) /\
  concat (map chars (_tokenize expr)) =
    List.filter (fun c => negb (is_space c)) (chars expr).
Proof.
  destruct (tokenize_loop_ok (chars expr) [] []) as [Hok Hcat]; [constructor..|].
  assert (_tokenize expr = tokenize_loop (chars expr) [] []) as ->; [|done].
  unfold _tokenize. apply forallb_filter_id.
  apply forallb_forall. intros t Ht. apply list_elem_of_In in Ht.
  rewrite Forall_forall in Hok. destruct (Hok t Ht) as [Hne _].
  apply Nat.ltb_lt. destruct t; [done|simpl; lia].
Qed.

Lemma existsb_str_eqb token l : existsb (str_eqb token) l = true <-> token ∈ l.
Proof.
  rewrite existsb_exists. split.
  - intros (x & Hx & Heq). apply str_eqb_true in Heq. subst. by apply list_elem_of_In.
  - intros Hin. exists token. split; [by apply list_elem_of_In|].
    unfold str_eqb. by destruct (decide (token = token)).
Qed.

(** A token that names a variable: identifier-shaped and no function. *)
Definition names_variable (token : string) : bool :=
  regex_test re_identifier token && negb (is_function token).

Lemma extractDependencies_loop_spec tokens variables :
  NoDup variables ->
  NoDup (extractDependencies_loop tokens variables) /\
  forall d, d ∈ extractDependencies_loop tokens variables <->
            d ∈ variables \/ (d ∈ tokens /\ names_variable d = true).
Proof.
  revert variables. induction tokens as [|token rest IH]; intros variables Hnd; simpl.
  - split; [done|]. intros d. split; [by left|]. intros [?|[Hin _]]; [done|].
    by apply elem_of_nil in Hin.
  - fold (names_variable token). destruct (names_variable token) eqn:Hnv.
    + destruct (existsb (str_eqb token) variables) eqn:Hex.
      * apply existsb_str_eqb in Hex. destruct (IH variables Hnd) as [H1 H2].
        split; [done|]. intros d. rewrite H2, elem_of_cons. split.
        -- intros [?|[? ?]]; [by left | right; tauto].
        -- intros [?|[[->|?] ?]]; [by left | by left | right; tauto].
      * assert (token ∉ variables) as Hnin.
        { intros Hin. apply existsb_str_eqb in Hin. congruence. }
        destruct (IH (variables ++ [token])) as [H1 H2].
        { apply NoDup_app. split; [done|]. split; [|apply NoDup_singleton].
          intros x Hx Hx'. apply list_elem_of_singleton in Hx'. by subst. }
        split; [done|]. intros d.
        rewrite H2, elem_of_app, list_elem_of_singleton, elem_of_cons. split.
        -- intros [[?| ->]|[? ?]]; [by left | right; tauto | right; tauto].
        -- intros [?|[[->|?] ?]]; [left; by left | left; by right | right; tauto].
    + destruct (IH variables Hnd) as [H1 H2]. split; [done|]. intros d.
      rewrite H2, elem_of_cons. split.
      * intros [?|[? ?]]; [by left | right; tauto].
      * intros [?|[[->|?] ?]]; [by left | congruence | right; tauto].
Qed.

(** X11.  The dependency list of an expression has no duplicates and
    holds exactly the tokens of the expression that are identifier-shaped
    and are not function names. *)
Theorem extractDependencies_spec expr :
  NoDup (_extractDependencies expr) /\
  forall d, d ∈ _extractDependencies expr <->
            d ∈ _tokenize expr /\ regex_test re_identifier d = true /\
            is_function d = false.
Proof.
  destruct (extractDependencies_loop_spec (_tokenize expr) []) as [H1 H2]; [constructor|].
  split; [done|]. intros d. unfold _extractDependencies. rewrite H2.
  unfold names_variable. rewrite andb_true_iff, negb_true_iff. split.
  - intros [Hin|?]; [by apply elem_of_nil in Hin | tauto].
  - intros ?. right. tauto.
Qed.

Lemma mapM_mono {A B : Type} (f g : A -> option B) l ys :
  (forall x y, f x = Some y -> g x = Some y) ->
  mapM f l = Some ys -> mapM g l = Some ys.
Proof.
  intros Hfg. revert ys. induction l as [|x l IH]; intros ys; simpl; [done|].
  destruct (f x) as [y|] eqn:Hx; [|done]. rewrite (Hfg _ _ Hx).
  destruct (mapM f l) as [ys'|]; [|done]. by rewrite (IH ys' eq_refl).
Qed.

Lemma parseTokens_fuel_mono fuel fuel' tokens ast :
  parseTokens_fuel fuel tokens = Some ast -> fuel <= fuel' ->
  parseTokens_fuel fuel' tokens = Some ast.
Proof.
  revert fuel' tokens ast. induction fuel as [|fuel IH]; intros fuel' tokens ast H Hle; [done|].
  destruct fuel' as [|fuel']; [lia|].
  destruct (decide (length tokens = 1)) as [Hone|Hone].
  { destruct tokens as [|t0 [|t1 rest]]; try done. }
  rewrite parseTokens_fuel_unfold in H |- * by done.
  destruct (_ && _ && _).
  - destruct (mapM (parseTokens_fuel fuel) _) as [args|] eqn:Hargs; [|done].
    erewrite mapM_mono; [exact H| |exact Hargs].
    intros x y Hx. apply IH; [done|lia].
  - destruct (0 <? _)%Z; [|done].
    destruct (parseTokens_fuel fuel (take _ _)) as [l|] eqn:Hl; [|done].
    destruct (parseTokens_fuel fuel (drop _ _)) as [r|] eqn:Hr; [|done].
    rewrite (IH fuel' _ _ Hl), (IH fuel' _ _ Hr) by lia. done.
Qed.

(** X12.  [_parseTokens] terminates on every token list: its recursion
    never goes deeper than the number of tokens, so every fuel above that
    number yields the same tree. *)
Theorem parseTokens_terminates tokens fuel :
  length tokens < fuel -> parseTokens_fuel fuel tokens = Some (_parseTokens tokens).
Proof.
  intros Hfuel. unfold _parseTokens.
  destruct (parseTokens_fuel_enough (S (length tokens)) tokens) as [ast Hast]; [lia|].
  rewrite Hast. eapply parseTokens_fuel_mono; [exact Hast | lia].
Qed.

Lemma parseTokens_terminates_witness :
  parseTokens_fuel 9 ["2"; "-"; "3"; "-"; "4"] =
  Some (_parseTokens ["2"; "-"; "3"; "-"; "4"]).
Proof. apply (parseTokens_terminates ["2"; "-"; "3"; "-"; "4"] 9). simpl. lia. Defined.

(** Position [i] holds an operator of precedence [p] that the
    right-to-left scan meets at parenthesis depth 0: the tokens after it
    have as many [")"] as ["("]. *)
Definition top_level_operator (tokens : list string) (i p : nat) : Prop :=
  (exists token, tokens !! i = Some token /\ precedence token = Some p) /\
  count_tok ")" (drop (S i) tokens) = count_tok "(" (drop (S i) tokens).

(** What the scan knows after visiting the positions from [lo] on. *)
Definition scanned (tokens : list string) (lo : nat) (minPrecedence : option nat)
  (operatorIndex : Z) : Prop :=
  match minPrecedence with
  | None => operatorIndex = (-1)%Z /\ forall j q, lo <= j -> ~ top_level_operator tokens j q
  | Some p =>
      exists i, operatorIndex = Z.of_nat i /\ lo <= i /\ top_level_operator tokens i p /\
        forall j q, lo <= j -> top_level_operator tokens j q -> p <= q /\ (q = p -> i <= j)
  end.

Lemma str_eqb_sym a b : str_eqb a b = str_eqb b a.
Proof. unfold str_eqb. destruct (decide (a = b)), (decide (b = a)); congruence. Qed.

Lemma findMainOperator_loop_scanned tokens rtokens suffix minPrecedence operatorIndex parenDepth :
  tokens = rev rtokens ++ suffix ->
  parenDepth = (Z.of_nat (count_tok ")" suffix) - Z.of_nat (count_tok "(" suffix))%Z ->
  scanned tokens (length rtokens) minPrecedence operatorIndex ->
  exists minPrecedence',
    scanned tokens 0 minPrecedence'
      (findMainOperator_loop rtokens minPrecedence operatorIndex parenDepth).
Proof.
  revert suffix minPrecedence operatorIndex parenDepth.
  induction rtokens as [|token rest IH]; intros suffix mp oi depth Htok Hdepth Hinv.
  { by exists mp. }
  simpl rev in Htok. rewrite <- app_assoc in Htok. simpl app in Htok.
  assert (tokens !! length rest = Some token) as Hat.
  { rewrite Htok, lookup_app_r; rewrite length_rev; [|lia]. by rewrite Nat.sub_diag. }
  assert (drop (S (length rest)) tokens = suffix) as Hdrop.
  { rewrite Htok. replace (S (length rest)) with (length (rev rest ++ [token])).
    - change (token :: suffix) with ([token] ++ suffix). rewrite app_assoc.
      by rewrite drop_app_length.
    - rewrite length_app, length_rev. simpl. lia. }
  (* the head is no candidate: the facts of [scanned] carry over *)
  assert ((forall q, ~ top_level_operator tokens (length rest) q) ->
          scanned tokens (length rest) mp oi) as Hskip.
  { intros Hno. destruct mp as [p|]; simpl in Hinv |- *.
    - destruct Hinv as (i & -> & Hlo & Hcand & Hmin). exists i.
      split; [done|]. split; [lia|]. split; [done|]. intros j q Hj Hc.
      destruct (decide (j = length rest)) as [->|]; [by destruct (Hno q)|].
      apply Hmin; [lia|done].
    - destruct Hinv as [-> Hnone]. split; [done|]. intros j q Hj Hc.
      destruct (decide (j = length rest)) as [->|]; [by destruct (Hno q)|].
      apply (Hnone j q); [lia|done]. }
  assert (forall q, top_level_operator tokens (length rest) q ->
                    precedence token = Some q /\ depth = 0%Z) as Hhead.
  { intros q [(t & Ht & Hp) Hd]. rewrite Hat in Ht. injection Ht as <-.
    rewrite Hdrop in Hd. split; [done|lia]. }
  simpl findMainOperator_loop.
  destruct (str_eqb token ")") eqn:Hclose.
  { apply str_eqb_true in Hclose. subst token.
    apply (IH (")" :: suffix)); [done| |].
    - rewrite !count_tok_cons. simpl. lia.
    - apply Hskip. intros q Hc. by destruct (Hhead q Hc). }
  destruct (str_eqb token "(") eqn:Hopen.
  { apply str_eqb_true in Hopen. subst token.
    apply (IH ("(" :: suffix)); [done| |].
    - rewrite !count_tok_cons. simpl. lia.
    - apply Hskip. intros q Hc. by destruct (Hhead q Hc). }
  assert (depth = (Z.of_nat (count_tok ")" (token :: suffix))
                   - Z.of_nat (count_tok "(" (token :: suffix)))%Z) as Hdepth'.
  { rewrite !count_tok_cons, (str_eqb_sym ")"), (str_eqb_sym "("), Hclose, Hopen.
    simpl. lia. }
  destruct (depth =? 0)%Z eqn:Hzero.
  2:{ apply (IH (token :: suffix)); [done|done|]. apply Hskip. intros q Hc.
      destruct (Hhead q Hc) as [_ ->]. done. }
  apply Z.eqb_eq in Hzero.
  destruct (precedence token) as [p|] eqn:Hprec.
  2:{ apply (IH (token :: suffix)); [done|done|]. apply Hskip. intros q Hc.
      by destruct (Hhead q Hc). }
  assert (top_level_operator tokens (length rest) p) as Hcand.
  { split; [by exists token|]. rewrite Hdrop. lia. }
  destruct (prec_le p mp) eqn:Hle.
  - apply (IH (token :: suffix)); [done|done|]. simpl. exists (length rest).
    split; [done|]. split; [lia|]. split; [done|]. intros j q Hj Hc.
    destruct (decide (j = length rest)) as [->|Hne].
    { destruct (Hhead q Hc) as [Hq _]. injection Hq as <-. lia. }
    destruct mp as [m|]; simpl in Hinv, Hle.
    + destruct Hinv as (i & _ & _ & _ & Hmin).
      destruct (Hmin j q) as [Hmq _]; [lia|done|].
      apply Nat.leb_le in Hle. lia.
    + destruct Hinv as [_ Hnone]. destruct (Hnone j q); [lia|done].
  - apply (IH (token :: suffix)); [done|done|].
    destruct mp as [m|]; simpl in Hinv, Hle |- *; [|done].
    apply Nat.leb_gt in Hle.
    destruct Hinv as (i & -> & Hlo & Hci & Hmin). exists i.
    split; [done|]. split; [lia|]. split; [done|]. intros j q Hj Hc.
    destruct (decide (j = length rest)) as [->|Hne].
    { destruct (Hhead q Hc) as [Hq _]. injection Hq as <-. lia. }
    apply Hmin; [lia|done].
Qed.

(** X13.  For every token list, [_findMainOperator] returns -1 exactly
    when no operator stands at parenthesis depth 0; otherwise it returns
    the position of such an operator whose precedence is the lowest, and
    among those of that precedence the leftmost one. *)
Theorem findMainOperator_leftmost_lowest tokens :
  (_findMainOperator tokens = (-1)%Z /\
   forall j q, ~ top_level_operator tokens j q) \/
  (exists i p, _findMainOperator tokens = Z.of_nat i /\
     top_level_operator tokens i p /\
     forall j q, top_level_operator tokens j q -> p <= q /\ (q = p -> i <= j)).
Proof.
  destruct (findMainOperator_loop_scanned tokens (rev tokens) [] None (-1) 0)
    as [mp Hmp].
  - by rewrite rev_involutive, app_nil_r.
  - done.
  - split; [done|]. intros j q Hj [(t & Ht & _) _].
    apply lookup_lt_Some in Ht. rewrite length_rev in Hj. lia.
  - fold (_findMainOperator tokens) in Hmp. destruct mp as [p|]; simpl in Hmp.
    + right. destruct Hmp as (i & Hi & _ & Hc & Hmin). exists i, p.
      split; [done|]. split; [done|]. intros j q. apply Hmin. lia.
    + left. destruct Hmp as [Hr Hnone]. split; [done|]. intros j q. apply Hnone. lia.
Qed.

End FlowParserExtra.


(** ** More of CacheManager.ts: sequences of calls, eviction, keys *)

Module CacheManagerExtra.
Import JS CacheManager CacheManagerProofs.

(** One call of the public interface, with the reading of [Date.now()]
    where the method takes one. *)
Inductive Call : Type :=
| CallSet (now : Z) (key : string) (v : JsVal) (ttlMs : option Z)
| CallGet (now : Z) (key : string)
| CallHas (now : Z) (key : string)
| CallDelete (key : string)
| CallClear.

Definition run_call (call : Call) (c : CacheManager) : CacheManager :=
  match call with
  | CallSet now key v ttlMs => set now key v ttlMs c
  | CallGet now key => snd (get now key c)
  | CallHas now key => snd (has now key c)
  | CallDelete key => delete key c
  | CallClear => clear c
  end.

Definition run_calls (calls : list Call) (c : CacheManager) : CacheManager :=
  fold_left (fun c call => run_call call c) calls c.

(** No [set] under the empty key. *)
Definition named (call : Call) : Prop :=
  match call with
  | CallSet _ key _ _ => key <> ""
  | _ => True
  end.

(** The two maps hold the same keys in the same order, no key is empty,
    every count is at least 1, and the capacity is kept. *)
Record cache_wf (c : CacheManager) : Prop := mkWf {
  wf_keys : map fst (_cache c) = map fst (_accessCount c);
  wf_nodup : NoDup (map fst (_cache c));
  wf_named : "" ∉ map fst (_cache c);
  wf_counts : Forall (fun kn => 1 <= snd kn) (_accessCount c);
  wf_size : length (_cache c) <= _maxSize c;
  wf_max : 1 <= _maxSize c
}.

(** [key] sits at position [i] of the access counts, no count is lower
    than its count, and no earlier key has the same count. *)
Definition least_used (counts : list (string * nat)) (i : nat) (key : string) : Prop :=
  exists n, counts !! i = Some (key, n) /\
    forall j k' n', counts !! j = Some (k', n') -> n <= n' /\ (n' = n -> i <= j).

Definition keys_without (k : string) (keys : list string) : list string :=
  List.filter (fun k' => negb (str_eqb k' k)) keys.

Definition keys_with (k : string) (keys : list string) : list string :=
  if decide (k ∈ keys) then keys else keys ++ [k].

Lemma map_delete_keys {V : Type} k (m : list (string * V)) :
  map fst (map_delete k m) = keys_without k (map fst m).
Proof.
  induction m as [|[k' v'] m IH]; [done|]. unfold map_delete, keys_without in *. simpl.
  destruct (str_eqb k' k); simpl; by rewrite IH.
Qed.

Lemma map_set_keys {V : Type} k (v : V) (m : list (string * V)) :
  map fst (map_set k v m) = keys_with k (map fst m).
Proof.
  unfold keys_with. destruct (decide (k ∈ map fst m)) as [Hin|Hnin].
  - induction m as [|[k' v'] m IH]; simpl in *; [by apply elem_of_nil in Hin|].
    destruct (str_eqb k' k) eqn:E; simpl.
    + apply str_eqb_eq in E. by subst.
    + apply str_eqb_neq in E. apply elem_of_cons in Hin as [?|Hin]; [congruence|].
      by rewrite IH.
  - rewrite map_set_fresh by done. by rewrite map_app.
Qed.

Lemma elem_of_keys_without k k' keys :
  k' ∈ keys_without k keys <-> k' ∈ keys /\ k' <> k.
Proof.
  unfold keys_without. rewrite !list_elem_of_In, filter_In, negb_true_iff, str_eqb_neq.
  done.
Qed.

Lemma keys_without_absent k keys : k ∉ keys -> keys_without k keys = keys.
Proof.
  induction keys as [|k' keys IH]; [done|]. rewrite not_elem_of_cons. intros [Hne Hnin].
  unfold keys_without in *. simpl.
  assert (str_eqb k' k = false) as -> by (apply str_eqb_neq; congruence).
  simpl. by rewrite IH.
Qed.

Lemma keys_without_length k keys :
  NoDup keys -> k ∈ keys -> S (length (keys_without k keys)) = length keys.
Proof.
  induction keys as [|k' keys IH]; intros Hnd Hin; [by apply elem_of_nil in Hin|].
  apply NoDup_cons in Hnd as [Hnin Hnd]. unfold keys_without in *. simpl.
  destruct (str_eqb k' k) eqn:E; simpl.
  - apply str_eqb_eq in E. subst k'.
    fold (keys_without k keys). by rewrite keys_without_absent.
  - apply str_eqb_neq in E. apply elem_of_cons in Hin as [?|Hin]; [congruence|].
    by rewrite IH.
Qed.

Lemma keys_without_NoDup k keys : NoDup keys -> NoDup (keys_without k keys).
Proof.
  induction keys as [|k' keys IH]; intros Hnd; [done|].
  apply NoDup_cons in Hnd as [Hnin Hnd]. unfold keys_without in *. simpl.
  destruct (str_eqb k' k); simpl; [by apply IH|].
  apply NoDup_cons. split; [|by apply IH].
  intros Hin. apply (elem_of_keys_without k k' keys) in Hin. tauto.
Qed.

Lemma keys_with_NoDup k keys : NoDup keys -> NoDup (keys_with k keys).
Proof.
  intros Hnd. unfold keys_with. destruct (decide (k ∈ keys)); [done|].
  apply NoDup_app. split; [done|]. split; [|apply NoDup_singleton].
  intros x Hx Hx'. apply list_elem_of_singleton in Hx'. by subst.
Qed.

Lemma elem_of_keys_with k k' keys : k' ∈ keys_with k keys <-> k' ∈ keys \/ k' = k.
Proof.
  unfold keys_with. destruct (decide (k ∈ keys)).
  - split; [by left|]. intros [?| ->]; done.
  - by rewrite elem_of_app, list_elem_of_singleton.
Qed.

Lemma keys_with_length k keys : length (keys_with k keys) <= S (length keys).
Proof.
  unfold keys_with. destruct (decide (k ∈ keys)); [lia|].
  rewrite length_app. simpl. lia.
Qed.

Lemma Forall_map_delete {V : Type} (P : string * V -> Prop) k m :
  Forall P m -> Forall P (map_delete k m).
Proof.
  intros H. apply List.Forall_forall. intros x Hx. apply filter_In in Hx as [Hx _].
  rewrite List.Forall_forall in H. by apply H.
Qed.

Lemma Forall_map_set {V : Type} (P : string * V -> Prop) k v m :
  Forall P m -> P (k, v) -> Forall P (map_set k v m).
Proof.
  intros H Hkv. induction H as [|[k' v'] m Hx Hm IH]; simpl.
  - by constructor.
  - destruct (str_eqb k' k); by constructor.
Qed.

Lemma keys_length {V : Type} (m : list (string * V)) : length m = length (map fst m).
Proof. by rewrite length_map. Qed.

(** *** The eviction scan *)

Lemma evict_scan_some rest prefix m k i :
  prefix !! i = Some (k, m) ->
  (forall j k' n', prefix !! j = Some (k', n') -> m <= n' /\ (n' = m -> i <= j)) ->
  exists i', least_used (prefix ++ rest) i' (evict_scan rest (Some m) k).
Proof.
  revert prefix m k i. induction rest as [|[key n] rest IH]; intros prefix m k i Hi Hmin.
  { rewrite app_nil_r. exists i, m. done. }
  simpl. change ((key, n) :: rest) with ([(key, n)] ++ rest). rewrite app_assoc.
  assert (i < length prefix) as Hlt by (by eapply lookup_lt_Some).
  destruct (n <? m) eqn:Hlow.
  - apply Nat.ltb_lt in Hlow. apply (IH _ n key (length prefix)).
    + rewrite lookup_app_r by lia. by rewrite Nat.sub_diag.
    + intros j k' n' Hj. destruct (decide (j < length prefix)) as [Hjl|Hjl].
      * rewrite lookup_app_l in Hj by done. destruct (Hmin _ _ _ Hj). lia.
      * apply lookup_lt_Some in Hj as Hjlt. rewrite length_app in Hjlt. simpl in Hjlt.
        assert (j = length prefix) as -> by lia.
        rewrite lookup_app_r, Nat.sub_diag in Hj by lia. injection Hj as <- <-. lia.
  - apply Nat.ltb_ge in Hlow. apply (IH _ m k i).
    + by rewrite lookup_app_l.
    + intros j k' n' Hj. destruct (decide (j < length prefix)) as [Hjl|Hjl].
      * rewrite lookup_app_l in Hj by done. by apply (Hmin _ k').
      * apply lookup_lt_Some in Hj as Hjlt. rewrite length_app in Hjlt. simpl in Hjlt.
        assert (j = length prefix) as -> by lia.
        rewrite lookup_app_r, Nat.sub_diag in Hj by lia. injection Hj as <- <-. lia.
Qed.

Lemma evict_scan_least_used counts :
  counts <> [] -> exists i, least_used counts i (evict_scan counts None "").
Proof.
  destruct counts as [|[k0 n0] rest]; [done|]. intros _. simpl.
  apply (evict_scan_some rest [(k0, n0)] n0 k0 0); [done|].
  intros [|j] k' n' Hj; [|done]. injection Hj as <- <-. lia.
Qed.

Lemma least_used_key counts i key : least_used counts i key -> key ∈ map fst counts.
Proof.
  intros (n & Hi & _). apply list_elem_of_fmap. exists (key, n). split; [done|].
  by eapply list_elem_of_lookup_2.
Qed.

(** *** The invariant *)

Lemma delete_wf key c : cache_wf c -> cache_wf (delete key c).
Proof.
  intros [Hk Hnd Hnm Hc Hs Hm]. split; simpl.
  - by rewrite !map_delete_keys, Hk.
  - rewrite map_delete_keys. by apply keys_without_NoDup.
  - rewrite map_delete_keys. intros Hin. apply elem_of_keys_without in Hin. tauto.
  - by apply Forall_map_delete.
  - pose proof (map_delete_length key (_cache c)). lia.
  - done.
Qed.

Lemma delete_size key c :
  cache_wf c -> key ∈ map fst (_cache c) -> S (size (delete key c)) = size c.
Proof.
  intros Hwf Hin. unfold size. simpl.
  rewrite (keys_length (map_delete _ _)), map_delete_keys, (keys_length (_cache c)).
  apply keys_without_length; [apply Hwf|done].
Qed.

Lemma evictLRU_spec c :
  cache_wf c -> 0 < size c ->
  exists i key, least_used (_accessCount c) i key /\ _evictLRU c = delete key c /\
                key ∈ map fst (_cache c).
Proof.
  intros Hwf Hsize. destruct (evict_scan_least_used (_accessCount c)) as [i Hi].
  { intros Hnil. unfold size in Hsize. rewrite keys_length, (wf_keys c Hwf), Hnil in Hsize.
    simpl in Hsize. lia. }
  exists i, (evict_scan (_accessCount c) None "").
  assert (evict_scan (_accessCount c) None "" ∈ map fst (_cache c)) as Hin.
  { rewrite (wf_keys c Hwf). by eapply least_used_key. }
  split; [done|]. split; [|done]. unfold _evictLRU.
  destruct (str_eqb _ "") eqn:E; [|done].
  apply str_eqb_eq in E. rewrite E in Hin. by destruct (wf_named c Hwf).
Qed.

Lemma get_wf now key c : cache_wf c -> cache_wf (snd (get now key c)).
Proof.
  intros Hwf. unfold get. destruct (map_get key (_cache c)) as [entry|] eqn:Hget; [|done].
  destruct (expired now entry); [by apply delete_wf|].
  assert (key ∈ map fst (_accessCount c)) as Hin.
  { rewrite <- (wf_keys c Hwf). destruct (decide (key ∈ map fst (_cache c))); [done|].
    apply map_get_None in n. congruence. }
  destruct Hwf as [Hk Hnd Hnm Hc Hs Hm]. split; simpl; try done.
  - rewrite map_set_keys. unfold keys_with. by destruct (decide _).
  - apply Forall_map_set; [done|]. simpl. lia.
Qed.

Lemma has_wf now key c : cache_wf c -> cache_wf (snd (has now key c)).
Proof.
  intros Hwf. unfold has. destruct (map_has key (_cache c)); [|done].
  pose proof (get_wf now key c Hwf). by destruct (get now key c).
Qed.

Lemma set_wf now key v ttlMs c :
  key <> "" -> cache_wf c -> cache_wf (set now key v ttlMs c).
Proof.
  intros Hkey Hwf. unfold set.
  set (c1 := if _maxSize c <=? length (_cache c) then _evictLRU c else c).
  assert (cache_wf c1 /\ _maxSize c1 = _maxSize c /\
          (length (_cache c1) < _maxSize c \/ key ∈ map fst (_cache c1) /\
           length (_cache c1) <= _maxSize c)) as (Hwf1 & Hmax & Hroom).
  { subst c1. destruct (_maxSize c <=? length (_cache c)) eqn:Hfull.
    - apply Nat.leb_le in Hfull. pose proof (wf_max c Hwf). pose proof (wf_size c Hwf).
      destruct (evictLRU_spec c Hwf) as (i & k & _ & -> & Hin); [unfold size; lia|].
      split; [by apply delete_wf|]. split; [done|]. left.
      pose proof (delete_size k c Hwf Hin). unfold size in *. lia.
    - apply Nat.leb_gt in Hfull. split; [done|]. split; [done|]. by left. }
  destruct Hwf1 as [Hk Hnd Hnm Hc Hs Hm]. split; simpl.
  - by rewrite !map_set_keys, Hk.
  - rewrite map_set_keys. by apply keys_with_NoDup.
  - rewrite map_set_keys. intros Hin. apply elem_of_keys_with in Hin as [?|?]; [done|].
    congruence.
  - apply Forall_map_set; [done|]. simpl. lia.
  - rewrite keys_length, map_set_keys, Hmax. destruct Hroom as [Hlt|[Hin Hle]].
    + pose proof (keys_with_length key (map fst (_cache c1))).
      rewrite <- keys_length in H. lia.
    + unfold keys_with. destruct (decide _); [|done]. by rewrite <- keys_length.
  - done.
Qed.

Lemma run_call_wf call c : named call -> cache_wf c -> cache_wf (run_call call c).
Proof.
  destruct call; simpl; intros Hn Hwf.
  - by apply set_wf.
  - by apply get_wf.
  - by apply has_wf.
  - by apply delete_wf.
  - destruct Hwf. split; simpl; try done; [constructor | by intros ?%elem_of_nil | lia].
Qed.

Lemma run_calls_wf calls c :
  Forall named calls -> cache_wf c -> cache_wf (run_calls calls c).
Proof.
  intros H. revert c. induction H as [|call calls Hn _ IH]; intros c Hwf; [done|].
  simpl. apply IH. by apply run_call_wf.
Qed.

Lemma new_cache_wf maxSize : 1 <= maxSize -> cache_wf (new_cache (Some maxSize)).
Proof.
  intros Hm. split; simpl; try done; [constructor | by intros ?%elem_of_nil | lia].
Qed.

(** X14.  A cache built with a capacity of at least 1 never holds more
    entries than its capacity, whatever sequence of [set], [get], [has],
    [delete] and [clear] is run on it, as long as no [set] uses the empty
    key; its two maps keep the same keys in the same order. *)
Theorem cache_stays_within_capacity maxSize calls :
  1 <= maxSize -> Forall named calls ->
  size (run_calls calls (new_cache (Some maxSize))) <= maxSize /\
  map fst (_cache (run_calls calls (new_cache (Some maxSize)))) =
  map fst (_accessCount (run_calls calls (new_cache (Some maxSize)))).
Proof.
  intros Hm Hcalls.
  pose proof (run_calls_wf calls _ Hcalls (new_cache_wf maxSize Hm)) as Hwf.
  assert (forall calls c, _maxSize (run_calls calls c) = _maxSize c) as Hmax.
  { clear. induction calls as [|call calls IH]; intros c; [done|]. simpl. rewrite IH.
    destruct call; simpl; try done.
    - by destruct (_maxSize c <=? _); [unfold _evictLRU; destruct (str_eqb _ _)|].
    - unfold get. destruct (map_get _ _); [|done]. by destruct (expired _ _).
    - unfold has, get. destruct (map_has _ _); [|done].
      destruct (map_get _ _); [|done]. by destruct (expired _ _). }
  split; [|apply Hwf]. pose proof (wf_size _ Hwf) as Hs. by rewrite Hmax in Hs.
Qed.

Lemma cache_stays_within_capacity_witness :
  size (run_calls [CallSet 0 "a" (VNum 1) None; CallSet 1 "b" (VNum 2) (Some 5%Z);
                   CallGet 2 "a"; CallSet 3 "c" VNull None; CallHas 9 "b"]
                  (new_cache (Some 2))) <= 2 /\
  map fst (_cache (run_calls [CallSet 0 "a" (VNum 1) None; CallSet 1 "b" (VNum 2) (Some 5%Z);
                   CallGet 2 "a"; CallSet 3 "c" VNull None; CallHas 9 "b"]
                  (new_cache (Some 2)))) =
  map fst (_accessCount (run_calls [CallSet 0 "a" (VNum 1) None; CallSet 1 "b" (VNum 2) (Some 5%Z);
                   CallGet 2 "a"; CallSet 3 "c" VNull None; CallHas 9 "b"]
                  (new_cache (Some 2)))).
Proof.
  apply (cache_stays_within_capacity 2
           [CallSet 0 "a" (VNum 1) None; CallSet 1 "b" (VNum 2) (Some 5%Z);
            CallGet 2 "a"; CallSet 3 "c" VNull None; CallHas 9 "b"]); [lia|].
  repeat constructor; simpl; discriminate.
Defined.

(** X15.  What [_evictLRU] removes: on a cache reached as above that holds
    something, exactly one entry goes, and it is the key with the lowest
    access count, the earliest inserted among those with that count; how
    recently a key was read plays no part. *)
Theorem evictLRU_removes_first_least_counted c :
  cache_wf c -> 0 < size c ->
  exists i key,
    least_used (_accessCount c) i key /\
    _evictLRU c = delete key c /\
    S (size (_evictLRU c)) = size c /\
    map_has key (_cache (_evictLRU c)) = false.
Proof.
  intros Hwf Hsize. destruct (evictLRU_spec c Hwf Hsize) as (i & key & Hleast & Heq & Hin).
  exists i, key. split; [done|]. split; [done|]. rewrite Heq. split.
  - by apply delete_size.
  - unfold map_has. simpl. by rewrite map_get_delete_eq.
Qed.

Lemma evictLRU_removes_first_least_counted_witness :
  exists i key,
    least_used
      (_accessCount (run_calls [CallSet 0 "a" VNull None; CallSet 1 "b" VNull None;
                                CallSet 2 "c" VNull None; CallGet 3 "a"; CallGet 4 "b";
                                CallGet 5 "a"] (new_cache (Some 3)))) i key /\
    _evictLRU (run_calls [CallSet 0 "a" VNull None; CallSet 1 "b" VNull None;
                          CallSet 2 "c" VNull None; CallGet 3 "a"; CallGet 4 "b";
                          CallGet 5 "a"] (new_cache (Some 3))) =
    delete key (run_calls [CallSet 0 "a" VNull None; CallSet 1 "b" VNull None;
                           CallSet 2 "c" VNull None; CallGet 3 "a"; CallGet 4 "b";
                           CallGet 5 "a"] (new_cache (Some 3))) /\
    S (size (_evictLRU (run_calls [CallSet 0 "a" VNull None; CallSet 1 "b" VNull None;
                          CallSet 2 "c" VNull None; CallGet 3 "a"; CallGet 4 "b";
                          CallGet 5 "a"] (new_cache (Some 3))))) =
    size (run_calls [CallSet 0 "a" VNull None; CallSet 1 "b" VNull None;
                     CallSet 2 "c" VNull None; CallGet 3 "a"; CallGet 4 "b";
                     CallGet 5 "a"] (new_cache (Some 3))) /\
    map_has key (_cache (_evictLRU (run_calls [CallSet 0 "a" VNull None;
                          CallSet 1 "b" VNull None; CallSet 2 "c" VNull None; CallGet 3 "a";
                          CallGet 4 "b"; CallGet 5 "a"] (new_cache (Some 3))))) = false.
Proof.
  apply (evictLRU_removes_first_least_counted
           (run_calls [CallSet 0 "a" VNull None; CallSet 1 "b" VNull None;
                       CallSet 2 "c" VNull None; CallGet 3 "a"; CallGet 4 "b";
                       CallGet 5 "a"] (new_cache (Some 3)))).
  - apply run_calls_wf; [repeat constructor; simpl; discriminate | apply new_cache_wf; lia].
  - vm_compute. lia.
Defined.

(** An entry written at [now] with [ttlMs] can still be read at [now']:
    no TTL, a TTL of 0, an expiry time of 0 (both falsy), or [now'] not
    past the expiry time. *)
Definition readable (now now' : Z) (ttlMs : option Z) : Prop :=
  match ttlMs with
  | None => True
  | Some t => t = 0%Z \/ (now + t = 0)%Z \/ (now' <= now + t)%Z
  end.

Lemma expired_set now now' key v ttlMs c :
  exists entry,
    map_get key (_cache (set now key v ttlMs c)) = Some entry /\
    value entry = v /\
    (readable now now' ttlMs -> expired now' entry = false) /\
    (~ readable now now' ttlMs -> expired now' entry = true).
Proof.
  eexists. split; [unfold set; simpl; apply map_get_set_eq|]. split; [done|].
  unfold expired, readable. simpl. destruct ttlMs as [t|]; simpl.
  - destruct (t =? 0)%Z eqn:Ht; simpl.
    + apply Z.eqb_eq in Ht. split; [done|]. intros Hn. destruct Hn. by left.
    + apply Z.eqb_neq in Ht. destruct (now + t =? 0)%Z eqn:Hz; simpl.
      * apply Z.eqb_eq in Hz. split; [done|]. intros Hn. destruct Hn. right. by left.
      * apply Z.eqb_neq in Hz. split.
        -- intros [?|[?|Hle]]; [done|done|]. apply Z.ltb_ge. lia.
        -- intros Hn. apply Z.ltb_lt. lia.
  - split; [done|]. intros Hn. by destruct Hn.
Qed.

(** X16.  Round trip: a value written with [set] is what [get] returns
    for that key while the entry is readable, whatever the cache held
    before; the read raises the key's access count from 1 to 2 and leaves
    the stored entries as they were. *)
Theorem set_get_round_trip now now' key v ttlMs c :
  readable now now' ttlMs ->
  fst (get now' key (set now key v ttlMs c)) = v /\
  map_get key (_accessCount (snd (get now' key (set now key v ttlMs c)))) = Some 2 /\
  _cache (snd (get now' key (set now key v ttlMs c))) = _cache (set now key v ttlMs c).
Proof.
  intros Hr. destruct (expired_set now now' key v ttlMs c) as (entry & Hget & Hv & Hlive & _).
  unfold get. rewrite Hget, (Hlive Hr).
  assert (map_get key (_accessCount (set now key v ttlMs c)) = Some 1) as ->.
  { unfold set. simpl. apply map_get_set_eq. }
  simpl. split; [done|]. split; [|done]. apply map_get_set_eq.
Qed.

Lemma set_get_round_trip_witness :
  fst (get 1500 "w" (set 1000 "w" (VNum 3) (Some 500%Z) (new_cache None))) = VNum 3 /\
  map_get "w" (_accessCount
     (snd (get 1500 "w" (set 1000 "w" (VNum 3) (Some 500%Z) (new_cache None))))) = Some 2 /\
  _cache (snd (get 1500 "w" (set 1000 "w" (VNum 3) (Some 500%Z) (new_cache None)))) =
  _cache (set 1000 "w" (VNum 3) (Some 500%Z) (new_cache None)).
Proof.
  apply (set_get_round_trip 1000 1500 "w" (VNum 3) (Some 500%Z) (new_cache None)).
  simpl. right. right. lia.
Defined.

(** X17.  Expiry is lazy and final: the first [get] past the expiry time
    returns [undefined] and deletes the key from both maps, so that every
    later [get] and [has] of the key, at any time, finds nothing. *)
Theorem expired_entry_is_dropped now now' key v ttlMs c :
  ~ readable now now' ttlMs ->
  get now' key (set now key v ttlMs c) =
    (VUndefined, delete key (set now key v ttlMs c)) /\
  forall now'',
    get now'' key (delete key (set now key v ttlMs c)) =
      (VUndefined, delete key (set now key v ttlMs c)) /\
    has now'' key (delete key (set now key v ttlMs c)) =
      (false, delete key (set now key v ttlMs c)).
Proof.
  intros Hr. destruct (expired_set now now' key v ttlMs c) as (entry & Hget & _ & _ & Hdead).
  split.
  - unfold get. by rewrite Hget, (Hdead Hr).
  - intros now''. unfold has, map_has, get.
    assert (map_get key (_cache (delete key (set now key v ttlMs c))) = None) as ->; [|done].
    unfold delete. simpl. apply map_get_delete_eq.
Qed.

Lemma expired_entry_is_dropped_witness :
  get 1501 "w" (set 1000 "w" (VNum 3) (Some 500%Z) (new_cache None)) =
    (VUndefined, delete "w" (set 1000 "w" (VNum 3) (Some 500%Z) (new_cache None))) /\
  forall now'',
    get now'' "w" (delete "w" (set 1000 "w" (VNum 3) (Some 500%Z) (new_cache None))) =
      (VUndefined, delete "w" (set 1000 "w" (VNum 3) (Some 500%Z) (new_cache None))) /\
    has now'' "w" (delete "w" (set 1000 "w" (VNum 3) (Some 500%Z) (new_cache None))) =
      (false, delete "w" (set 1000 "w" (VNum 3) (Some 500%Z) (new_cache None))).
Proof.
  apply (expired_entry_is_dropped 1000 1501 "w" (VNum 3) (Some 500%Z) (new_cache None)).
  simpl. lia.
Defined.

(** *** Keys *)

Lemma mapM_None {A B : Type} (f : A -> option B) l :
  FlowParser.mapM f l = None <-> exists x, x ∈ l /\ f x = None.
Proof.
  induction l as [|x l IH]; simpl.
  - split; [done|]. intros (x & Hx & _). by apply elem_of_nil in Hx.
  - destruct (f x) as [y|] eqn:Hx.
    + destruct (FlowParser.mapM f l) as [ys|].
      * split; [done|]. intros (x' & Hin & Hx'). apply elem_of_cons in Hin as [->|Hin].
        -- congruence.
        -- assert (Some ys = None) as Hn; [|done]. apply IH. by exists x'.
      * split; [|done]. intros _. destruct (proj1 IH eq_refl) as (x' & Hin & Hx').
        exists x'. split; [by right|done].
    + split; [|done]. intros _. exists x. split; [by left|done].
Qed.

Lemma hashValue_None v : _hashValue v = None <-> v = VUndefined.
Proof. destruct v as [| |b|q| |s]; simpl; done. Qed.

(** X18.  [generateKey] throws exactly when some dependency holds
    [undefined]; for every other record of the values modelled it returns
    a key, under any collation. *)
Theorem generateKey_throws_iff_undefined localeCompare expression dependencies :
  generateKey localeCompare expression dependencies = None <->
  exists name, (name, VUndefined) ∈ dependencies.
Proof.
  unfold generateKey.
  destruct (FlowParser.mapM dep_piece (sort_entries localeCompare dependencies))
    as [pieces|] eqn:Hm.
  - split; [done|]. intros (name & Hin).
    assert (FlowParser.mapM dep_piece (sort_entries localeCompare dependencies) = None)
      as Hn; [|congruence].
    apply mapM_None. exists (name, VUndefined). split; [|done].
    by rewrite sort_entries_perm.
  - split; [|done]. intros _. apply mapM_None in Hm as ([name v] & Hin & Hp).
    rewrite sort_entries_perm in Hin. exists name.
    unfold dep_piece in Hp. simpl in Hp.
    destruct (_hashValue v) eqn:Hv; [done|]. apply hashValue_None in Hv. by subst.
Qed.

(** The polynomial of [_hashString], by Horner's rule, over the integers. *)
Fixpoint horner (l : list ascii) (hash : Z) : Z :=
  match l with
  | [] => hash
  | c :: l' => horner l' (31 * hash + Z.of_nat (code c))
  end.

Lemma to_int32_wrap x : exists k, to_int32 x = (x + k * 2 ^ 32)%Z.
Proof.
  unfold to_int32. exists (- ((x + 2 ^ 31) / 2 ^ 32))%Z.
  pose proof (Z.div_mod (x + 2 ^ 31) (2 ^ 32)). lia.
Qed.

Lemma to_int32_congr x k : to_int32 (x + k * 2 ^ 32) = to_int32 x.
Proof.
  unfold to_int32. replace (x + k * 2 ^ 32 + 2 ^ 31)%Z with (x + 2 ^ 31 + k * 2 ^ 32)%Z by lia.
  by rewrite Z_mod_plus_full.
Qed.

Lemma horner_congr l x k : exists k', horner l (x + k * 2 ^ 32) = (horner l x + k' * 2 ^ 32)%Z.
Proof.
  revert x k. induction l as [|c l IH]; intros x k; simpl; [by exists k|].
  destruct (IH (31 * x + Z.of_nat (code c))%Z (31 * k)%Z) as [k' Hk'].
  exists k'. rewrite <- Hk'. f_equal. lia.
Qed.

Lemma hash_loop_horner l x : hash_loop l (to_int32 x) = to_int32 (horner l x).
Proof.
  revert x. induction l as [|c l IH]; intros x; simpl; [done|].
  rewrite IH. rewrite Z.shiftl_mul_pow2 by lia.
  destruct (to_int32_wrap x) as [k Hk].
  destruct (to_int32_wrap (to_int32 x * 2 ^ 5)) as [k2 Hk2].
  rewrite Hk2, Hk.
  destruct (horner_congr l (31 * x + Z.of_nat (code c)) (31 * k + k2)) as [k' Hk'].
  replace ((x + k * 2 ^ 32) * 2 ^ 5 + k2 * 2 ^ 32 - (x + k * 2 ^ 32) + Z.of_nat (code c))%Z
    with (31 * x + Z.of_nat (code c) + (31 * k + k2) * 2 ^ 32)%Z by lia.
  rewrite Hk'. apply to_int32_congr.
Qed.

Lemma horner_app l1 l2 x : horner (l1 ++ l2) x = horner l2 (horner l1 x).
Proof. revert x. induction l1 as [|c l1 IH]; intros x; simpl; [done|]. apply IH. Qed.

Lemma chars_append a b : chars (a +:+ b) = chars a ++ chars b.
Proof. induction a as [|c a IH]; simpl; [done|]. unfold chars in *. simpl. by rewrite IH. Qed.

(** X19.  [_hashString] is the base-31 polynomial of the code units
    wrapped once to a signed 32-bit integer: the wrap-around after each
    character changes nothing.  So distinct strings collide: replacing
    ["Aa"] by ["BB"] anywhere in a string keeps its hash. *)
Theorem hashString_is_polynomial s :
  _hashString s = Z_to_string 16 (to_int32 (horner (chars s) 0)) /\
  forall a b, _hashString (a +:+ "Aa" +:+ b) = _hashString (a +:+ "BB" +:+ b).
Proof.
  assert (forall s, hash_loop (chars s) 0 = to_int32 (horner (chars s) 0)) as Hpoly.
  { intros s'. change 0%Z with (to_int32 0) at 1. apply hash_loop_horner. }
  split; [unfold _hashString; by rewrite Hpoly|].
  intros a b. unfold _hashString. rewrite !Hpoly, !chars_append, !horner_app.
  f_equal. f_equal. f_equal. simpl. unfold code.
  change (nat_of_ascii "A"%char) with 65. change (nat_of_ascii "a"%char) with 97.
  change (nat_of_ascii "B"%char) with 66. lia.
Qed.

End CacheManagerExtra.
